(** * Connected Runtime Services: native telemetry buffers, event queue and
      control channel (hotspot/src/share/vm/services/connectedRuntime.cpp)

    A shallow embedding of the C++ code and the properties proved of it.
    Pointers to list items are modelled as [option nat] (NULL is [None]),
    machine integers as [Z] with their wrap-around written out, C strings as
    [string], and every [while]/[do] loop as a recursion on a fuel argument
    that returns [None] when the fuel runs out. *)

From Stdlib Require Import ZArith Lia Ascii String.
From stdpp Require Import base option list gmap strings.

(** ** Machine integers (LP64) *)

Definition uintx_max : Z := 2 ^ 64.
Definition uintx (z : Z) : Z := z mod 2 ^ 64.
(** [jint]: 32-bit two's complement *)
Definition jint (z : Z) : Z := (z + 2 ^ 31) mod 2 ^ 32 - 2 ^ 31.
(** [u2] *)
Definition u2 (z : Z) : Z := z mod 2 ^ 16.

Lemma uintx_small z : (0 <= z < 2 ^ 64)%Z -> uintx z = z.
Proof. intros. unfold uintx. now apply Z.mod_small. Qed.

Lemma jint_small z : (- 2 ^ 31 <= z < 2 ^ 31)%Z -> jint z = z.
Proof. intros. unfold jint. rewrite Z.mod_small; lia. Qed.

(** * CRSConcurrentLinkedList: the intrusive list behind every pool list *)

Module CLL.
Section CRSConcurrentLinkedList.

(** The address of the static [_head_park_marker] item. *)
Variable head_park_marker : nat.

Local Abbreviation ptr := (option nat).

(** One list together with the [_next] field of every item. *)
Record state := mk_state {
  _next : gmap nat ptr;
  _list : ptr
}.

Definition next (s : state) (i : nat) : ptr := default None (_next s !! i).
Definition set_next (s : state) (i : nat) (p : ptr) : state :=
  {| _next := <[i := p]> (_next s); _list := _list s |}.
Definition set_list (s : state) (p : ptr) : state :=
  {| _next := _next s; _list := p |}.

(** [Atomic::cmpxchg_ptr(exchange_value, dest, compare_value)]: the new
    content of [dest] and the value returned (its previous content). *)
Definition cmpxchg_ptr (exchange_value dest compare_value : ptr) : ptr * ptr :=
  if decide (dest = compare_value) then (exchange_value, dest) else (dest, dest).

Fixpoint add (fuel : nat) (item : nat) (s : state) : option state :=
  match fuel with
  | O => None
  | S fuel =>
    let head := _list s in
    if decide (head = Some head_park_marker) then add fuel item s
    else
      let s := set_next s item head in
      let '(l, old) := cmpxchg_ptr (Some item) (_list s) head in
      let s := set_list s l in
      if decide (old = head) then Some s else add fuel item s
  end.

(** [while (tail->next()) { tail = tail->next(); }] *)
Fixpoint last_item (fuel : nat) (s : state) (tail : nat) : option nat :=
  match fuel with
  | O => None
  | S fuel =>
    match next s tail with
    | None => Some tail
    | Some n => last_item fuel s n
    end
  end.

Fixpoint add_items_loop (fuel : nat) (items tail : nat) (s : state) : option state :=
  match fuel with
  | O => None
  | S fuel =>
    let head := _list s in
    if decide (head = Some head_park_marker) then add_items_loop fuel items tail s
    else
      let s := set_next s tail head in
      let '(l, old) := cmpxchg_ptr (Some items) (_list s) head in
      let s := set_list s l in
      if decide (old = head) then Some s else add_items_loop fuel items tail s
  end.

Definition add_items (fuel : nat) (items : nat) (s : state) : option state :=
  tail ← last_item fuel s items;
  add_items_loop fuel items tail s.

Fixpoint remove (fuel : nat) (s : state) : option (ptr * state) :=
  match fuel with
  | O => None
  | S fuel =>
    let head := _list s in
    match head with
    | None => Some (None, s)
    | Some hd =>
      if decide (hd = head_park_marker) then remove fuel s
      else
        let '(l, old) := cmpxchg_ptr (Some head_park_marker) (_list s) head in
        let s := set_list s l in
        if decide (old = head) then
          let s := set_list s (next s hd) in
          let s := set_next s hd None in
          Some (head, s)
        else remove fuel s
    end
  end.

(** [chain s p l]: following [_next] from [p] visits exactly the items [l]
    and ends at NULL. *)
Inductive chain (s : state) : ptr -> list nat -> Prop :=
| chain_nil : chain s None []
| chain_cons i l : chain s (next s i) l -> chain s (Some i) (i :: l).

Lemma chain_det s p l1 : chain s p l1 -> forall l2, chain s p l2 -> l1 = l2.
Proof.
  induction 1 as [|i l Hc IH]; intros l2 H2; inversion H2; subst; auto.
  f_equal. now apply IH.
Qed.

Lemma chain_suffix s p l : chain s p l ->
  forall i, i ∈ l -> exists l1 l2, l = l1 ++ i :: l2 /\ chain s (Some i) (i :: l2).
Proof.
  induction 1 as [|j l Hc IH]; intros i Hi.
  - now apply elem_of_nil in Hi.
  - apply elem_of_cons in Hi as [->|Hi].
    + exists [], l. split; [reflexivity|now constructor].
    + destruct (IH i Hi) as (l1 & l2 & -> & Hc').
      exists (j :: l1), l2. split; [reflexivity|assumption].
Qed.

Lemma chain_head_fresh s i l : chain s (Some i) (i :: l) -> i ∉ l.
Proof.
  intros Hc Hi. inversion Hc as [|? ? Hn]; subst.
  destruct (chain_suffix _ _ _ Hn i Hi) as (l1 & l2 & E & Hc').
  pose proof (chain_det _ _ _ Hc _ Hc') as E'.
  injection E' as E'. rewrite E' in E.
  apply (f_equal length) in E. rewrite length_app in E.
  simpl in E. lia.
Qed.

Lemma chain_NoDup s p l : chain s p l -> NoDup l.
Proof.
  induction 1 as [|i l Hc IH]; constructor; auto.
  apply (chain_head_fresh s). now constructor.
Qed.

(** Frame: writing the [_next] of an item outside a chain keeps the chain. *)
Lemma chain_frame s p l i q :
  chain s p l -> i ∉ l -> chain (set_next s i q) p l.
Proof.
  induction 1 as [|j l Hc IH]; intros Hi; constructor.
  apply not_elem_of_cons in Hi as [Hne Hi].
  unfold next, set_next at 2. simpl.
  rewrite lookup_insert_ne by done. now apply IH.
Qed.

Lemma chain_set_list s p l q : chain s p l -> chain (set_list s q) p l.
Proof. induction 1; constructor; auto. Qed.

Lemma next_set_next_eq s i q : next (set_next s i q) i = q.
Proof. unfold next, set_next. simpl. now rewrite lookup_insert_eq. Qed.

Lemma next_set_list s q i : next (set_list s q) i = next s i.
Proof. reflexivity. Qed.

(** [remove] on a list that is not parked: one iteration, whatever the fuel. *)
Lemma remove_unfold fuel s hd :
  _list s = Some hd -> hd <> head_park_marker ->
  remove (S fuel) s =
    Some (Some hd, set_next (set_list s (next s hd)) hd None).
Proof.
  intros Hl Hne. simpl. rewrite Hl.
  destruct (decide (hd = head_park_marker)) as [|_]; [contradiction|].
  unfold cmpxchg_ptr.
  destruct (decide (Some hd = Some hd)) as [_|]; [|contradiction].
  destruct (decide (Some hd = Some hd)) as [_|]; [|contradiction].
  reflexivity.
Qed.

Lemma remove_empty fuel s :
  _list s = None -> remove (S fuel) s = Some (None, s).
Proof. intros Hl. simpl. now rewrite Hl. Qed.

(** A parked list makes a lone caller spin: no fuel is ever enough. *)
Lemma remove_parked fuel s :
  _list s = Some head_park_marker -> remove fuel s = None.
Proof.
  intros Hl. induction fuel as [|fuel IH]; [reflexivity|].
  simpl. rewrite Hl.
  destruct (decide (head_park_marker = head_park_marker)); [assumption|contradiction].
Qed.

(** [remove] refines taking the head off the list of items. *)
Lemma remove_chain fuel s hd l :
  chain s (_list s) (hd :: l) -> hd <> head_park_marker ->
  exists s', remove (S fuel) s = Some (Some hd, s') /\
             _list s' = next s hd /\
             chain s' (_list s') l /\
             chain s' (Some hd) [hd] /\
             (forall j, j <> hd -> next s' j = next s j).
Proof.
  intros Hc Hne.
  assert (Hl : _list s = Some hd) by (inversion Hc; congruence).
  rewrite Hl in Hc.
  pose proof (chain_head_fresh _ _ _ Hc) as Hfresh.
  inversion Hc as [|? ? Hrest]; subst.
  eexists. split; [now apply remove_unfold|].
  split; [reflexivity|]. split; [|split].
  - simpl. apply chain_frame; [|assumption]. now apply chain_set_list.
  - constructor. rewrite next_set_next_eq. constructor.
  - intros j Hj. unfold next, set_next, set_list. simpl.
    now rewrite lookup_insert_ne.
Qed.

Lemma add_unfold fuel item s :
  _list s <> Some head_park_marker ->
  add (S fuel) item s = Some (set_list (set_next s item (_list s)) (Some item)).
Proof.
  intros Hne. simpl.
  destruct (decide (_list s = Some head_park_marker)) as [|_]; [contradiction|].
  unfold cmpxchg_ptr.
  destruct (decide (_list s = _list s)) as [_|]; [|contradiction].
  destruct (decide (_list s = _list s)) as [_|]; [|contradiction].
  reflexivity.
Qed.

(** [add] refines consing the item onto the list of items. *)
Lemma add_chain fuel item s l :
  chain s (_list s) l -> item ∉ l -> head_park_marker ∉ l ->
  exists s', add (S fuel) item s = Some s' /\ chain s' (_list s') (item :: l).
Proof.
  intros Hc Hfresh Hpark.
  assert (Hne : _list s <> Some head_park_marker).
  { intros E. rewrite E in Hc. inversion Hc; subst. apply Hpark. now left. }
  eexists. split; [now apply add_unfold|].
  simpl. constructor. apply chain_set_list.
  rewrite next_set_list, next_set_next_eq. now apply chain_frame.
Qed.

Lemma last_item_chain s : forall l items,
  chain s (Some items) (items :: l) ->
  forall fuel, (length l < fuel)%nat ->
  last_item fuel s items = Some (List.last (items :: l) 0%nat).
Proof.
  induction l as [|j l IH]; intros items Hc fuel Hf;
    inversion Hc as [|? ? Hn]; subst;
    (destruct fuel as [|fuel]; [simpl in Hf; lia|]); cbn [last_item].
  - destruct (next s items); [inversion Hn|reflexivity].
  - destruct (next s items) as [n|]; inversion Hn; subst.
    rewrite (IH j); [reflexivity|now constructor|simpl in Hf; lia].
Qed.

Lemma next_set_next_ne s i j q : i <> j -> next (set_next s i q) j = next s j.
Proof. intros. unfold next, set_next. simpl. now rewrite lookup_insert_ne. Qed.

Lemma last_elem_of (j : nat) l1 : List.last (j :: l1) 0%nat ∈ j :: l1.
Proof.
  revert j. induction l1 as [|k l1 IH]; intros j; [left|right; apply IH].
Qed.

Lemma chain_app_set_tail s : forall l1 p q l2,
  chain s p l1 -> l1 <> [] -> NoDup (l1 ++ l2) ->
  chain s q l2 ->
  chain (set_next s (List.last l1 0%nat) q) p (l1 ++ l2).
Proof.
  induction l1 as [|i l1 IH]; intros p q l2 Hc Hne Hnd Hq; [contradiction|].
  inversion Hc as [|? ? Hn]; subst.
  change ((i :: l1) ++ l2) with (i :: (l1 ++ l2)) in *.
  apply NoDup_cons in Hnd as [Hi Hnd]. constructor.
  destruct l1 as [|j l1].
  - inversion Hn; subst. cbn [List.last app]. rewrite next_set_next_eq.
    now apply chain_frame.
  - change (List.last (i :: j :: l1) 0%nat) with (List.last (j :: l1) 0%nat).
    rewrite next_set_next_ne.
    + apply IH; [assumption|discriminate|assumption|assumption].
    + intros E. apply Hi, elem_of_app. left. rewrite <- E. apply last_elem_of.
Qed.

(** [add_items] refines prepending the whole batch, order kept. *)
Lemma add_items_chain fuel items b l l0 :
  chain b (Some items) (items :: l) -> chain b (_list b) l0 ->
  NoDup ((items :: l) ++ l0) ->
  head_park_marker ∉ l0 -> (length l < fuel)%nat ->
  exists s', add_items fuel items b = Some s' /\
             chain s' (_list s') ((items :: l) ++ l0).
Proof.
  intros Hb Hc Hnd Hpark Hf.
  assert (Hne : _list b <> Some head_park_marker).
  { intros E. rewrite E in Hc. inversion Hc; subst. apply Hpark. now left. }
  unfold add_items. rewrite (last_item_chain _ _ _ Hb) by assumption.
  cbn [mbind option_bind].
  destruct fuel as [|fuel]; [lia|]. simpl.
  destruct (decide (_list b = Some head_park_marker)) as [|_]; [contradiction|].
  unfold cmpxchg_ptr. simpl.
  destruct (decide (_list b = _list b)) as [_|]; [|contradiction].
  destruct (decide (_list b = _list b)) as [_|]; [|contradiction].
  eexists. split; [reflexivity|]. simpl.
  apply chain_set_list.
  apply (chain_app_set_tail b (items :: l) (Some items) (_list b) l0);
    [assumption|discriminate|assumption|assumption].
Qed.

(** C3 (as amended): on a list that is not parked, [remove] returns the
    current head pointer; the item it returns is unlinked (it heads a chain of
    itself alone, or nothing was returned from an empty list) and [_list]
    keeps the rest of the chain, in order. The list is empty afterwards only
    when it held at most one item. *)
Theorem remove_detaches_head_only fuel s l :
  chain s (_list s) l -> head_park_marker ∉ l ->
  exists s', remove (S fuel) s = Some (_list s, s') /\
             chain s' (_list s) (take 1 l) /\
             chain s' (_list s') (drop 1 l).
Proof.
  intros Hc Hpark. destruct l as [|hd l].
  - inversion Hc as [E|]. exists s. rewrite <- E in *.
    split; [now apply remove_empty|]. simpl. split; constructor.
  - assert (Hne : hd <> head_park_marker).
    { intros ->. apply Hpark. now left. }
    destruct (remove_chain fuel s hd l Hc Hne) as (s' & Hr & Hl & Hrest & Hone & _).
    assert (E : _list s = Some hd) by (inversion Hc; congruence).
    exists s'. rewrite E. simpl. rewrite drop_0. auto.
Qed.

End CRSConcurrentLinkedList.

(** The two-item list 1 -> 2 -> NULL, with the park marker at address 0. *)
Definition two_items : state :=
  mk_state (<[1%nat := Some 2%nat]> (<[2%nat := None]> ∅)) (Some 1%nat).

Lemma two_items_chain : chain two_items (_list two_items) [1; 2]%nat.
Proof.
  unfold two_items. simpl. constructor.
  change (chain two_items (Some 2%nat) [2%nat]). constructor.
  change (chain two_items None []). constructor.
Qed.

(** C3 (counterexample): [remove] on the list 1 -> 2 returns item 1 alone and
    leaves item 2 on the list: neither is the whole chain returned nor is the
    list left empty. *)
Lemma remove_is_not_pop_all :
  chain two_items (_list two_items) [1; 2]%nat /\
  exists s', remove 0 1 two_items = Some (Some 1%nat, s') /\
             chain s' (Some 1%nat) [1%nat] /\
             _list s' = Some 2%nat /\
             chain s' (_list s') [2%nat].
Proof.
  split; [exact two_items_chain|].
  eexists. split; [reflexivity|]. split; [|split; [reflexivity|]].
  - constructor. constructor.
  - simpl. constructor. constructor.
Qed.

Lemma remove_detaches_head_only_witness :
  exists s', remove 0 1 two_items = Some (_list two_items, s') /\
             chain s' (_list two_items) (take 1 [1; 2]%nat) /\
             chain s' (_list s') (drop 1 [1; 2]%nat).
Proof.
  apply (remove_detaches_head_only 0 0 two_items [1; 2]%nat).
  - exact two_items_chain.
  - vm_compute. intros H. inversion H as [|? ? ? H']; subst.
    inversion H' as [|? ? ? H'']; subst. inversion H''.
Defined.

(** ** Further properties of the list *)

(** The two lists 1 -> 2 -> NULL, linked from [_list], and 3 -> 4 -> NULL,
    a batch not yet added; the park marker is at address 0. *)
Definition list_and_batch : state :=
  mk_state (<[1%nat := Some 2%nat]> (<[2%nat := None]>
            (<[3%nat := Some 4%nat]> (<[4%nat := None]> ∅)))) (Some 1%nat).

(** A list whose head is the park marker (address 0). *)
Definition parked_list : state := mk_state ∅ (Some 0%nat).

(** Closes a goal [i ∉ l] on a list of numerals. *)
Ltac not_in_list :=
  let H := fresh in
  intros H; repeat (apply elem_of_cons in H as [H|H]; [lia|]); now apply elem_of_nil in H.

(** [chain], as a function that can be evaluated. *)
Fixpoint follows (s : state) (p : option nat) (l : list nat) : Prop :=
  match l with
  | [] => p = None
  | i :: l => p = Some i /\ follows s (next s i) l
  end.

Lemma follows_chain s : forall l p, follows s p l -> chain s p l.
Proof.
  induction l as [|i l IH]; intros p H; simpl in H.
  - subst. constructor.
  - destruct H as [-> H]. constructor. now apply IH.
Qed.

(** X1: [add] followed by [remove] is a round trip. On a list that is not
    parked, [add] of an item that is not on it makes the item the new head, in
    front of the items already there; the next [remove] returns that very item,
    unlinked, and leaves the list as it was before the [add]. *)
Theorem add_then_remove_returns_item park fuel fuel' item s l :
  chain s (_list s) l -> item ∉ l -> park ∉ l -> item <> park ->
  exists s1 s2,
    add park (S fuel) item s = Some s1 /\
    chain s1 (_list s1) (item :: l) /\
    remove park (S fuel') s1 = Some (Some item, s2) /\
    chain s2 (_list s2) l /\ _list s2 = _list s /\ next s2 item = None.
Proof.
  intros Hc Hfresh Hpark Hne.
  destruct (add_chain park fuel item s l Hc Hfresh Hpark) as (s1 & Ea & Hc1).
  assert (Hnp : _list s <> Some park).
  { intros E. rewrite E in Hc. inversion Hc; subst. apply Hpark. now left. }
  rewrite (add_unfold park fuel item s Hnp) in Ea. injection Ea as <-.
  destruct (remove_chain park fuel' _ item l Hc1 Hne) as (s2 & Er & Hl & Hrest & _ & _).
  eexists _, s2. split; [now apply add_unfold|]. split; [exact Hc1|].
  split; [exact Er|]. split; [exact Hrest|]. split.
  - rewrite Hl, next_set_list, next_set_next_eq. reflexivity.
  - rewrite (remove_unfold park fuel' _ item) in Er by (simpl; auto).
    injection Er as <-. apply next_set_next_eq.
Qed.

Lemma add_then_remove_returns_item_witness :
  exists s1 s2,
    add 0 1 3 two_items = Some s1 /\
    chain s1 (_list s1) [3; 1; 2]%nat /\
    remove 0 1 s1 = Some (Some 3%nat, s2) /\
    chain s2 (_list s2) [1; 2]%nat /\ _list s2 = _list two_items /\ next s2 3 = None.
Proof.
  apply (add_then_remove_returns_item 0 0 0 3 two_items [1; 2]%nat).
  - exact two_items_chain.
  - not_in_list.
  - not_in_list.
  - lia.
Defined.

(** X2: [add_items] puts a whole batch in front of the list. Given a batch
    linked from [items] and a list that is not parked, with no item in both,
    and fuel for the walk to the batch's last item, [add_items] returns and
    [_list] then points to the batch's first item, followed by the rest of the
    batch in its order and then by the items that were on the list, in their
    order. *)
Theorem add_items_prepends_batch park fuel items b l l0 :
  chain b (Some items) (items :: l) -> chain b (_list b) l0 ->
  NoDup ((items :: l) ++ l0) -> park ∉ l0 -> (length l < fuel)%nat ->
  exists s', add_items park fuel items b = Some s' /\
             _list s' = Some items /\
             chain s' (_list s') (items :: l ++ l0).
Proof.
  intros Hb Hc Hnd Hpark Hf.
  destruct (add_items_chain park fuel items b l l0 Hb Hc Hnd Hpark Hf) as (s' & E & Hc').
  exists s'. split; [exact E|]. split; [|exact Hc'].
  inversion Hc'. reflexivity.
Qed.

Lemma add_items_prepends_batch_witness :
  exists s', add_items 0 2 3 list_and_batch = Some s' /\
             _list s' = Some 3%nat /\
             chain s' (_list s') [3; 4; 1; 2]%nat.
Proof.
  apply (add_items_prepends_batch 0 2 3 list_and_batch [4]%nat [1; 2]%nat).
  - apply follows_chain. vm_compute. auto.
  - apply follows_chain. vm_compute. auto.
  - apply NoDup_ListNoDup. repeat constructor; simpl; lia.
  - not_in_list.
  - simpl. lia.
Defined.

(** X3: while [_list] holds the park marker, a caller of [add], [add_items]
    or [remove] only spins: none of them returns or changes anything, however
    many iterations it is given. *)
Theorem parked_list_blocks_callers park fuel item tail s :
  _list s = Some park ->
  add park fuel item s = None /\
  add_items_loop park fuel item tail s = None /\
  remove park fuel s = None.
Proof.
  intros Hl. split; [|split; [|now apply remove_parked]].
  - induction fuel as [|fuel IH]; [reflexivity|]. simpl.
    now rewrite decide_True by assumption.
  - induction fuel as [|fuel IH]; [reflexivity|]. simpl.
    now rewrite decide_True by assumption.
Qed.

Lemma parked_list_blocks_callers_witness :
  add 0 1000 5 parked_list = None /\
  add_items_loop 0 1000 5 6 parked_list = None /\
  remove 0 1000 parked_list = None.
Proof. apply (parked_list_blocks_callers 0 1000 5 6 parked_list). reflexivity. Defined.

End CLL.

(** * TLB and TLBManager: the buffer pool *)

(** Modelled from the spec: utilities/align.hpp is not among the sources;
    [align_up(size, alignment)] is the size rounded up to the next multiple
    of the alignment, computed on [uintx]. *)
Definition align_up (size alignment : Z) : Z :=
  uintx (uintx (size + (alignment - 1)) / alignment * alignment).

Module Pool.
Local Open Scope Z_scope.

Definition Thread := nat.

Inductive CrsMessageBackReferenceId := CRS_MESSAGE_BACK_REFERENCE_CLASS_LOAD.

(** A buffer. [CRS_MESSAGE_BACK_REFERENCE_ID_COUNT] is 1, so the array
    [_reference_message] has the single slot of the class-load reference. *)
Record TLB := mk_TLB {
  _pos : Z;
  _base : Z;
  _owner : option Thread;
  _reference_message : option Z
}.

#[export] Instance TLB_inhabited : Inhabited TLB := populate (mk_TLB 0 0 None None).

Definition reference_message (b : TLB) (back_ref_id : CrsMessageBackReferenceId) : option Z :=
  match back_ref_id with CRS_MESSAGE_BACK_REFERENCE_CLASS_LOAD => _reference_message b end.

Definition set_reference_message (b : TLB) (back_ref_id : CrsMessageBackReferenceId)
    (message : option Z) : TLB :=
  match back_ref_id with
  | CRS_MESSAGE_BACK_REFERENCE_CLASS_LOAD =>
      mk_TLB (_pos b) (_base b) (_owner b) message
  end.

(** [TLB::lease] *)
Definition lease (thread : Thread) (b : TLB) : TLB :=
  mk_TLB 0 (_base b) (Some thread) None.

(** [TLB::release] *)
Definition release (b : TLB) : TLB :=
  mk_TLB (_pos b) (_base b) None (_reference_message b).

(** [TLBManager::align = sizeof(intptr_t)] *)
Definition align : Z := 8.

(** [TLB::alloc]: the pointer returned and the buffer with its cursor bumped. *)
Definition TLB_alloc (size : Z) (b : TLB) : Z * TLB :=
  let ptr := uintx (_base b + _pos b) in
  (ptr, mk_TLB (uintx (_pos b + align_up size align)) (_base b) (_owner b)
               (_reference_message b)).

(** The pool. Each list holds the buffers linked from its head, as indices
    into [_buffers], in link order. [os_memory] is the environment: the
    outcomes of the [os::commit_memory] and [os::uncommit_memory] calls still
    to come (success once the list is used up). *)
Record TLBManager := mk_TLBManager {
  _free_list : list nat;
  _leased_list : list nat;
  _uncommitted_list : list nat;
  _buffers : list TLB;
  rs_base : Z;
  rs_size : Z;
  _buffer_size : Z;
  _num_committed : Z;
  _buffers_count : Z;
  _area_size : Z;
  _bytes_used : Z;
  _not_finished : list nat;
  os_memory : list bool
}.

Definition set_free_list (m : TLBManager) (l : list nat) : TLBManager :=
  mk_TLBManager l (_leased_list m) (_uncommitted_list m) (_buffers m) (rs_base m)
    (rs_size m) (_buffer_size m) (_num_committed m) (_buffers_count m) (_area_size m)
    (_bytes_used m) (_not_finished m) (os_memory m).
Definition set_leased_list (m : TLBManager) (l : list nat) : TLBManager :=
  mk_TLBManager (_free_list m) l (_uncommitted_list m) (_buffers m) (rs_base m)
    (rs_size m) (_buffer_size m) (_num_committed m) (_buffers_count m) (_area_size m)
    (_bytes_used m) (_not_finished m) (os_memory m).
Definition set_uncommitted_list (m : TLBManager) (l : list nat) : TLBManager :=
  mk_TLBManager (_free_list m) (_leased_list m) l (_buffers m) (rs_base m)
    (rs_size m) (_buffer_size m) (_num_committed m) (_buffers_count m) (_area_size m)
    (_bytes_used m) (_not_finished m) (os_memory m).
Definition set_buffers (m : TLBManager) (bs : list TLB) : TLBManager :=
  mk_TLBManager (_free_list m) (_leased_list m) (_uncommitted_list m) bs (rs_base m)
    (rs_size m) (_buffer_size m) (_num_committed m) (_buffers_count m) (_area_size m)
    (_bytes_used m) (_not_finished m) (os_memory m).
Definition set_num_committed (m : TLBManager) (n : Z) : TLBManager :=
  mk_TLBManager (_free_list m) (_leased_list m) (_uncommitted_list m) (_buffers m)
    (rs_base m) (rs_size m) (_buffer_size m) n (_buffers_count m) (_area_size m)
    (_bytes_used m) (_not_finished m) (os_memory m).
Definition set_bytes_used (m : TLBManager) (n : Z) : TLBManager :=
  mk_TLBManager (_free_list m) (_leased_list m) (_uncommitted_list m) (_buffers m)
    (rs_base m) (rs_size m) (_buffer_size m) (_num_committed m) (_buffers_count m)
    (_area_size m) n (_not_finished m) (os_memory m).
Definition set_not_finished (m : TLBManager) (l : list nat) : TLBManager :=
  mk_TLBManager (_free_list m) (_leased_list m) (_uncommitted_list m) (_buffers m)
    (rs_base m) (rs_size m) (_buffer_size m) (_num_committed m) (_buffers_count m)
    (_area_size m) (_bytes_used m) l (os_memory m).
Definition set_os_memory (m : TLBManager) (l : list bool) : TLBManager :=
  mk_TLBManager (_free_list m) (_leased_list m) (_uncommitted_list m) (_buffers m)
    (rs_base m) (rs_size m) (_buffer_size m) (_num_committed m) (_buffers_count m)
    (_area_size m) (_bytes_used m) (_not_finished m) l.

(** The list operations, on the list of linked items ([CLL.add_chain],
    [CLL.add_items_chain] and [CLL.remove_chain] relate them to the pointer
    code). *)
Definition add (item : nat) (l : list nat) : list nat := item :: l.
Definition add_items (items : list nat) (l : list nat) : list nat := items ++ l.
Definition remove (l : list nat) : option nat * list nat :=
  match l with
  | [] => (None, [])
  | head :: rest => (Some head, rest)
  end.

(** [_buffers[i]] and its update in place. *)
Definition buffer (m : TLBManager) (i : nat) : TLB := _buffers m !!! i.
Definition update_buffer (m : TLBManager) (i : nat) (f : TLB -> TLB) : TLBManager :=
  set_buffers m (alter f i (_buffers m)).

(** [os::commit_memory] and [os::uncommit_memory]: the next outcome. *)
Definition os_call (m : TLBManager) : bool * TLBManager :=
  match os_memory m with
  | [] => (true, m)
  | r :: rest => (r, set_os_memory m rest)
  end.
Definition commit_memory := os_call.
Definition uncommit_memory := os_call.

Definition lease_buffer (thread : Thread) (m : TLBManager) : option nat * TLBManager :=
  let finish (to_lease : nat) (m : TLBManager) :=
    let m := update_buffer m to_lease (lease thread) in
    let m := set_leased_list m (add to_lease (_leased_list m)) in
    let m := set_bytes_used m (uintx (_bytes_used m + _buffer_size m)) in
    (Some to_lease, m) in
  let '(to_lease, l) := remove (_free_list m) in
  let m := set_free_list m l in
  match to_lease with
  | Some to_lease => finish to_lease m
  | None =>
    let '(to_lease, l) := remove (_uncommitted_list m) in
    let m := set_uncommitted_list m l in
    match to_lease with
    | Some to_lease =>
      let '(ok, m) := commit_memory m in
      if negb ok then
        (None, set_uncommitted_list m (add to_lease (_uncommitted_list m)))
      else
        let m := set_num_committed m (jint (_num_committed m + 1)) in
        finish to_lease m
    | None => (None, m)
    end
  end.

Definition bytes_used (m : TLBManager) : Z := _bytes_used m.
Definition bytes_committed (m : TLBManager) : Z :=
  uintx (uintx (_num_committed m) * _buffer_size m).

Definition ensure (buffer_ : option nat) (size : Z) (thread : Thread) (m : TLBManager)
    : option nat * TLBManager :=
  match buffer_ with
  | Some b =>
    if decide (uintx (_buffer_size m - _pos (buffer m b)) >= size) then (buffer_, m)
    else lease_buffer thread (update_buffer m b release)
  | None => lease_buffer thread m
  end.

Definition alloc (buffer_ : option nat) (size : Z) (m : TLBManager) : option Z * TLBManager :=
  match buffer_ with
  | None => (None, m)
  | Some b =>
    let '(p, tlb) := TLB_alloc size (buffer m b) in
    (Some p, update_buffer m b (fun _ => tlb))
  end.

Definition uncommit_buffer (buffer_ : nat) (uncommitted_list : list nat) (m : TLBManager)
    : bool * list nat * TLBManager :=
  let '(ok, m) := uncommit_memory m in
  if ok then
    (true, buffer_ :: uncommitted_list, set_num_committed m (jint (_num_committed m - 1)))
  else (false, uncommitted_list, m).

(** How the loop over the idle free buffers ended: its condition failed, the
    free list ran dry, or an uncommit was refused with buffer [b] in hand. *)
Inductive free_pass_exit :=
| Quota_met
| Free_list_empty
| Uncommit_refused (b : nat).

Section flush.
(** The closure: [f->tlb_do(tlb)] may change the buffer it is given and the
    closure's own state [W]; [None] when it does not return. *)
Context {W : Type}.
Variable tlb_do : TLB -> W -> option (TLB * W).

(** The [do ... while (true)] loop over the leased list. *)
Fixpoint flush_leased_loop (fuel : nat) (m : TLBManager) (w : W)
    (uncommitted : list nat) (to_uncommit : Z)
    : option (TLBManager * W * list nat * Z) :=
  match fuel with
  | O => None
  | S fuel =>
    let '(to_flush, l) := remove (_leased_list m) in
    let m := set_leased_list m l in
    match to_flush with
    | None => Some (m, w, uncommitted, to_uncommit)
    | Some to_flush =>
      match _owner (buffer m to_flush) with
      | Some _ =>
        let m := set_not_finished m (to_flush :: _not_finished m) in
        flush_leased_loop fuel m w uncommitted to_uncommit
      | None =>
        '(tlb, w) ← tlb_do (buffer m to_flush) w;
        let m := update_buffer m to_flush (fun _ => tlb) in
        let m := set_bytes_used m (uintx (_bytes_used m - _buffer_size m)) in
        if decide (to_uncommit <> 0) then
          let '(ok, uncommitted', m') := uncommit_buffer to_flush uncommitted m in
          if ok then flush_leased_loop fuel m' w uncommitted' (uintx (to_uncommit - 1))
          else
            flush_leased_loop fuel (set_free_list m' (add to_flush (_free_list m')))
                              w uncommitted to_uncommit
        else
          flush_leased_loop fuel (set_free_list m (add to_flush (_free_list m)))
                            w uncommitted to_uncommit
      end
    end
  end.

(** [while (to_uncommit) { ... }] over the free list. *)
Fixpoint uncommit_free_loop (fuel : nat) (m : TLBManager)
    (uncommitted : list nat) (to_uncommit : Z)
    : option (TLBManager * list nat * free_pass_exit) :=
  match fuel with
  | O => None
  | S fuel =>
    if decide (to_uncommit = 0) then Some (m, uncommitted, Quota_met)
    else
      let '(b, l) := remove (_free_list m) in
      let m := set_free_list m l in
      match b with
      | None => Some (m, uncommitted, Free_list_empty)
      | Some b =>
        let '(ok, uncommitted', m') := uncommit_buffer b uncommitted m in
        if ok then uncommit_free_loop fuel m' uncommitted' (uintx (to_uncommit - 1))
        else Some (m', uncommitted, Uncommit_refused b)
      end
  end.

(** [to_uncommit] as computed on entry to [flush_buffers]. *)
Definition to_uncommit_on_entry (committed_goal : Z) (m : TLBManager) : Z :=
  let committed_goal := committed_goal / _buffer_size m in
  if decide (uintx (_num_committed m) > committed_goal)
  then uintx (uintx (_num_committed m) - committed_goal) else 0.

(** [flush_buffers] up to the end of its first loop. *)
Definition flush_leased_pass (fuel : nat) (committed_goal : Z) (m : TLBManager) (w : W)
    : option (TLBManager * W * list nat * Z) :=
  flush_leased_loop fuel m w [] (to_uncommit_on_entry committed_goal m).

(** [if (_not_finished) { _leased_list.add_items(_not_finished); ... }] *)
Definition return_not_finished (m : TLBManager) : TLBManager :=
  match _not_finished m with
  | [] => m
  | items =>
    set_not_finished (set_leased_list m (add_items items (_leased_list m))) []
  end.

(** [flush_buffers], with the way its second loop ended. *)
Definition flush_buffers_run (fuel : nat) (committed_goal : Z) (m : TLBManager) (w : W)
    : option (TLBManager * W * free_pass_exit) :=
  '(m, w, uncommitted, to_uncommit) ← flush_leased_pass fuel committed_goal m w;
  let m := return_not_finished m in
  '(m, uncommitted, e) ← uncommit_free_loop fuel m uncommitted to_uncommit;
  let m :=
    match uncommitted with
    | [] => m
    | items => set_uncommitted_list m (add_items items (_uncommitted_list m))
    end in
  Some (m, w, e).

Definition flush_buffers (fuel : nat) (committed_goal : Z) (m : TLBManager) (w : W)
    : option (TLBManager * W) :=
  '(m, w, _) ← flush_buffers_run fuel committed_goal m w;
  Some (m, w).

End flush.

(** ** Invariants of the pool *)

Arguments jint : simpl never.
Arguments uintx : simpl never.

(** Every buffer of the pool, as indices into [_buffers]. *)
Definition all_buffers (m : TLBManager) : list nat :=
  seq 0 (Z.to_nat (_buffers_count m)).

(** Where a buffer can be: on one of the three lists, on [_not_finished], or
    on the chain [put_aside] that a running flush builds in its local
    [uncommitted]. Each buffer of the pool is in exactly one of these places,
    and the committed ones are those that are free, leased or not finished. *)
Definition holders_inv (m : TLBManager) (put_aside : list nat) : Prop :=
  _free_list m ++ _leased_list m ++ _uncommitted_list m ++ _not_finished m ++ put_aside
    ≡ₚ all_buffers m /\
  _num_committed m =
    Z.of_nat (length (_free_list m) + length (_leased_list m) + length (_not_finished m)) /\
  0 <= _buffers_count m < 2 ^ 31.

(** The invariant between operations: nothing is held aside. *)
Definition pool_inv (m : TLBManager) : Prop :=
  holders_inv m [] /\ _not_finished m = [].

(** The same as sets, the way the pool is described. *)
Definition buffer_set (l : list nat) : gset nat := list_to_set l.

Definition three_sets_partition (m : TLBManager) : Prop :=
  buffer_set (_free_list m) ## buffer_set (_leased_list m) /\
  buffer_set (_free_list m) ## buffer_set (_uncommitted_list m) /\
  buffer_set (_leased_list m) ## buffer_set (_uncommitted_list m) /\
  buffer_set (_free_list m) ∪ buffer_set (_leased_list m)
    ∪ buffer_set (_uncommitted_list m) = buffer_set (all_buffers m) /\
  _num_committed m =
    Z.of_nat (size (buffer_set (_free_list m)) + size (buffer_set (_leased_list m))) /\
  _num_committed m <= _buffers_count m.

Lemma all_buffers_length m : 0 <= _buffers_count m ->
  Z.of_nat (length (all_buffers m)) = _buffers_count m.
Proof. intros. unfold all_buffers. rewrite length_seq. lia. Qed.

Lemma pool_inv_partition m : pool_inv m -> three_sets_partition m.
Proof.
  intros [(Hp & Hn & Hc) Hnf]. rewrite Hnf in Hp, Hn.
  rewrite !app_nil_r in Hp. simpl in Hn.
  assert (Hnd : NoDup (_free_list m ++ _leased_list m ++ _uncommitted_list m)).
  { rewrite Hp. apply NoDup_seq. }
  apply NoDup_app in Hnd as (Hf & Hfl & Hnd).
  apply NoDup_app in Hnd as (Hl & Hlu & Hu).
  unfold three_sets_partition, buffer_set. repeat split.
  - intros x Hx1 Hx2. apply elem_of_list_to_set in Hx1, Hx2.
    apply (Hfl x Hx1), elem_of_app. now left.
  - intros x Hx1 Hx2. apply elem_of_list_to_set in Hx1, Hx2.
    apply (Hfl x Hx1), elem_of_app. now right.
  - intros x Hx1 Hx2. apply elem_of_list_to_set in Hx1, Hx2.
    now apply (Hlu x Hx1).
  - rewrite <- Hp, !list_to_set_app_L. now rewrite (assoc_L (∪)).
  - rewrite !size_list_to_set by assumption. lia.
  - apply (f_equal length) in Hp || apply Permutation_length in Hp.
    rewrite !length_app in Hp. pose proof (all_buffers_length m (proj1 Hc)). lia.
Qed.

(** *** [lease_buffer] and [ensure] keep the invariant *)

Lemma lease_buffer_inv thread m : pool_inv m -> pool_inv (lease_buffer thread m).2.
Proof.
  destruct m as [free leased unc bufs base rsz bsz nc cnt area used nf os].
  unfold pool_inv, holders_inv, all_buffers, lease_buffer. simpl.
  intros [(Hp & Hn & Hc) ->]. rewrite !app_nil_r in *.
  pose proof (Permutation_length Hp) as Hlen.
  rewrite !length_app, length_seq in Hlen.
  destruct free as [|b free]; simpl in *; rewrite ?app_nil_r in *.
  - destruct unc as [|b unc]; simpl in *; rewrite ?app_nil_r in *.
    + auto.
    + unfold commit_memory, os_call. simpl.
      destruct os as [|[] rest]; simpl; rewrite ?app_nil_r;
        repeat split; auto; try lia.
      * now rewrite <- Hp, <- Permutation_middle.
      * rewrite jint_small; lia.
      * now rewrite <- Hp, <- Permutation_middle.
      * rewrite jint_small; lia.
  - repeat split; auto; try lia.
    now rewrite <- Hp, <- Permutation_middle.
Qed.

Lemma ensure_inv buffer_ size thread m :
  pool_inv m -> pool_inv (ensure buffer_ size thread m).2.
Proof.
  intros H. unfold ensure. destruct buffer_ as [b|]; [|now apply lease_buffer_inv].
  destruct (decide _); [exact H|].
  apply lease_buffer_inv. exact H.
Qed.

(** *** The loops of [flush_buffers] *)

(** Closes a goal [l ≡ₚ all] where [l] is the lists of [Hp] with one buffer
    moved. *)
Ltac same_buffers :=
  apply (proj2 (Permutation_count_occ Nat.eq_dec _ _)); intros ?;
  unfold add_items, add; simpl;
  repeat (rewrite count_occ_app; simpl);
  repeat (destruct (Nat.eq_dec _ _); simpl); lia.
Ltac move_buffer Hp := rewrite <- Hp; same_buffers.

Section flush_inv.
Context {W : Type}.
Variable tlb_do : TLB -> W -> option (TLB * W).

Lemma flush_leased_loop_inv : forall fuel m w put_aside k m1 w1 put_aside1 k1,
  holders_inv m put_aside ->
  flush_leased_loop tlb_do fuel m w put_aside k = Some (m1, w1, put_aside1, k1) ->
  holders_inv m1 put_aside1 /\ _leased_list m1 = [] /\
  _buffers_count m1 = _buffers_count m.
Proof.
  induction fuel as [|fuel IH]; intros m w unc k m1 w1 unc1 k1 Hinv Hrun;
    [discriminate|].
  destruct m as [free leased ul bufs base rsz bsz nc cnt area used nf os].
  unfold holders_inv, all_buffers in Hinv. simpl in Hinv.
  destruct Hinv as (Hp & Hn & Hc).
  pose proof (Permutation_length Hp) as Hlen.
  rewrite !length_app, length_seq in Hlen.
  simpl in Hrun. destruct leased as [|b leased]; simpl in Hrun.
  - injection Hrun as <- <- <- <-. unfold holders_inv, all_buffers. simpl. auto.
  - simpl in Hlen, Hn. unfold buffer in Hrun. simpl in Hrun.
    destruct (_owner (bufs !!! b)).
    + apply IH in Hrun; [exact Hrun|].
      unfold holders_inv, all_buffers. simpl. repeat split; try lia.
      move_buffer Hp.
    + destruct (tlb_do (bufs !!! b) w) as [[tlb w']|]; [|discriminate].
      simpl in Hrun. destruct (decide (k <> 0)).
      * unfold uncommit_buffer, uncommit_memory, os_call in Hrun. simpl in Hrun.
        destruct os as [|[] rest]; simpl in Hrun; apply IH in Hrun;
          try exact Hrun; unfold holders_inv, all_buffers; simpl;
          repeat split; try lia; try (move_buffer Hp);
          rewrite jint_small; lia.
      * apply IH in Hrun; [exact Hrun|].
        unfold holders_inv, all_buffers. simpl. repeat split; try lia.
        move_buffer Hp.
Qed.

Lemma buffer_update_ne m b b' f :
  b <> b' -> buffer (update_buffer m b f) b' = buffer m b'.
Proof. intros. unfold buffer, update_buffer. simpl. now apply list_lookup_total_alter_ne. Qed.

(** The closure returns on every buffer of the leased list that has no owner. *)
Definition closure_returns (m : TLBManager) : Prop :=
  forall b, b ∈ _leased_list m -> _owner (buffer m b) = None ->
  forall w, is_Some (tlb_do (buffer m b) w).

Lemma flush_leased_loop_total :
  forall fuel m w put_aside k,
  NoDup (_leased_list m) -> closure_returns m ->
  (length (_leased_list m) < fuel)%nat ->
  is_Some (flush_leased_loop tlb_do fuel m w put_aside k).
Proof.
  unfold closure_returns, buffer.
  induction fuel as [|fuel IH]; intros m w unc k Hnd Htot Hf; [lia|].
  destruct m as [free leased ul bufs base rsz bsz nc cnt area used nf os].
  simpl in *. destruct leased as [|b leased]; simpl in *; [eauto|].
  apply NoDup_cons in Hnd as [Hb Hnd].
  assert (Hrest : forall bufs' : list TLB,
            (forall b', b' <> b -> bufs' !!! b' = bufs !!! b') ->
            forall b', b' ∈ leased -> _owner (bufs' !!! b') = None ->
            forall w, is_Some (tlb_do (bufs' !!! b') w)).
  { intros bufs' Hb' b' Hin Ho w0.
    assert (b' <> b) by (intros ->; contradiction).
    rewrite Hb' in * by assumption. apply Htot; [now right|assumption]. }
  unfold buffer. simpl. destruct (_owner (bufs !!! b)) eqn:Eo.
  - apply IH; simpl; [assumption| |lia]. now apply Hrest.
  - destruct (Htot b (list_elem_of_here _ _) Eo w) as [[tlb w'] E].
    rewrite E. simpl.
    assert (Hne : forall b', b' <> b ->
              (alter (fun _ : TLB => tlb) b bufs) !!! b' = bufs !!! b').
    { intros b' Hb'. apply list_lookup_total_alter_ne. congruence. }
    destruct (decide (k <> 0)).
    + unfold uncommit_buffer, uncommit_memory, os_call. simpl.
      destruct os as [|[] rest]; simpl; apply IH; simpl; try assumption; try lia;
        now apply Hrest.
    + apply IH; simpl; [assumption| |lia]. now apply Hrest.
Qed.

Lemma uncommit_free_loop_inv : forall fuel m put_aside k m' put_aside' e,
  holders_inv m put_aside ->
  uncommit_free_loop fuel m put_aside k = Some (m', put_aside', e) ->
  (forall b, e <> Uncommit_refused b) ->
  holders_inv m' put_aside' /\ _leased_list m' = _leased_list m /\
  _not_finished m' = _not_finished m /\
  _uncommitted_list m' = _uncommitted_list m /\
  _buffers_count m' = _buffers_count m.
Proof.
  induction fuel as [|fuel IH]; intros m unc k m' unc' e Hinv Hrun He;
    [discriminate|].
  destruct m as [free leased ul bufs base rsz bsz nc cnt area used nf os].
  unfold holders_inv, all_buffers in Hinv. simpl in Hinv.
  destruct Hinv as (Hp & Hn & Hc).
  pose proof (Permutation_length Hp) as Hlen.
  rewrite !length_app, length_seq in Hlen.
  simpl in Hrun. destruct (decide (k = 0)).
  { injection Hrun as <- <- <-. unfold holders_inv, all_buffers. simpl. auto. }
  destruct free as [|b free]; simpl in Hrun.
  { injection Hrun as <- <- <-. unfold holders_inv, all_buffers. simpl. auto. }
  simpl in Hlen, Hn.
  unfold uncommit_buffer, uncommit_memory, os_call in Hrun. simpl in Hrun.
  destruct os as [|[] rest]; simpl in Hrun;
    try (injection Hrun as <- <- <-; now destruct (He b));
    apply IH in Hrun; try exact Hrun; try exact He;
    unfold holders_inv, all_buffers; simpl;
    repeat split; try lia; try (move_buffer Hp); rewrite jint_small; lia.
Qed.

Lemma uncommit_free_loop_total : forall fuel m put_aside k,
  (length (_free_list m) < fuel)%nat ->
  is_Some (uncommit_free_loop fuel m put_aside k).
Proof.
  induction fuel as [|fuel IH]; intros m unc k Hf; [lia|].
  destruct m as [free leased ul bufs base rsz bsz nc cnt area used nf os].
  simpl in *. destruct (decide (k = 0)); [eauto|].
  destruct free as [|b free]; simpl in *; [eauto|].
  unfold uncommit_buffer, uncommit_memory, os_call. simpl.
  destruct os as [|[] rest]; simpl; eauto; apply IH; simpl; lia.
Qed.

Lemma return_not_finished_inv m put_aside :
  holders_inv m put_aside ->
  holders_inv (return_not_finished m) put_aside /\
  _not_finished (return_not_finished m) = [].
Proof.
  destruct m as [free leased ul bufs base rsz bsz nc cnt area used nf os].
  unfold holders_inv, all_buffers, return_not_finished. simpl.
  intros (Hp & Hn & Hc). destruct nf as [|b nf]; simpl; [auto|].
  repeat split; try lia.
  - move_buffer Hp.
  - unfold add_items. rewrite length_app. simpl in *. lia.
Qed.

Lemma flush_buffers_run_inv fuel goal m w m' w' e :
  pool_inv m ->
  flush_buffers_run tlb_do fuel goal m w = Some (m', w', e) ->
  (forall b, e <> Uncommit_refused b) ->
  pool_inv m'.
Proof.
  intros [Hinv Hnf] Hrun He. unfold flush_buffers_run, flush_leased_pass in Hrun.
  destruct (flush_leased_loop tlb_do fuel m w [] _)
    as [[[[m1 w1] aside1] k1]|] eqn:E1; [|discriminate].
  simpl in Hrun.
  apply flush_leased_loop_inv in E1 as (H1 & _ & _); [|exact Hinv].
  apply (return_not_finished_inv m1 aside1) in H1 as [H2 Hnf2].
  destruct (uncommit_free_loop fuel (return_not_finished m1) aside1 k1)
    as [[[m3 aside3] e3]|] eqn:E3; [|discriminate].
  simpl in Hrun. injection Hrun as <- <- <-.
  apply uncommit_free_loop_inv in E3 as (H3 & _ & Hnf3 & _ & _);
    [|exact H2|exact He].
  rewrite Hnf2 in Hnf3. clear - H3 Hnf3.
  destruct m3 as [free leased ul bufs base rsz bsz nc cnt area used nf os].
  unfold pool_inv, holders_inv, all_buffers in *. simpl in *. subst nf.
  destruct H3 as (Hp & Hn & Hc).
  destruct aside3 as [|b aside3]; simpl; rewrite ?app_nil_r in *;
    repeat split; auto; try lia.
  move_buffer Hp.
Qed.

Lemma flush_buffers_run_total fuel goal m w :
  pool_inv m -> closure_returns m ->
  (Z.to_nat (_buffers_count m) < fuel)%nat ->
  exists m1 w1 aside k m' e,
    flush_leased_pass tlb_do fuel goal m w = Some (m1, w1, aside, k) /\
    holders_inv m1 aside /\ _leased_list m1 = [] /\
    flush_buffers_run tlb_do fuel goal m w = Some (m', w1, e).
Proof.
  intros [Hinv Hnf] Htot Hf.
  assert (Hlen : forall m0 aside, holders_inv m0 aside ->
            (length (_free_list m0) <= Z.to_nat (_buffers_count m0) /\
             length (_leased_list m0) <= Z.to_nat (_buffers_count m0))%nat).
  { intros m0 aside (Hp & _ & _). apply Permutation_length in Hp.
    unfold all_buffers in Hp. rewrite !length_app, length_seq in Hp. lia. }
  unfold flush_buffers_run.
  destruct (flush_leased_loop_total fuel m w []
              (to_uncommit_on_entry goal m)) as [[[[m1 w1] aside1] k1] E1].
  { destruct Hinv as (Hp & _ & _).
    assert (Hnd : NoDup (_free_list m ++ _leased_list m ++ _uncommitted_list m
                          ++ _not_finished m ++ [])).
    { rewrite Hp. apply NoDup_seq. }
    apply NoDup_app in Hnd as (_ & _ & Hnd). now apply NoDup_app in Hnd as (? & _ & _). }
  { exact Htot. }
  { destruct (Hlen m [] Hinv). lia. }
  unfold flush_leased_pass. rewrite E1. simpl.
  apply flush_leased_loop_inv in E1 as (H1 & Hl1 & Hc1); [|exact Hinv].
  destruct (return_not_finished_inv m1 aside1 H1) as [H2 Hnf2].
  destruct (uncommit_free_loop_total fuel (return_not_finished m1) aside1 k1)
    as [[[m3 aside3] e3] E3].
  { destruct (Hlen _ _ H2) as [Hfree _].
    assert (_buffers_count (return_not_finished m1) = _buffers_count m1) as Ec.
    { unfold return_not_finished. now destruct (_not_finished m1). }
    rewrite Ec, Hc1 in Hfree. lia. }
  rewrite E3. simpl. eauto 12.
Qed.

End flush_inv.

(** [uncommit_buffer] moves nothing between the pool's lists: on success the
    buffer goes onto the chain of its caller and the count drops by one. *)
Lemma uncommit_buffer_lists b aside m :
  0 < _num_committed m <= 2 ^ 31 ->
  let '(ok, aside', m') := uncommit_buffer b aside m in
  _free_list m' = _free_list m /\ _leased_list m' = _leased_list m /\
  _uncommitted_list m' = _uncommitted_list m /\
  _not_finished m' = _not_finished m /\
  (if ok then aside' = b :: aside /\ _num_committed m' = _num_committed m - 1
   else aside' = aside /\ _num_committed m' = _num_committed m).
Proof.
  intros Hn. unfold uncommit_buffer, uncommit_memory, os_call.
  destruct (os_memory m) as [|[] rest]; simpl; repeat split; auto;
    rewrite jint_small; lia.
Qed.

(** A closure that leaves the buffer as it is. *)
Definition tlb_do_nothing (b : TLB) (w : unit) : option (TLB * unit) := Some (b, w).

(** Two buffers of 8192 bytes at address 65536; buffer 0 leased to thread 7,
    buffer 1 free. *)
Definition busy_pool : TLBManager :=
  mk_TLBManager [1%nat] [0%nat] []
    [mk_TLB 0 65536 (Some 7%nat) None; mk_TLB 0 73728 None None]
    65536 16384 8192 2 2 16384 8192 [] [].

(** The same two buffers, both free; the next uncommit will be refused. *)
Definition idle_pool : TLBManager :=
  mk_TLBManager [0%nat; 1%nat] [] []
    [mk_TLB 0 65536 None None; mk_TLB 0 73728 None None]
    65536 16384 8192 2 2 16384 0 [] [false].

Lemma busy_pool_inv : pool_inv busy_pool.
Proof.
  unfold pool_inv, holders_inv, all_buffers, busy_pool. simpl.
  repeat split; try lia. apply perm_swap.
Qed.

Lemma idle_pool_inv : pool_inv idle_pool.
Proof.
  unfold pool_inv, holders_inv, all_buffers, idle_pool. simpl.
  repeat split; try lia. reflexivity.
Qed.

(** C1 (counterexample): in the middle of a flush, after the loop over the
    leased list, the buffer leased to a live thread is on [_not_finished] and
    on none of the three lists, and the committed count (2) is not
    |free| + |leased| (1). *)
Lemma mid_flush_buffer_on_no_list :
  three_sets_partition busy_pool /\
  exists m1 k,
    flush_leased_pass tlb_do_nothing 3 0 busy_pool tt = Some (m1, tt, [], k) /\
    _free_list m1 = [1%nat] /\ _leased_list m1 = [] /\
    _uncommitted_list m1 = [] /\ _not_finished m1 = [0%nat] /\
    _num_committed m1 = 2 /\
    ~ three_sets_partition m1.
Proof.
  split; [apply pool_inv_partition, busy_pool_inv|].
  eexists _, _. split; [reflexivity|]. simpl. repeat split.
  intros (_ & _ & _ & _ & Hn & _). vm_compute in Hn. discriminate.
Qed.

(** C1 (as amended): the invariant holds between operations. From a pool
    whose three lists partition the buffers with [_num_committed] the number
    of free and leased ones, [lease_buffer] and [ensure] lead to such a pool
    again; [uncommit_buffer] changes none of the pool's lists (on success the
    buffer goes onto its caller's chain and the count drops by one); a flush
    returns, in its middle (after the loop over the leased list) every buffer
    is in exactly one of five places (the three lists, [_not_finished], the
    chain put aside for uncommitting) with [_num_committed] counting the
    free, leased and not finished ones, and [flush_buffers] ends in a pool
    that satisfies the invariant again whenever its loop over the free list
    did not end on a refused uncommit. *)
Theorem pool_partition_between_operations {W : Type}
    (tlb_do : TLB -> W -> option (TLB * W)) (m : TLBManager) :
  pool_inv m ->
  three_sets_partition m /\
  (forall thread,
     pool_inv (lease_buffer thread m).2 /\
     three_sets_partition (lease_buffer thread m).2) /\
  (forall buffer_ size thread,
     pool_inv (ensure buffer_ size thread m).2 /\
     three_sets_partition (ensure buffer_ size thread m).2) /\
  (forall b aside, 0 < _num_committed m ->
     let '(ok, aside', m') := uncommit_buffer b aside m in
     _free_list m' = _free_list m /\ _leased_list m' = _leased_list m /\
     _uncommitted_list m' = _uncommitted_list m /\
     _not_finished m' = _not_finished m /\
     (if ok then aside' = b :: aside /\ _num_committed m' = _num_committed m - 1
      else aside' = aside /\ _num_committed m' = _num_committed m)) /\
  (forall fuel goal w,
     (forall b w, is_Some (tlb_do b w)) ->
     (Z.to_nat (_buffers_count m) < fuel)%nat ->
     exists m1 w1 aside k m' e,
       flush_leased_pass tlb_do fuel goal m w = Some (m1, w1, aside, k) /\
       holders_inv m1 aside /\ _leased_list m1 = [] /\
       flush_buffers_run tlb_do fuel goal m w = Some (m', w1, e) /\
       ((forall b, e <> Uncommit_refused b) ->
        pool_inv m' /\ three_sets_partition m')).
Proof.
  intros Hinv. split; [now apply pool_inv_partition|].
  split; [|split; [|split]].
  - intros thread. pose proof (lease_buffer_inv thread m Hinv).
    split; [assumption|now apply pool_inv_partition].
  - intros b size thread. pose proof (ensure_inv b size thread m Hinv).
    split; [assumption|now apply pool_inv_partition].
  - intros b aside Hpos. apply uncommit_buffer_lists.
    pose proof (pool_inv_partition m Hinv) as (_ & _ & _ & _ & _ & Hle).
    destruct Hinv as [(_ & _ & Hc) _]. lia.
  - intros fuel goal w Htot Hf.
    assert (Hret : closure_returns tlb_do m) by (intros ? _ _ ?; apply Htot).
    destruct (flush_buffers_run_total tlb_do fuel goal m w Hinv Hret Hf)
      as (m1 & w1 & aside & k & m' & e & E1 & H1 & Hl & E2).
    exists m1, w1, aside, k, m', e.
    split; [exact E1|]. split; [exact H1|]. split; [exact Hl|].
    split; [exact E2|]. intros He.
    pose proof (flush_buffers_run_inv tlb_do fuel goal m w m' w1 e Hinv E2 He).
    split; [assumption|now apply pool_inv_partition].
Qed.

Lemma pool_partition_between_operations_witness :
  pool_inv busy_pool /\
  three_sets_partition (lease_buffer 9%nat busy_pool).2.
Proof.
  split; [exact busy_pool_inv|].
  exact (proj2 (proj1 (proj2
    (pool_partition_between_operations tlb_do_nothing busy_pool busy_pool_inv))
    9%nat)).
Defined.

(** C2 (the code at the failing input): with both buffers free, a committed
    target of 0 and the first uncommit refused, [flush_buffers] takes buffer 0
    off the free list and puts it back nowhere: afterwards it is on none of
    the lists while [_num_committed] still counts it. *)
Theorem flush_drops_free_buffer_on_refused_uncommit :
  pool_inv idle_pool /\
  exists m',
    flush_buffers tlb_do_nothing 3 0 idle_pool tt = Some (m', tt) /\
    _free_list m' = [1%nat] /\ _leased_list m' = [] /\
    _uncommitted_list m' = [] /\ _not_finished m' = [] /\
    _num_committed m' = 2 /\
    flush_buffers_run tlb_do_nothing 3 0 idle_pool tt
      = Some (m', tt, Uncommit_refused 0).
Proof.
  split; [exact idle_pool_inv|].
  eexists. split; [reflexivity|]. simpl. repeat split.
Qed.

(** ** Where [alloc] puts its allocations *)








Lemma align_up_8 size room :
  0 <= size <= room -> room mod 8 = 0 -> room < 2 ^ 64 ->
  align_up size align = (size + 7) / 8 * 8 /\
  size <= align_up size align <= room /\ align_up size align mod 8 = 0.
Proof.
  intros Hs Hr Hlt. unfold align_up, align.
  replace (size + (8 - 1)) with (size + 7) by lia.
  assert (H8 : room = 8 * (room / 8)) by (apply Z.div_exact; lia).
  assert (Hq : (size + 7) / 8 <= room / 8).
  { apply Z.div_le_lower_bound; [lia|].
    pose proof (Z.mul_div_le (size + 7) 8). lia. }
  assert (Ha : size <= (size + 7) / 8 * 8 <= room).
  { pose proof (Z.mod_pos_bound (size + 7) 8).
    pose proof (Z.div_mod (size + 7) 8). lia. }
  destruct (Z_lt_ge_dec (size + 7) (2 ^ 64)) as [Hsmall|Hbig].
  - rewrite (uintx_small (size + 7)) by lia.
    rewrite uintx_small by lia.
    split; [reflexivity|]. split; [assumption|]. apply Z.mod_mul. lia.
  - exfalso.
    assert (room / 8 < 2 ^ 61) by (apply Z.div_lt_upper_bound; lia).
    assert (2 ^ 61 <= (size + 7) / 8) by (apply Z.div_le_lower_bound; lia).
    lia.
Qed.






(** ** What [lease_buffer] hands out *)

Lemma buffer_update_eq m b f :
  (b < length (_buffers m))%nat -> buffer (update_buffer m b f) b = f (buffer m b).
Proof.
  intros H. unfold buffer, update_buffer. simpl.
  now apply list_lookup_total_alter_eq.
Qed.

(** X10: [lease_buffer] takes the head of the free list, and only when the
    free list is empty the head of the uncommitted list, whose memory it then
    commits. The buffer it returns is leased to the thread with its cursor at
    0 and no reference message, heads the leased list, and [_bytes_used] has
    grown by one buffer size; no other buffer is touched. It returns NULL
    only when both lists are empty or the commit is refused, and then the
    three lists, the counters and the buffers are as they were. *)
Theorem lease_buffer_takes_free_before_uncommitted thread m :
  (forall b, b ∈ _free_list m ++ _uncommitted_list m -> (b < length (_buffers m))%nat) ->
  match lease_buffer thread m with
  | (Some b, m') =>
    (_free_list m = b :: _free_list m' /\ _uncommitted_list m' = _uncommitted_list m /\
     _num_committed m' = _num_committed m /\ os_memory m' = os_memory m
     \/
     _free_list m = [] /\ _free_list m' = [] /\
     _uncommitted_list m = b :: _uncommitted_list m' /\
     _num_committed m' = jint (_num_committed m + 1) /\
     (os_memory m = [] \/ os_memory m = true :: os_memory m')) /\
    buffer m' b = mk_TLB 0 (_base (buffer m b)) (Some thread) None /\
    _leased_list m' = b :: _leased_list m /\
    _bytes_used m' = uintx (_bytes_used m + _buffer_size m) /\
    (forall b', b' <> b -> buffer m' b' = buffer m b')
  | (None, m') =>
    _free_list m = [] /\
    (_uncommitted_list m = [] \/ os_memory m = false :: os_memory m') /\
    _free_list m' = _free_list m /\ _leased_list m' = _leased_list m /\
    _uncommitted_list m' = _uncommitted_list m /\ _buffers m' = _buffers m /\
    _num_committed m' = _num_committed m /\ _bytes_used m' = _bytes_used m
  end.
Proof.
  destruct m as [free leased unc bufs base rsz bsz nc cnt area used nf os].
  unfold lease_buffer. cbn [_free_list _uncommitted_list _buffers]. intros Hin.
  assert (Hleased : forall b os' nc' free' unc' leased' used',
            (b < length bufs)%nat ->
            let m0 := mk_TLBManager free leased unc bufs base rsz bsz nc cnt area used nf os in
            let m' := set_bytes_used (set_leased_list (update_buffer
                        (mk_TLBManager free' leased' unc' bufs base rsz bsz nc' cnt area
                           used' nf os') b (lease thread)) (add b leased)) (uintx (used + bsz)) in
            buffer m' b = mk_TLB 0 (_base (buffer m0 b)) (Some thread) None /\
            _leased_list m' = b :: leased /\
            _bytes_used m' = uintx (used + bsz) /\
            (forall b', b' <> b -> buffer m' b' = buffer m0 b')).
  { intros b os' nc' free' unc' leased' used' Hb. unfold buffer. simpl.
    split; [now rewrite list_lookup_total_alter_eq|].
    split; [reflexivity|]. split; [reflexivity|].
    intros b' Hne. apply list_lookup_total_alter_ne. congruence. }
  destruct free as [|b free]; cbn [remove].
  - destruct unc as [|b unc]; cbn [remove].
    + simpl. auto 10.
    + assert (Hb : (b < length bufs)%nat) by (apply Hin; now left).
      unfold commit_memory, os_call.
      destruct os as [|[] rest]; simpl.
      * split; [right; auto 10|]. now apply Hleased.
      * split; [right; auto 10|]. now apply Hleased.
      * auto 10.
  - assert (Hb : (b < length bufs)%nat) by (apply Hin; now left).
    simpl. split; [left; auto|]. now apply Hleased.
Qed.

Lemma lease_buffer_takes_free_before_uncommitted_witness :
  match lease_buffer 9%nat busy_pool with
  | (Some b, m') =>
    (_free_list busy_pool = b :: _free_list m' /\
     _uncommitted_list m' = _uncommitted_list busy_pool /\
     _num_committed m' = _num_committed busy_pool /\ os_memory m' = os_memory busy_pool
     \/
     _free_list busy_pool = [] /\ _free_list m' = [] /\
     _uncommitted_list busy_pool = b :: _uncommitted_list m' /\
     _num_committed m' = jint (_num_committed busy_pool + 1) /\
     (os_memory busy_pool = [] \/ os_memory busy_pool = true :: os_memory m')) /\
    buffer m' b = mk_TLB 0 (_base (buffer busy_pool b)) (Some 9%nat) None /\
    _leased_list m' = b :: _leased_list busy_pool /\
    _bytes_used m' = uintx (_bytes_used busy_pool + _buffer_size busy_pool) /\
    (forall b', b' <> b -> buffer m' b' = buffer busy_pool b')
  | (None, m') =>
    _free_list busy_pool = [] /\
    (_uncommitted_list busy_pool = [] \/ os_memory busy_pool = false :: os_memory m') /\
    _free_list m' = _free_list busy_pool /\ _leased_list m' = _leased_list busy_pool /\
    _uncommitted_list m' = _uncommitted_list busy_pool /\
    _buffers m' = _buffers busy_pool /\
    _num_committed m' = _num_committed busy_pool /\
    _bytes_used m' = _bytes_used busy_pool
  end.
Proof.
  apply (lease_buffer_takes_free_before_uncommitted 9%nat busy_pool).
  intros b Hb. simpl in Hb. apply list_elem_of_singleton in Hb. subst. simpl. lia.
Defined.

(** ** What [_bytes_used] counts *)

(** [_bytes_used] is the size of the buffers that are leased (or put aside
    by a running flush), whatever has been written to them. *)
Definition usage_inv (m : TLBManager) : Prop :=
  _bytes_used m
    = _buffer_size m * Z.of_nat (length (_leased_list m) + length (_not_finished m)).

(** The pool's area fits the address space. *)
Definition area_fits (m : TLBManager) : Prop :=
  0 <= _buffer_size m /\ _buffers_count m * _buffer_size m < 2 ^ 64.

Lemma holders_inv_leased_bound m aside :
  holders_inv m aside ->
  Z.of_nat (length (_free_list m) + length (_leased_list m)
            + length (_uncommitted_list m) + length (_not_finished m) + length aside)
    = _buffers_count m.
Proof.
  intros (Hp & _ & Hc). apply Permutation_length in Hp.
  unfold all_buffers in Hp. rewrite !length_app, length_seq in Hp. lia.
Qed.

Lemma lease_buffer_usage thread m :
  pool_inv m -> area_fits m -> usage_inv m ->
  usage_inv (lease_buffer thread m).2 /\
  _buffer_size (lease_buffer thread m).2 = _buffer_size m /\
  _buffers_count (lease_buffer thread m).2 = _buffers_count m.
Proof.
  intros [Hinv Hnf] [Hbs Harea] Hu.
  pose proof (holders_inv_leased_bound m [] Hinv) as Hlen.
  destruct m as [free leased unc bufs base rsz bsz nc cnt area used nf os].
  unfold usage_inv, lease_buffer in *. simpl in *. subst nf used. simpl in *.
  assert (Hgrow : forall n : nat, (n < Z.to_nat cnt)%nat ->
            uintx (bsz * Z.of_nat (n + 0) + bsz) = bsz * Z.of_nat (S n + 0)).
  { intros n Hn. rewrite uintx_small; nia. }
  destruct free as [|b free]; simpl in *.
  - destruct unc as [|b unc]; simpl in *; [auto|].
    unfold commit_memory, os_call. simpl.
    destruct os as [|[] rest]; simpl; (split; [|auto]); try reflexivity;
      apply Hgrow; lia.
  - split; [|auto]. apply Hgrow. lia.
Qed.

Lemma update_buffer_usage m b f :
  pool_inv (update_buffer m b f) = pool_inv m /\
  area_fits (update_buffer m b f) = area_fits m /\
  usage_inv (update_buffer m b f) = usage_inv m.
Proof. repeat split. Qed.

Section flush_usage.
Context {W : Type}.
Variable tlb_do : TLB -> W -> option (TLB * W).

Lemma flush_leased_loop_usage : forall fuel m w aside k m1 w1 aside1 k1,
  flush_leased_loop tlb_do fuel m w aside k = Some (m1, w1, aside1, k1) ->
  0 <= _buffer_size m ->
  _buffer_size m * Z.of_nat (length (_leased_list m) + length (_not_finished m)) < 2 ^ 64 ->
  usage_inv m ->
  usage_inv m1 /\ _buffer_size m1 = _buffer_size m /\
  _buffers_count m1 = _buffers_count m.
Proof.
  induction fuel as [|fuel IH]; intros m w aside k m1 w1 aside1 k1 Hrun Hbs Hfit Hu;
    [discriminate|].
  destruct m as [free leased ul bufs base rsz bsz nc cnt area used nf os].
  unfold usage_inv in *. simpl in *. subst used.
  destruct leased as [|b leased]; simpl in Hrun.
  - injection Hrun as <- <- <- <-. simpl. auto.
  - unfold buffer in Hrun. simpl in Hrun. destruct (_owner (bufs !!! b)).
    + apply IH in Hrun; simpl in *; [exact Hrun|lia| |].
      * replace (length leased + S (length nf))%nat
          with (S (length leased + length nf)) by lia. exact Hfit.
      * f_equal. lia.
    + destruct (tlb_do (bufs !!! b) w) as [[tlb w']|]; [|discriminate].
      simpl in Hrun.
      assert (Hshrink : uintx (bsz * Z.of_nat (S (length leased + length nf)) - bsz)
                        = bsz * Z.of_nat (length leased + length nf)).
      { simpl in Hfit. revert Hfit Hbs. generalize (length leased + length nf)%nat.
        intros n Hfit Hbs. rewrite Nat2Z.inj_succ in *.
        replace (bsz * Z.succ (Z.of_nat n) - bsz) with (bsz * Z.of_nat n) by lia.
        apply uintx_small. nia. }
      rewrite Hshrink in Hrun.
      destruct (decide (k <> 0)).
      * unfold uncommit_buffer, uncommit_memory, os_call in Hrun. simpl in Hrun.
        destruct os as [|[] rest]; simpl in Hrun; apply IH in Hrun; simpl in *;
          try exact Hrun; try lia; try reflexivity; nia.
      * apply IH in Hrun; simpl in *; try exact Hrun; try lia; try reflexivity; nia.
Qed.

Lemma uncommit_free_loop_fields : forall fuel m aside k m' aside' e,
  uncommit_free_loop fuel m aside k = Some (m', aside', e) ->
  _leased_list m' = _leased_list m /\ _not_finished m' = _not_finished m /\
  _bytes_used m' = _bytes_used m /\ _buffer_size m' = _buffer_size m /\
  _buffers m' = _buffers m /\ _buffers_count m' = _buffers_count m.
Proof.
  induction fuel as [|fuel IH]; intros m aside k m' aside' e Hrun; [discriminate|].
  destruct m as [free leased ul bufs base rsz bsz nc cnt area used nf os].
  simpl in Hrun. destruct (decide (k = 0)).
  { injection Hrun as <- <- <-. simpl. auto 10. }
  destruct free as [|b free]; simpl in Hrun.
  { injection Hrun as <- <- <-. simpl. auto 10. }
  unfold uncommit_buffer, uncommit_memory, os_call in Hrun. simpl in Hrun.
  destruct os as [|[] rest]; simpl in Hrun;
    try (injection Hrun as <- <- <-; simpl; auto 10);
    apply IH in Hrun; exact Hrun.
Qed.

Lemma flush_buffers_usage fuel goal m w m' w' :
  flush_buffers tlb_do fuel goal m w = Some (m', w') ->
  pool_inv m -> area_fits m -> usage_inv m ->
  usage_inv m' /\ area_fits m' /\ _not_finished m' = [].
Proof.
  intros Hrun [Hinv Hnf] [Hbs Harea] Hu.
  pose proof (holders_inv_leased_bound m [] Hinv) as Hlen.
  unfold flush_buffers, flush_buffers_run, flush_leased_pass in Hrun.
  destruct (flush_leased_loop tlb_do fuel m w [] _)
    as [[[[m1 w1] aside1] k1]|] eqn:E1; [|discriminate].
  simpl in Hrun.
  pose proof E1 as E1'.
  apply flush_leased_loop_inv in E1' as (_ & Hl1 & _); [|exact Hinv].
  apply flush_leased_loop_usage in E1 as (Hu1 & Hbs1 & Hc1); [|assumption|nia|assumption].
  destruct (uncommit_free_loop fuel (return_not_finished m1) aside1 k1)
    as [[[m3 aside3] e3]|] eqn:E3; [|discriminate].
  simpl in Hrun. injection Hrun as <- <-.
  apply uncommit_free_loop_fields in E3 as (Hl3 & Hnf3 & Hu3 & Hbs3 & _ & Hc3).
  assert (H2 : usage_inv (return_not_finished m1) /\
               _not_finished (return_not_finished m1) = [] /\
               _buffer_size (return_not_finished m1) = _buffer_size m1 /\
               _buffers_count (return_not_finished m1) = _buffers_count m1).
  { unfold usage_inv, return_not_finished in *.
    destruct (_not_finished m1) as [|b nf1] eqn:Enf; [rewrite Enf; auto|].
    simpl. unfold add_items. rewrite Hl1, app_nil_r in *. simpl in *.
    split; [|auto]. rewrite Hu1. f_equal. lia. }
  destruct H2 as (Hu2 & Hnf2 & Hbs2 & Hc2).
  assert (Hfinal : usage_inv m3 /\ area_fits m3 /\ _not_finished m3 = []).
  { unfold usage_inv, area_fits in *.
    rewrite Hu3, Hbs3, Hl3, Hnf3, Hc3, Hc2, Hc1, Hbs2, Hbs1. rewrite Hbs2, Hbs1 in Hu2.
    split; [exact Hu2|]. split; [split; assumption|congruence]. }
  destruct aside3; exact Hfinal.
Qed.

End flush_usage.

(** X11: [_bytes_used] counts whole buffers. In a pool whose lists partition
    the buffers and whose area fits the address space, if [_bytes_used] is the
    buffer size times the number of leased buffers, then it is so again after
    [lease_buffer], after [ensure], and after [flush_buffers] (which returns
    when its closure does): the counter tells how many buffers are out, not
    how many bytes were written, and it drops only when a flush takes a
    released buffer back. *)
Theorem bytes_used_counts_leased_buffers {W : Type}
    (tlb_do : TLB -> W -> option (TLB * W)) (m : TLBManager) :
  pool_inv m -> area_fits m -> usage_inv m ->
  bytes_used m = _buffer_size m * Z.of_nat (length (_leased_list m)) /\
  (forall thread, usage_inv (lease_buffer thread m).2) /\
  (forall buffer_ size thread, usage_inv (ensure buffer_ size thread m).2) /\
  (forall fuel goal w,
     (forall b w, is_Some (tlb_do b w)) ->
     (Z.to_nat (_buffers_count m) < fuel)%nat ->
     exists m' w',
       flush_buffers tlb_do fuel goal m w = Some (m', w') /\
       usage_inv m' /\
       bytes_used m' = _buffer_size m' * Z.of_nat (length (_leased_list m'))).
Proof.
  intros Hinv Hfit Hu. split; [|split; [|split]].
  - unfold bytes_used. rewrite Hu. destruct Hinv as [_ ->]. simpl. f_equal. lia.
  - intros thread. now apply lease_buffer_usage.
  - intros [b|] size thread; unfold ensure; [|now apply lease_buffer_usage].
    destruct (decide _); [assumption|]. now apply lease_buffer_usage.
  - intros fuel goal w Htot Hf.
    assert (Hret : closure_returns tlb_do m) by (intros ? _ _ ?; apply Htot).
    destruct (flush_buffers_run_total tlb_do fuel goal m w Hinv Hret Hf)
      as (m1 & w1 & aside & k & m' & e & _ & _ & _ & E2).
    assert (Hrun : flush_buffers tlb_do fuel goal m w = Some (m', w1)).
    { unfold flush_buffers. now rewrite E2. }
    exists m', w1. split; [exact Hrun|].
    destruct (flush_buffers_usage tlb_do fuel goal m w m' w1 Hrun Hinv Hfit Hu)
      as (Hu' & _ & Hnf').
    split; [exact Hu'|].
    unfold bytes_used. rewrite Hu', Hnf'. simpl. f_equal. lia.
Qed.

(** Buffer 0 of [busy_pool] once its thread has let go of it. *)
Definition released_pool : TLBManager := update_buffer busy_pool 0 release.

Lemma bytes_used_counts_leased_buffers_witness :
  bytes_used busy_pool = 8192 /\
  exists m' w',
    flush_buffers tlb_do_nothing 3 0 released_pool tt = Some (m', w') /\
    usage_inv m' /\
    bytes_used m' = _buffer_size m' * Z.of_nat (length (_leased_list m')).
Proof.
  split; [reflexivity|].
  assert (Hinv : pool_inv released_pool) by exact busy_pool_inv.
  assert (Hfit : area_fits released_pool) by (vm_compute; split; [discriminate|reflexivity]).
  assert (Hu : usage_inv released_pool) by reflexivity.
  destruct (bytes_used_counts_leased_buffers tlb_do_nothing released_pool Hinv Hfit Hu)
    as (_ & _ & _ & Hflush).
  apply (Hflush 3%nat 0 tt).
  - intros b w. unfold tlb_do_nothing. eauto.
  - vm_compute. lia.
Defined.

(** ** Which buffers a flush hands to its closure *)

(** The buffer has no owner: its thread has let go of it. *)
Definition released (m : TLBManager) (b : nat) : bool :=
  match _owner (buffer m b) with
  | None => true
  | Some _ => false
  end.

Section visits.
Context {W : Type}.
Variable tlb_do : TLB -> W -> option (TLB * W).

(** The closure called on the buffers [bs] in turn, each as it is in [m]. *)
Fixpoint visit (m : TLBManager) (bs : list nat) (w : W) : option W :=
  match bs with
  | [] => Some w
  | b :: bs => '(_, w) ← tlb_do (buffer m b) w; visit m bs w
  end.

Lemma visit_ext m m' : forall bs w,
  (forall b, b ∈ bs -> buffer m' b = buffer m b) -> visit m' bs w = visit m bs w.
Proof.
  induction bs as [|b bs IH]; intros w H; [reflexivity|]. simpl.
  rewrite (H b) by now left. destruct (tlb_do (buffer m b) w) as [[tlb w']|]; [|reflexivity].
  simpl. apply IH. intros b' Hb'. apply H. now right.
Qed.

Lemma filter_released_ext m m' : forall bs,
  (forall b, b ∈ bs -> buffer m' b = buffer m b) ->
  List.filter (released m') bs = List.filter (released m) bs /\
  List.filter (fun b => negb (released m' b)) bs
    = List.filter (fun b => negb (released m b)) bs.
Proof.
  induction bs as [|b bs IH]; intros H; [split; reflexivity|].
  assert (E : released m' b = released m b).
  { unfold released. now rewrite (H b) by now left. }
  destruct IH as [IH1 IH2]; [intros b' Hb'; apply H; now right|].
  simpl. rewrite E, IH1, IH2. split; reflexivity.
Qed.

Lemma flush_leased_loop_visits : forall fuel m w aside k m1 w1 aside1 k1,
  flush_leased_loop tlb_do fuel m w aside k = Some (m1, w1, aside1, k1) ->
  NoDup (_leased_list m) ->
  visit m (List.filter (released m) (_leased_list m)) w = Some w1 /\
  _not_finished m1
    = rev (List.filter (fun b => negb (released m b)) (_leased_list m)) ++ _not_finished m /\
  (forall b, b ∉ _leased_list m \/ released m b = false -> buffer m1 b = buffer m b).
Proof.
  induction fuel as [|fuel IH]; intros m w aside k m1 w1 aside1 k1 Hrun Hnd;
    [discriminate|].
  cbn [flush_leased_loop] in Hrun.
  destruct (_leased_list m) as [|b leased] eqn:El; cbn [remove] in Hrun.
  - injection Hrun as <- <- <- <-. simpl. auto.
  - apply NoDup_cons in Hnd as [Hb Hnd].
    assert (Hstep : forall m2 w2 l u,
              _leased_list m2 = leased ->
              (forall b0, b0 <> b -> buffer m2 b0 = buffer m b0) ->
              flush_leased_loop tlb_do fuel m2 w2 l u = Some (m1, w1, aside1, k1) ->
              visit m (List.filter (released m) leased) w2 = Some w1 /\
              _not_finished m1
                = rev (List.filter (fun b0 => negb (released m b0)) leased)
                  ++ _not_finished m2 /\
              (forall b0, b0 ∉ leased \/ released m2 b0 = false ->
                 buffer m1 b0 = buffer m2 b0)).
    { intros m2 w2 l u Hl Hne Hrun2.
      apply IH in Hrun2; [|now rewrite Hl]. rewrite Hl in Hrun2.
      destruct Hrun2 as (Hv & Hnf' & Hsame).
      assert (Hin : forall b0, b0 ∈ leased -> buffer m2 b0 = buffer m b0).
      { intros b0 Hb0. apply Hne. intros ->. contradiction. }
      destruct (filter_released_ext m m2 leased Hin) as [F1 F2].
      rewrite F1, F2 in *. split; [|split; [exact Hnf'|exact Hsame]].
      rewrite <- Hv. symmetry. apply visit_ext. intros b0 Hb0. apply Hin.
      apply list_elem_of_In, filter_In in Hb0 as [Hb0 _]. now apply list_elem_of_In. }
    change (buffer (set_leased_list m leased) b) with (buffer m b) in Hrun.
    cbn [List.filter].
    destruct (_owner (buffer m b)) eqn:Eo.
    + assert (Er : released m b = false) by (unfold released; now rewrite Eo).
      rewrite Er. cbn [negb rev].
      apply Hstep in Hrun; [|reflexivity|reflexivity].
      destruct Hrun as (Hv & Hnf & Hsame). split; [exact Hv|]. split.
      * rewrite Hnf. cbn. now rewrite <- (assoc_L (++)).
      * intros b0 Hb0. rewrite Hsame; [reflexivity|].
        destruct Hb0 as [Hb0|Hb0]; [left|right; exact Hb0].
        intros Hin. apply Hb0. now right.
    + assert (Er : released m b = true) by (unfold released; now rewrite Eo).
      rewrite Er. cbn [negb visit].
      destruct (tlb_do (buffer m b) w) as [[tlb w']|]; [|discriminate].
      cbn [mbind option_bind] in Hrun |- *.
      assert (Hfin : forall m2 l u,
                _leased_list m2 = leased -> _not_finished m2 = _not_finished m ->
                _buffers m2 = alter (fun _ => tlb) b (_buffers m) ->
                flush_leased_loop tlb_do fuel m2 w' l u = Some (m1, w1, aside1, k1) ->
                visit m (List.filter (released m) leased) w' = Some w1 /\
                _not_finished m1
                  = rev (List.filter (fun b0 => negb (released m b0)) leased)
                    ++ _not_finished m /\
                (forall b0, b0 ∉ b :: leased \/ released m b0 = false ->
                   buffer m1 b0 = buffer m b0)).
      { intros m2 l u Hl Hnf2 Hbufs Hrun2.
        assert (Hne : forall b0, b0 <> b -> buffer m2 b0 = buffer m b0).
        { intros b0 Hb0. unfold buffer. rewrite Hbufs.
          apply list_lookup_total_alter_ne. congruence. }
        apply Hstep in Hrun2; [|assumption|assumption].
        destruct Hrun2 as (Hv & Hnf & Hsame). split; [exact Hv|].
        split; [congruence|]. intros b0 Hb0.
        assert (b0 <> b).
        { intros ->. destruct Hb0 as [Hb0|Hb0]; [apply Hb0; now left|congruence]. }
        rewrite Hsame, Hne; [reflexivity|assumption|].
        destruct Hb0 as [Hb0|Hb0].
        - left. intros Hin'. apply Hb0. now right.
        - right. unfold released in *. now rewrite Hne. }
      destruct (decide (k <> 0)).
      * unfold uncommit_buffer, uncommit_memory, os_call in Hrun. cbn in Hrun.
        destruct (os_memory m) as [|[] rest]; cbn in Hrun;
          eapply Hfin in Hrun; try exact Hrun; reflexivity.
      * eapply Hfin in Hrun; try exact Hrun; reflexivity.
Qed.

End visits.

Lemma flush_buffers_run_visits {W : Type}
    (tlb_do : TLB -> W -> option (TLB * W)) fuel goal m w :
  pool_inv m -> closure_returns tlb_do m ->
  (Z.to_nat (_buffers_count m) < fuel)%nat ->
  exists m' w' e,
    flush_buffers_run tlb_do fuel goal m w = Some (m', w', e) /\
    visit tlb_do m (List.filter (released m) (_leased_list m)) w = Some w' /\
    _leased_list m'
      = rev (List.filter (fun b => negb (released m b)) (_leased_list m)) /\
    (forall b, b ∉ _leased_list m \/ released m b = false -> buffer m' b = buffer m b).
Proof.
  intros Hinv Hret Hf.
  destruct (flush_buffers_run_total tlb_do fuel goal m w Hinv Hret Hf)
    as (m1 & w1 & aside & k & m' & e & E1 & _ & Hl1 & E2).
  exists m', w1, e. split; [exact E2|].
  assert (Hnd : NoDup (_leased_list m)).
  { destruct Hinv as [(Hp & _ & _) _].
    assert (Hnd : NoDup (_free_list m ++ _leased_list m ++ _uncommitted_list m
                          ++ _not_finished m ++ [])).
    { rewrite Hp. apply NoDup_seq. }
    apply NoDup_app in Hnd as (_ & _ & Hnd). now apply NoDup_app in Hnd as (? & _ & _). }
  unfold flush_buffers_run in E2. rewrite E1 in E2. cbn [mbind option_bind] in E2.
  unfold flush_leased_pass in E1.
  apply flush_leased_loop_visits in E1 as (Hv & Hnf & Hsame); [|exact Hnd].
  destruct Hinv as [_ Hnf0]. rewrite Hnf0, app_nil_r in Hnf.
  destruct (uncommit_free_loop fuel (return_not_finished m1) aside k)
    as [[[m3 aside3] e3]|] eqn:E3; [|discriminate].
  cbn [mbind option_bind] in E2.
  apply uncommit_free_loop_fields in E3 as (Hl3 & _ & _ & _ & Hb3 & _).
  assert (Hm' : _leased_list m' = _leased_list m3 /\ _buffers m' = _buffers m3).
  { injection E2 as <- _. destruct aside3; auto. }
  destruct Hm' as [Hl' Hb'].
  assert (H2 : _leased_list (return_not_finished m1) = _not_finished m1 /\
               _buffers (return_not_finished m1) = _buffers m1).
  { unfold return_not_finished. destruct (_not_finished m1) eqn:Enf; [auto|].
    cbn. unfold add_items. now rewrite Hl1, app_nil_r. }
  destruct H2 as [Hl2 Hb2].
  split; [exact Hv|]. split; [congruence|].
  intros b Hb. rewrite <- (Hsame b Hb). unfold buffer. congruence.
Qed.

(** X12: a flush hands to its closure exactly the leased buffers that have
    no owner, one call each, in the order of the leased list, each buffer as
    it was when the flush began. The buffers that still have an owner are not
    shown to the closure and are not changed; they are the leased list
    afterwards, in reverse order. *)
Theorem flush_visits_released_buffers_in_order {W : Type}
    (tlb_do : TLB -> W -> option (TLB * W)) fuel goal m w :
  pool_inv m -> closure_returns tlb_do m ->
  (Z.to_nat (_buffers_count m) < fuel)%nat ->
  exists m' w',
    flush_buffers tlb_do fuel goal m w = Some (m', w') /\
    visit tlb_do m (List.filter (released m) (_leased_list m)) w = Some w' /\
    _leased_list m'
      = rev (List.filter (fun b => negb (released m b)) (_leased_list m)) /\
    (forall b, b ∉ _leased_list m \/ released m b = false -> buffer m' b = buffer m b).
Proof.
  intros Hinv Hret Hf.
  destruct (flush_buffers_run_visits tlb_do fuel goal m w Hinv Hret Hf)
    as (m' & w' & e & E & Hv & Hl & Hsame).
  exists m', w'. split; [|auto].
  unfold flush_buffers. now rewrite E.
Qed.

(** A closure that records the base of each buffer it is given. *)
Definition tlb_do_record (b : TLB) (w : list Z) : option (TLB * list Z) :=
  Some (b, w ++ [_base b]).

(** Three leased buffers: 0 and 2 with their owners, 1 released. *)
Definition mixed_pool : TLBManager :=
  mk_TLBManager [] [0%nat; 1%nat; 2%nat] []
    [mk_TLB 16 65536 (Some 7%nat) None; mk_TLB 24 73728 None None;
     mk_TLB 8 81920 (Some 8%nat) None]
    65536 24576 8192 3 3 24576 24576 [] [].

Lemma mixed_pool_inv : pool_inv mixed_pool.
Proof.
  unfold pool_inv, holders_inv, all_buffers, mixed_pool. simpl.
  repeat split; try lia. reflexivity.
Qed.

Lemma flush_visits_released_buffers_in_order_witness :
  exists m' w',
    flush_buffers tlb_do_record 4 0 mixed_pool [] = Some (m', w') /\
    visit tlb_do_record mixed_pool
      (List.filter (released mixed_pool) (_leased_list mixed_pool)) [] = Some w' /\
    _leased_list m'
      = rev (List.filter (fun b => negb (released mixed_pool b)) (_leased_list mixed_pool)) /\
    (forall b, b ∉ _leased_list mixed_pool \/ released mixed_pool b = false ->
       buffer m' b = buffer mixed_pool b).
Proof.
  apply (flush_visits_released_buffers_in_order tlb_do_record 4 0 mixed_pool []).
  - exact mixed_pool_inv.
  - intros b _ _ w. unfold tlb_do_record. eauto.
  - vm_compute. lia.
Defined.

(** ** The constructor *)

Section constructor.
(** [K] (utilities/globalDefinitions.hpp), [os::vm_page_size()] and the base
    and size of the [ReservedSpace] that the constructor obtains come from
    parts of the VM that are not among the sources; [uninitialised i] is
    what [new TLB[n]] leaves in the fields of buffer [i] that [TLB()] does
    not initialise. *)
Variable K : Z.
Variable vm_page_size : Z.
Variable reserved : Z * Z.
Variable uninitialised : nat -> TLB.

(** [TLB(): _owner(), _base() {}] *)
Definition new_TLB (i : nat) : TLB :=
  mk_TLB (_pos (uninitialised i)) 0 None (_reference_message (uninitialised i)).

Definition set_base (base : Z) (b : TLB) : TLB :=
  mk_TLB (_pos b) base (_owner b) (_reference_message b).

(** [for (uintx i = 0; i < _buffers_count; i++) _buffers[i].set_base(...)] *)
Definition set_bases (base buffer_size : Z) (bufs : list TLB) : list TLB :=
  imap (fun i b => set_base (uintx (base + uintx (Z.of_nat i * buffer_size))) b) bufs.

(** [for (intx i = hi; --i >= lo; ) list.add(_buffers + i)], which runs
    [n = hi - lo] times when [lo <= hi]. *)
Fixpoint add_downwards (lo n : nat) (l : list nat) : list nat :=
  match n with
  | O => l
  | S n => add_downwards lo n (add (lo + n) l)
  end.

(** [TLBManager::TLBManager]: whether the memory was committed, and the pool;
    undefined ([None]) where it would divide by a buffer size of 0 or run
    its loops from a negative [_num_committed]. *)
Definition new_TLBManager (size : Z) (os : list bool) : option (bool * TLBManager) :=
  let initialCommittedSizeEstimate := Z.min (640 * K) size in
  let desiredBufferSize := 8 * K in
  let buffers_count := uintx (size / desiredBufferSize) in
  let buffers_count := if decide (buffers_count < 2) then 2 else buffers_count in
  let buffer_size := align_up (size / buffers_count) vm_page_size in
  let '(buffer_size, buffers_count) :=
    if decide (buffer_size > 2 ^ 16) then (2 ^ 16, size / 2 ^ 16)
    else (buffer_size, buffers_count) in
  if decide (buffer_size = 0) then None
  else
    let num_committed :=
      jint (Z.min (Z.max 1 (initialCommittedSizeEstimate / buffer_size)) buffers_count) in
    let area_size := uintx (buffers_count * buffer_size) in
    let buffers := map new_TLB (seq 0 (Z.to_nat buffers_count)) in
    let m := mk_TLBManager [] [] [] buffers reserved.1 reserved.2 buffer_size
               num_committed buffers_count area_size 0 [] os in
    let '(ok, m) := commit_memory m in
    if negb ok then Some (false, m)
    else if decide (num_committed < 0) then None
    else
      let m := set_buffers m (set_bases reserved.1 buffer_size (_buffers m)) in
      let m := set_free_list m
                 (add_downwards 0 (Z.to_nat num_committed) (_free_list m)) in
      let m := set_uncommitted_list m
                 (add_downwards (Z.to_nat num_committed)
                    (Z.to_nat (buffers_count - num_committed)) (_uncommitted_list m)) in
      Some (true, m).

End constructor.

Lemma add_downwards_seq lo : forall n l, add_downwards lo n l = seq lo n ++ l.
Proof.
  induction n as [|n IH]; intros l; [reflexivity|].
  cbn [add_downwards]. rewrite IH. unfold add.
  rewrite seq_S, <- (assoc_L (++)). reflexivity.
Qed.

(** [align_up] to any positive alignment, where nothing wraps. *)
Lemma align_up_multiple size alignment :
  0 <= size -> 0 < alignment -> size + alignment < 2 ^ 64 ->
  align_up size alignment = (size + alignment - 1) / alignment * alignment /\
  size <= align_up size alignment < size + alignment /\
  align_up size alignment mod alignment = 0.
Proof.
  intros Hs Ha Hfit. unfold align_up.
  replace (size + (alignment - 1)) with (size + alignment - 1) by lia.
  pose proof (Z.div_mod (size + alignment - 1) alignment ltac:(lia)) as Hdm.
  pose proof (Z.mod_pos_bound (size + alignment - 1) alignment Ha) as Hmod.
  assert (Hq : 0 <= (size + alignment - 1) / alignment) by (apply Z.div_pos; lia).
  rewrite (uintx_small (size + alignment - 1)) by lia.
  rewrite uintx_small by nia.
  split; [reflexivity|]. split; [nia|]. apply Z.mod_mul. lia.
Qed.

(** The sizes the constructor settles on, for pages of at most 64K. *)
Lemma constructor_sizes page size :
  0 < page <= 2 ^ 16 -> 2 <= size < 2 ^ 44 ->
  let c := if decide (uintx (size / (8 * 1024)) < 2) then 2 else uintx (size / (8 * 1024)) in
  let bs := align_up (size / c) page in
  2 <= c < 2 ^ 31 /\ page <= bs <= 2 ^ 16 /\ bs mod page = 0.
Proof.
  intros Hp Hs. cbv zeta.
  assert (Hc0 : 0 <= size / (8 * 1024) < 2 ^ 31).
  { split; [apply Z.div_pos; lia|apply Z.div_lt_upper_bound; lia]. }
  rewrite uintx_small by lia.
  set (c := if decide (size / (8 * 1024) < 2) then 2 else size / (8 * 1024)).
  assert (Hc : 2 <= c < 2 ^ 31) by (unfold c; destruct (decide _); lia).
  assert (Hx : 1 <= size / c <= 12288).
  { unfold c. destruct (decide (size / (8 * 1024) < 2)) as [Hlt|Hge].
    - assert (size < 16384).
      { pose proof (Z.div_mod size (8 * 1024) ltac:(lia)).
        pose proof (Z.mod_pos_bound size (8 * 1024) ltac:(lia)). lia. }
      split; [apply Z.div_le_lower_bound; lia|].
      assert (size / 2 < 8192) by (apply Z.div_lt_upper_bound; lia). lia.
    - pose proof (Z.div_mod size (8 * 1024) ltac:(lia)).
      pose proof (Z.mod_pos_bound size (8 * 1024) ltac:(lia)).
      split; [apply Z.div_le_lower_bound; nia|].
      assert (size / (size / (8 * 1024)) < 12288)
        by (apply Z.div_lt_upper_bound; nia). lia. }
  destruct (align_up_multiple (size / c) page) as (E & Hb & Hm); [lia|lia|lia|].
  split; [exact Hc|]. split; [|exact Hm].
  set (q := (size / c + page - 1) / page) in *.
  assert (Hq : 0 <= q) by (apply Z.div_pos; lia).
  rewrite E in *. set (x := size / c) in *.
  assert (Hcase : q = 0 \/ q = 1 \/ 2 <= q) by lia.
  destruct Hcase as [Hq0|[Hq1|Hq2]].
  - rewrite Hq0 in *. lia.
  - rewrite Hq1 in *. lia.
  - assert (2 * page <= q * page) by nia. lia.
Qed.

Lemma set_bases_lookup base bs bufs i tlb :
  set_bases base bs bufs !! i = Some tlb ->
  exists tlb0, bufs !! i = Some tlb0 /\
    tlb = set_base (uintx (base + uintx (Z.of_nat i * bs))) tlb0.
Proof.
  unfold set_bases. rewrite list_lookup_imap.
  destruct (bufs !! i) as [tlb0|]; [|discriminate].
  simpl. intros [= <-]. eauto.
Qed.

(** X13: the pool as the constructor leaves it. For a page size of at most
    64K and a requested size from 2 bytes up to 16T, the constructor settles
    on at least 2 buffers of a size that is a multiple of the page size and at
    most 64K, and commits at least one of them. If the commit succeeds, the
    free list holds the committed buffers and the uncommitted list the others,
    each in ascending order, nothing is leased, [_bytes_used] is 0, the lists
    partition the buffers, and buffer [i] starts at the base of the reserved
    space plus [i] buffer sizes and has no owner. If the commit is refused,
    all three lists stay empty. *)
Theorem constructor_lays_out_pool vm_page_size reserved uninitialised size os :
  0 < vm_page_size <= 2 ^ 16 -> 2 <= size < 2 ^ 44 -> 0 <= reserved.1 < 2 ^ 63 ->
  exists m,
    new_TLBManager 1024 vm_page_size reserved uninitialised size os
      = Some (hd true os, m) /\
    2 <= _buffers_count m < 2 ^ 31 /\
    vm_page_size <= _buffer_size m <= 2 ^ 16 /\
    _buffer_size m mod vm_page_size = 0 /\
    1 <= _num_committed m <= _buffers_count m /\
    _area_size m = _buffers_count m * _buffer_size m /\
    _bytes_used m = 0 /\ _leased_list m = [] /\ _not_finished m = [] /\
    length (_buffers m) = Z.to_nat (_buffers_count m) /\
    if hd true os then
      _free_list m = seq 0 (Z.to_nat (_num_committed m)) /\
      _uncommitted_list m
        = seq (Z.to_nat (_num_committed m))
              (Z.to_nat (_buffers_count m - _num_committed m)) /\
      pool_inv m /\ usage_inv m /\ area_fits m /\
      (forall i tlb, _buffers m !! i = Some tlb ->
         _base tlb = reserved.1 + Z.of_nat i * _buffer_size m /\ _owner tlb = None)
    else _free_list m = [] /\ _uncommitted_list m = [].
Proof.
  intros Hp Hs Hr. unfold new_TLBManager.
  destruct (constructor_sizes vm_page_size size Hp Hs) as (Hc & Hbs & Hmod).
  cbv zeta in Hc, Hbs, Hmod.
  set (c := if decide (uintx (size / (8 * 1024)) < 2) then 2
            else uintx (size / (8 * 1024))) in *.
  set (bs := align_up (size / c) vm_page_size) in *.
  rewrite decide_False by lia. rewrite decide_False by lia.
  set (nc0 := Z.min (Z.max 1 (Z.min (640 * 1024) size / bs)) c).
  assert (Hnc0 : 1 <= nc0 <= c) by (unfold nc0; lia).
  rewrite (jint_small nc0) by lia.
  assert (Harea : uintx (c * bs) = c * bs) by (apply uintx_small; nia).
  rewrite Harea.
  assert (Hlen : length (map (new_TLB uninitialised) (seq 0 (Z.to_nat c))) = Z.to_nat c)
    by now rewrite length_map, length_seq.
  unfold commit_memory, os_call. cbn [os_memory].
  destruct os as [|[] rest]; cbn [hd negb set_os_memory];
    try (rewrite decide_False by lia);
    eexists; (split; [reflexivity|]);
    cbn [_buffers_count _buffer_size _num_committed _area_size _bytes_used _leased_list
         _not_finished _buffers _free_list _uncommitted_list set_buffers set_free_list
         set_uncommitted_list];
    try (rewrite !add_downwards_seq, !app_nil_r);
    (split; [exact Hc|]); (split; [exact Hbs|]); (split; [exact Hmod|]);
    (split; [exact Hnc0|]); (split; [reflexivity|]); (split; [reflexivity|]);
    (split; [reflexivity|]); (split; [reflexivity|]);
    (split; [try (unfold set_bases; rewrite length_imap); exact Hlen|]);
    try (split; reflexivity).
  all: split; [reflexivity|]; split; [reflexivity|].
  all: split; [|split; [|split]].
  all: try (unfold usage_inv; cbn; lia).
  all: try (unfold area_fits; cbn; nia).
  all: try (unfold pool_inv, holders_inv, all_buffers; cbn; rewrite !app_nil_r;
            split; [|reflexivity]; split; [|rewrite length_seq; lia];
            rewrite <- seq_app; replace (Z.to_nat nc0 + Z.to_nat (c - nc0))%nat
              with (Z.to_nat c) by lia; reflexivity).
  all: intros i tlb Hi; apply set_bases_lookup in Hi as (tlb0 & Hi & ->);
       apply list_lookup_fmap_Some in Hi as (j & -> & Hj);
       apply lookup_lt_Some in Hj as Hlt; rewrite length_seq in Hlt;
       cbn; split; [|reflexivity];
       rewrite (uintx_small (Z.of_nat i * bs)) by nia; apply uintx_small; nia.
Qed.

(** The pool for a megabyte with pages of 4K, reserved at address 65536. *)
Definition megabyte_pool : option (bool * TLBManager) :=
  new_TLBManager 1024 4096 (65536, 1048576) (fun _ => mk_TLB 0 0 None None) 1048576 [].

Lemma constructor_lays_out_pool_witness :
  exists m,
    megabyte_pool = Some (true, m) /\
    _buffers_count m = 128 /\ _buffer_size m = 8192 /\ _num_committed m = 80 /\
    _free_list m = seq 0 80 /\ _uncommitted_list m = seq 80 48 /\
    pool_inv m.
Proof.
  destruct (constructor_lays_out_pool 4096 (65536, 1048576)
              (fun _ => mk_TLB 0 0 None None) 1048576 [])
    as (m & E & _ & _ & _ & _ & _ & _ & _ & _ & _ & Hf & Hu & Hinv & _);
    [lia|lia|simpl; lia|].
  assert (Ec : exists m0,
            megabyte_pool = Some (true, m0) /\
            _buffers_count m0 = 128 /\ _buffer_size m0 = 8192 /\ _num_committed m0 = 80).
  { eexists. split; [vm_compute; reflexivity|]. repeat split. }
  destruct Ec as (m0 & E0 & Hc & Hb & Hn).
  unfold megabyte_pool in E0. rewrite E in E0. injection E0 as <-.
  exists m. split; [exact E|]. rewrite Hn, Hc in *. auto 10.
Defined.

End Pool.

(** * NativeMemory and the messages *)

Module Memory.
Import Pool.
Local Open Scope Z_scope.

(** ** Messages, as constructed in place in a buffer *)

Inductive CrsNotificationType :=
| CRS_MESSAGE_CLASS_LOAD
| CRS_MESSAGE_FIRST_CALL.

(** The bit-field [_flags] of a class-load message. *)
Record Flags := mk_Flags {
  has_hash : bool;
  has_original_hash : bool;
  has_source : bool;
  has_same_source : bool
}.

(** [_data] holds the class name and, when the constructor copied one, the
    source string after it ([source_data]). *)
Record CrsClassLoadMessage := mk_CrsClassLoadMessage {
  cl_size : Z;
  _loaderId : Z;
  _klass_id : Z;
  _flags : Flags;
  _original_hash : option (list Z);
  _hash : option (list Z);
  _klass_name_length : Z;
  klass_name : string;
  source_data : option string
}.

Record CrsFirstCallMessage := mk_CrsFirstCallMessage {
  fc_size : Z;
  _holder_id : Z;
  _method_name_sig : string
}.

Inductive CrsMessage :=
| ClassLoad (msg : CrsClassLoadMessage)
| FirstCall (msg : CrsFirstCallMessage).

Definition type (msg : CrsMessage) : CrsNotificationType :=
  match msg with
  | ClassLoad _ => CRS_MESSAGE_CLASS_LOAD
  | FirstCall _ => CRS_MESSAGE_FIRST_CALL
  end.

(** [CrsMessage::size()], the [u2] field [_size]. *)
Definition size (msg : CrsMessage) : Z :=
  match msg with
  | ClassLoad msg => cl_size msg
  | FirstCall msg => fc_size msg
  end.

(** What the VM hands to [post]: the class and the method. *)
Record instanceKlass := mk_instanceKlass {
  name : string;
  crs_trace_id : Z;
  class_loader_crs_trace_id : Z
}.

Record Method := mk_Method {
  method_name : string;
  method_signature : string;
  method_holder_crs_trace_id : Z
}.

Definition strlen (s : string) : Z := Z.of_nat (String.length s).
Definition utf8_length (s : string) : Z := Z.of_nat (String.length s).
(** [strcmp(a, b) != 0] *)
Definition strcmp_ne (a b : string) : bool := negb (String.eqb a b).

(** ** NativeMemory *)

Record NativeMemory := mk_NativeMemory {
  _tlb_manager : TLBManager;
  _previous_usage : Z;
  _overflow : bool
}.

(** What is printed on [tty]. *)
Inductive Output :=
| Data_is_lost (before after : Z).

(** The state the operations act on: the [NativeMemory], each thread's
    [crs_thread_locals()->buffer()] (absent for NULL), the objects
    constructed in the buffers by address, the output, and the messages
    handed to [process] so far. *)
Record VM := mk_VM {
  memory : NativeMemory;
  thread_buffer : gmap Thread nat;
  heap : gmap Z CrsMessage;
  tty : list Output;
  processed : list (Z * CrsMessage)
}.

Definition set_memory (vm : VM) (n : NativeMemory) : VM :=
  mk_VM n (thread_buffer vm) (heap vm) (tty vm) (processed vm).
Definition set_tlb_manager (vm : VM) (m : TLBManager) : VM :=
  set_memory vm (mk_NativeMemory m (_previous_usage (memory vm)) (_overflow (memory vm))).
Definition set_overflow (vm : VM) (o : bool) : VM :=
  set_memory vm (mk_NativeMemory (_tlb_manager (memory vm)) (_previous_usage (memory vm)) o).
Definition set_previous_usage (vm : VM) (u : Z) : VM :=
  set_memory vm (mk_NativeMemory (_tlb_manager (memory vm)) u (_overflow (memory vm))).
Definition set_heap (vm : VM) (h : gmap Z CrsMessage) : VM :=
  mk_VM (memory vm) (thread_buffer vm) h (tty vm) (processed vm).
Definition set_tty (vm : VM) (o : list Output) : VM :=
  mk_VM (memory vm) (thread_buffer vm) (heap vm) o (processed vm).
Definition set_processed (vm : VM) (l : list (Z * CrsMessage)) : VM :=
  mk_VM (memory vm) (thread_buffer vm) (heap vm) (tty vm) l.

(** [thread->crs_thread_locals()->buffer()] and [set_buffer]. *)
Definition buffer_of (vm : VM) (thread : Thread) : option nat :=
  thread_buffer vm !! thread.
Definition set_buffer (vm : VM) (thread : Thread) (b : option nat) : VM :=
  mk_VM (memory vm)
    (match b with
     | Some b => <[thread := b]> (thread_buffer vm)
     | None => delete thread (thread_buffer vm)
     end)
    (heap vm) (tty vm) (processed vm).

(** [NativeMemory::alloc] with a back reference: the pointer, the value left
    in [*is_reference], and the state. *)
Definition alloc_reference (back_ref_id : CrsMessageBackReferenceId) (is_reference : bool)
    (size size_reference : Z) (thread : Thread) (vm : VM) : option Z * bool * VM :=
  if _overflow (memory vm) then (None, is_reference, vm)
  else
    let buffer_ := buffer_of vm thread in
    let '(new_buffer, m) := ensure buffer_ size thread (_tlb_manager (memory vm)) in
    let vm := set_tlb_manager vm m in
    let '(vm, is_reference) :=
      if decide (new_buffer <> buffer_) then (set_buffer vm thread new_buffer, true)
      else (vm, is_reference) in
    match new_buffer with
    | Some b =>
      let '(message, m) :=
        alloc new_buffer (if is_reference then size_reference else size)
              (_tlb_manager (memory vm)) in
      let m :=
        if is_reference
        then update_buffer m b (fun tlb => set_reference_message tlb back_ref_id message)
        else m in
      (message, is_reference, set_tlb_manager vm m)
    | None => (None, is_reference, set_overflow vm true)
    end.

(** [NativeMemory::alloc(size, thread)] *)
Definition alloc_plain (size : Z) (thread : Thread) (vm : VM) : option Z * VM :=
  if _overflow (memory vm) then (None, vm)
  else
    let buffer_ := buffer_of vm thread in
    let '(new_buffer, m) := ensure buffer_ size thread (_tlb_manager (memory vm)) in
    let vm := set_tlb_manager vm m in
    let vm :=
      if decide (new_buffer <> buffer_) then set_buffer vm thread new_buffer else vm in
    match new_buffer with
    | Some _ =>
      let '(p, m) := alloc new_buffer size (_tlb_manager (memory vm)) in
      (p, set_tlb_manager vm m)
    | None => (None, set_overflow vm true)
    end.

(** [NativeMemory::reference_message] *)
Definition NativeMemory_reference_message (ref_id : CrsMessageBackReferenceId)
    (thread : Thread) (vm : VM) : option Z :=
  match buffer_of vm thread with
  | Some b => reference_message (buffer (_tlb_manager (memory vm)) b) ref_id
  | None => None
  end.

(** [NativeMemory::release_thread_buffer] *)
Definition release_thread_buffer (thread : Thread) (vm : VM) : VM :=
  match buffer_of vm thread with
  | Some b =>
    let vm := set_tlb_manager vm (update_buffer (_tlb_manager (memory vm)) b release) in
    set_buffer vm thread None
  | None => vm
  end.

(** ** Processing the messages of a buffer *)

(** [TLBFlushClosure::message_do], that is [msg->process(tlb, thread)], as far
    as the buffer and the record of processed messages go: a class-load
    message that has its source becomes the buffer's reference message. *)
Definition message_do (tlb : TLB) (p : Z) (msg : CrsMessage)
    (log : list (Z * CrsMessage)) : TLB * list (Z * CrsMessage) :=
  let tlb :=
    match msg with
    | ClassLoad m =>
      if has_source (_flags m)
      then set_reference_message tlb CRS_MESSAGE_BACK_REFERENCE_CLASS_LOAD (Some p)
      else tlb
    | FirstCall _ => tlb
    end in
  (tlb, log ++ [(p, msg)]).

(** The loop of [MessageClosure::tlb_do]; reading an address where no message
    was constructed is undefined ([None]). *)
Fixpoint message_loop (fuel : nat) (h : gmap Z CrsMessage) (tlb : TLB) (p f : Z)
    (log : list (Z * CrsMessage)) : option (TLB * list (Z * CrsMessage)) :=
  match fuel with
  | O => None
  | S fuel =>
    if decide (p < f) then
      msg ← h !! p;
      let p' := uintx (p + align_up (size msg) align) in
      let '(tlb, log) := message_do tlb p msg log in
      message_loop fuel h tlb p' f log
    else Some (tlb, log)
  end.

Definition tlb_do (fuel : nat) (h : gmap Z CrsMessage) (tlb : TLB)
    (log : list (Z * CrsMessage)) : option (TLB * list (Z * CrsMessage)) :=
  message_loop fuel h tlb (_base tlb) (uintx (_base tlb + _pos tlb)) log.

(** [NativeMemory::flush] *)
Definition flush (fuel : nat) (vm : VM) : option VM :=
  let n := memory vm in
  let next_target := uintx (uintx (_previous_usage n + bytes_used (_tlb_manager n)) / 2) in
  let vm := set_previous_usage vm (bytes_used (_tlb_manager n)) in
  let before := bytes_used (_tlb_manager (memory vm)) in
  '(m, log) ← flush_buffers (tlb_do fuel (heap vm)) fuel next_target
                 (_tlb_manager (memory vm)) (processed vm);
  let vm := set_processed (set_tlb_manager vm m) log in
  if _overflow (memory vm) then
    let vm := set_tty vm (tty vm ++ [Data_is_lost before (bytes_used (_tlb_manager (memory vm)))]) in
    Some (set_overflow vm false)
  else Some vm.

(** [NativeMemory::release_buffers], with [TLBReleaseClosure::tlb_do]. *)
Definition release_closure (vm : VM) (b : nat) : VM :=
  match _owner (buffer (_tlb_manager (memory vm)) b) with
  | Some owner =>
    let vm := set_tlb_manager vm (update_buffer (_tlb_manager (memory vm)) b release) in
    set_buffer vm owner None
  | None => vm
  end.
Definition release_buffers (vm : VM) : VM :=
  let m := _tlb_manager (memory vm) in
  fold_left release_closure (_leased_list m ++ _not_finished m) vm.

Section messages.
(** [offset_of(CrsClassLoadMessage, _data)] and [sizeof(CrsFirstCallMessage)]:
    the field types come from headers that are not among the sources. *)
Variable offset_of_data : Z.
Variable sizeof_CrsFirstCallMessage : Z.

(** The constructor [CrsClassLoadMessage::CrsClassLoadMessage]. *)
Definition new_CrsClassLoadMessage (size : Z) (ikh : instanceKlass) (is_transformed : bool)
    (original_hash hash : option (list Z)) (source : option string)
    (reference : option Z) (klass_name_length : Z) : CrsClassLoadMessage :=
  let with_original := is_transformed && bool_decide (original_hash <> None) in
  let same := bool_decide (reference <> None) in
  let with_source := negb same && bool_decide (source <> None) in
  mk_CrsClassLoadMessage (u2 size)
    (class_loader_crs_trace_id ikh) (crs_trace_id ikh)
    (mk_Flags (bool_decide (hash <> None)) with_original with_source same)
    (if with_original then original_hash else None)
    hash klass_name_length (name ikh)
    (if with_source then source else None).

(** [previous_reference->_flags.has_source] and [previous_reference->source()];
    undefined ([None]) when no class-load message was constructed there. *)
Definition class_load_at (vm : VM) (p : Z) : option CrsClassLoadMessage :=
  match heap vm !! p with
  | Some (ClassLoad msg) => Some msg
  | _ => None
  end.
Definition source (msg : CrsClassLoadMessage) : string := default EmptyString (source_data msg).

(** [CrsClassLoadMessage::post] *)
Definition post (ikh : instanceKlass) (is_transformed : bool)
    (original_hash hash : option (list Z)) (source_ : option string)
    (thread : Thread) (vm : VM) : option VM :=
  let previous_reference :=
    NativeMemory_reference_message CRS_MESSAGE_BACK_REFERENCE_CLASS_LOAD thread vm in
  previous_reference ←
    match previous_reference with
    | Some p =>
      msg ← class_load_at vm p;
      Some (if negb (has_source (_flags msg)) then None else Some (p, msg))
    | None => Some None
    end;
  let source_ :=
    match source_ with
    | Some s => if bool_decide (s = EmptyString) then None else Some s
    | None => None
    end in
  let is_new_reference :=
    match source_, previous_reference with
    | Some s, Some (_, msg) => strcmp_ne (source msg) s
    | Some _, None => true
    | None, _ => false
    end in
  let name_length := utf8_length (name ikh) in
  let size_no_ref := offset_of_data + name_length + 1 in
  let size_with_ref :=
    size_no_ref + match source_ with Some s => strlen s + 1 | None => 0 end in
  let size := if is_new_reference then size_with_ref else size_no_ref in
  let '(msg, is_new_reference, vm) :=
    alloc_reference CRS_MESSAGE_BACK_REFERENCE_CLASS_LOAD is_new_reference
      size size_with_ref thread vm in
  match msg with
  | Some p =>
    let object :=
      new_CrsClassLoadMessage (if is_new_reference then size_with_ref else size)
        ikh is_transformed original_hash hash source_
        (if is_new_reference then None else fst <$> previous_reference)
        name_length in
    Some (set_heap vm (<[p := ClassLoad object]> (heap vm)))
  | None => Some vm
  end.

(** [CrsFirstCallMessage::post] *)
Definition post_first_call (method : Method) (thread : Thread) (vm : VM) : VM :=
  let method_name_length := utf8_length (method_name method) in
  let method_sig_length := utf8_length (method_signature method) in
  let size := method_name_length + method_sig_length + 1 + sizeof_CrsFirstCallMessage in
  let '(msg, vm) := alloc_plain size thread vm in
  match msg with
  | Some p =>
    let object :=
      mk_CrsFirstCallMessage (u2 size) (method_holder_crs_trace_id method)
        (method_name method ++ method_signature method) in
    set_heap vm (<[p := FirstCall object]> (heap vm))
  | None => vm
  end.

End messages.

(** ** Overflow and flush *)

Lemma alloc_plain_overflow size thread vm :
  _overflow (memory vm) = true -> alloc_plain size thread vm = (None, vm).
Proof. intros H. unfold alloc_plain. now rewrite H. Qed.

Lemma alloc_reference_overflow back_ref_id is_reference size size_reference thread vm :
  _overflow (memory vm) = true ->
  alloc_reference back_ref_id is_reference size size_reference thread vm
    = (None, is_reference, vm).
Proof. intros H. unfold alloc_reference. now rewrite H. Qed.

Lemma alloc_plain_no_buffer size thread vm :
  (ensure (buffer_of vm thread) size thread (_tlb_manager (memory vm))).1 = None ->
  (alloc_plain size thread vm).1 = None /\
  _overflow (memory (alloc_plain size thread vm).2) = true.
Proof.
  intros H. unfold alloc_plain.
  destruct (_overflow (memory vm)) eqn:Eo; [now split|].
  destruct (ensure _ _ _ _) as [new_buffer m]. simpl in H. subst new_buffer.
  destruct (decide _); now split.
Qed.

Lemma alloc_reference_no_buffer back_ref_id is_reference size size_reference thread vm :
  (ensure (buffer_of vm thread) size thread (_tlb_manager (memory vm))).1 = None ->
  (alloc_reference back_ref_id is_reference size size_reference thread vm).1.1 = None /\
  _overflow (memory (alloc_reference back_ref_id is_reference size size_reference
                       thread vm).2) = true.
Proof.
  intros H. unfold alloc_reference.
  destruct (_overflow (memory vm)) eqn:Eo; [now split|].
  destruct (ensure _ _ _ _) as [new_buffer m]. simpl in H. subst new_buffer.
  destruct (decide _); now split.
Qed.

(** What a [flush] that returns has done. *)
Lemma flush_spec fuel vm vm' :
  flush fuel vm = Some vm' ->
  let n := memory vm in
  let used := bytes_used (_tlb_manager n) in
  exists m' log,
    flush_buffers (tlb_do fuel (heap vm)) fuel
      (uintx (uintx (_previous_usage n + used) / 2)) (_tlb_manager n) (processed vm)
      = Some (m', log) /\
    memory vm' = mk_NativeMemory m' used false /\
    tty vm' = tty vm ++ (if _overflow n then [Data_is_lost used (bytes_used m')] else []) /\
    processed vm' = log /\ heap vm' = heap vm /\ thread_buffer vm' = thread_buffer vm.
Proof.
  unfold flush. intros H. simpl in *.
  destruct (flush_buffers _ _ _ _ _) as [[m' log]|]; [|discriminate].
  exists m', log. split; [reflexivity|]. simpl in H.
  destruct (_overflow (memory vm)) eqn:Eo; injection H as <-; simpl;
    rewrite ?app_nil_r; repeat split; now rewrite ?Eo.
Qed.

Lemma flush_returns fuel vm :
  pool_inv (_tlb_manager (memory vm)) ->
  closure_returns (tlb_do fuel (heap vm)) (_tlb_manager (memory vm)) ->
  (Z.to_nat (_buffers_count (_tlb_manager (memory vm))) < fuel)%nat ->
  is_Some (flush fuel vm).
Proof.
  intros Hinv Hret Hf.
  destruct (flush_buffers_run_total (tlb_do fuel (heap vm)) fuel
              (uintx (uintx (_previous_usage (memory vm)
                             + bytes_used (_tlb_manager (memory vm))) / 2))
              (_tlb_manager (memory vm)) (processed vm) Hinv Hret Hf)
    as (m1 & w1 & aside & k & m' & e & _ & _ & _ & E).
  unfold flush, flush_buffers. simpl. rewrite E. simpl.
  destruct (_overflow (memory vm)); eauto.
Qed.

(** One buffer of 8192 bytes, leased to thread 7: nothing is left to lease. *)
Definition exhausted_pool : TLBManager :=
  mk_TLBManager [] [0%nat] [] [mk_TLB 0 65536 (Some 7%nat) None]
    65536 8192 8192 1 1 8192 8192 [] [].

Definition exhausted_vm : VM :=
  mk_VM (mk_NativeMemory exhausted_pool 8192 false) {[7%nat := 0%nat]} ∅ [] [].

(** The same after an allocation has failed. *)
Definition exhausted_overflown_vm : VM :=
  mk_VM (mk_NativeMemory exhausted_pool 8192 true) {[7%nat := 0%nat]} ∅ [] [].


Definition busy_vm : VM :=
  mk_VM (mk_NativeMemory busy_pool 0 false) {[7%nat := 0%nat]} ∅ [] [].

Lemma exhausted_pool_inv : pool_inv exhausted_pool.
Proof.
  unfold pool_inv, holders_inv, all_buffers, exhausted_pool. simpl.
  repeat split; try lia. reflexivity.
Qed.

(** C4: when no buffer can be had ([ensure] returns NULL) either [alloc]
    returns NULL and leaves [_overflow] set; while it is set a further
    [alloc] changes nothing, so it stays set; and a [flush] of a state with
    [_overflow] set returns (given fuel beyond the buffer count and a pool in
    its invariant whose released buffers can be walked), clears the flag and
    prints one data-is-lost line with the bytes used before and after. *)
Theorem overflow_set_then_cleared_and_reported size thread vm :
  (ensure (buffer_of vm thread) size thread (_tlb_manager (memory vm))).1 = None ->
  ((alloc_plain size thread vm).1 = None /\
   _overflow (memory (alloc_plain size thread vm).2) = true) /\
  (forall back_ref_id is_reference size_reference,
     (alloc_reference back_ref_id is_reference size size_reference thread vm).1.1 = None /\
     _overflow (memory (alloc_reference back_ref_id is_reference size size_reference
                          thread vm).2) = true) /\
  (forall vm1, _overflow (memory vm1) = true ->
     (forall size' thread', alloc_plain size' thread' vm1 = (None, vm1)) /\
     (forall back_ref_id is_reference size' size_reference thread',
        alloc_reference back_ref_id is_reference size' size_reference thread' vm1
          = (None, is_reference, vm1)) /\
     (forall fuel,
        pool_inv (_tlb_manager (memory vm1)) ->
        closure_returns (tlb_do fuel (heap vm1)) (_tlb_manager (memory vm1)) ->
        (Z.to_nat (_buffers_count (_tlb_manager (memory vm1))) < fuel)%nat ->
        exists vm2,
          flush fuel vm1 = Some vm2 /\
          _overflow (memory vm2) = false /\
          tty vm2 = tty vm1 ++
            [Data_is_lost (bytes_used (_tlb_manager (memory vm1)))
                          (bytes_used (_tlb_manager (memory vm2)))])).
Proof.
  intros Hnone. split; [now apply alloc_plain_no_buffer|].
  split; [intros; now apply alloc_reference_no_buffer|].
  intros vm1 Ho. split; [intros; now apply alloc_plain_overflow|].
  split; [intros; now apply alloc_reference_overflow|].
  intros fuel Hinv Hret Hf.
  destruct (flush_returns fuel vm1 Hinv Hret Hf) as [vm2 E].
  exists vm2. split; [assumption|].
  apply flush_spec in E as (m' & log & _ & Em & Et & _).
  rewrite Em, Et, Ho. simpl. auto.
Qed.

Lemma overflow_set_then_cleared_and_reported_witness :
  (alloc_plain 16 9%nat exhausted_vm).1 = None /\
  _overflow (memory (alloc_plain 16 9%nat exhausted_vm).2) = true /\
  exists vm2,
    flush 2 exhausted_overflown_vm = Some vm2 /\
    _overflow (memory vm2) = false /\
    tty vm2 = [Data_is_lost 8192 8192].
Proof.
  destruct (overflow_set_then_cleared_and_reported 16 9%nat exhausted_vm)
    as ((H1 & H2) & _ & H3); [vm_compute; reflexivity|].
  split; [exact H1|]. split; [exact H2|].
  destruct (H3 exhausted_overflown_vm eq_refl) as (_ & _ & Hflush).
  destruct (Hflush 2%nat) as (vm2 & E & Ho & Ht).
  - exact exhausted_pool_inv.
  - intros b Hb Hown. apply list_elem_of_singleton in Hb. subst b.
    vm_compute in Hown. discriminate Hown.
  - vm_compute. lia.
  - exists vm2. split; [exact E|]. split; [exact Ho|].
    rewrite Ht. vm_compute in E. injection E as <-. reflexivity.
Defined.






(** ** Class-load messages with the source of the reference message *)

Section class_load.
Variable offset_of_data : Z.

(** [size_no_ref] and [size_with_ref] of [post]. *)
Definition size_no_ref (ikh : instanceKlass) : Z :=
  offset_of_data + utf8_length (name ikh) + 1.
Definition size_with_ref (ikh : instanceKlass) (s : string) : Z :=
  size_no_ref ikh + (strlen s + 1).

Lemma strcmp_ne_same s : strcmp_ne s s = false.
Proof. unfold strcmp_ne. now rewrite String.eqb_refl. Qed.

Lemma u2_le z : 0 <= z -> u2 z <= z.
Proof. intros. unfold u2. apply Z.mod_le; lia. Qed.

(** C5: when the class-load slot of the posting thread's buffer refers to a
    recorded class-load message that has its source, and a message with that
    same non-empty source is posted while nothing has overflown and the
    buffer has room for it (so the buffer does not rotate), [post] constructs
    the new message at the cursor of that same buffer with [has_same_source]
    set, [has_source] clear and no source string copied; its size is
    [size_no_ref], which is smaller than the size with the string by the
    length of the string plus one. An empty source is posted as no source. *)
Theorem same_source_posted_as_flag
    ikh is_transformed original_hash hash s thread vm b p0 reference :
  buffer_of vm thread = Some b ->
  reference_message (buffer (_tlb_manager (memory vm)) b)
    CRS_MESSAGE_BACK_REFERENCE_CLASS_LOAD = Some p0 ->
  class_load_at vm p0 = Some reference ->
  has_source (_flags reference) = true ->
  source reference = s ->
  s <> EmptyString ->
  _overflow (memory vm) = false ->
  uintx (_buffer_size (_tlb_manager (memory vm))
         - _pos (buffer (_tlb_manager (memory vm)) b)) >= size_no_ref ikh ->
  let tlb := buffer (_tlb_manager (memory vm)) b in
  let p := uintx (_base tlb + _pos tlb) in
  exists vm' msg,
    post offset_of_data ikh is_transformed original_hash hash (Some s) thread vm
      = Some vm' /\
    class_load_at vm' p = Some msg /\
    has_same_source (_flags msg) = true /\
    has_source (_flags msg) = false /\
    source_data msg = None /\
    cl_size msg = u2 (size_no_ref ikh) /\
    size_no_ref ikh < size_with_ref ikh s /\
    (0 <= size_no_ref ikh -> cl_size msg < size_with_ref ikh s) /\
    buffer_of vm' thread = Some b /\
    (alloc (Some b) (size_no_ref ikh) (_tlb_manager (memory vm))).1 = Some p /\
    (forall vm0,
       post offset_of_data ikh is_transformed original_hash hash (Some EmptyString)
            thread vm0
       = post offset_of_data ikh is_transformed original_hash hash None thread vm0).
Proof.
  intros Hb Href Hat Hsrc Hs Hne Hov Hroom tlb p.
  unfold post, NativeMemory_reference_message.
  rewrite Hb, Href. cbn [mbind option_bind]. rewrite Hat. cbn [mbind option_bind].
  rewrite Hsrc. cbn [negb].
  rewrite bool_decide_eq_false_2 by assumption.
  rewrite Hs, strcmp_ne_same.
  unfold alloc_reference. rewrite Hov, Hb. unfold ensure.
  fold (size_no_ref ikh).
  destruct (decide (uintx _ >= size_no_ref ikh)) as [_|]; [|contradiction].
  destruct (decide (Some b <> Some b)) as [|_]; [contradiction|].
  unfold alloc. cbn [_tlb_manager memory set_tlb_manager set_memory]. fold tlb.
  destruct (TLB_alloc (size_no_ref ikh) tlb) as [p' tlb'] eqn:Ea.
  assert (p' = p) as -> by (unfold TLB_alloc in Ea; now injection Ea as <- _).
  eexists _, _. split; [reflexivity|].
  unfold class_load_at. cbn [heap set_heap]. rewrite lookup_insert_eq.
  split; [reflexivity|]. cbn.
  assert (Hlt : size_no_ref ikh < size_with_ref ikh s).
  { unfold size_with_ref, strlen. lia. }
  repeat split; auto.
  intros H0. pose proof (u2_le _ H0). lia.
Qed.

End class_load.

(** A class, its source, and the state after thread 9 posted it in
    [busy_vm]. *)
Definition some_class : instanceKlass := mk_instanceKlass "A" 1 1.
Definition other_class : instanceKlass := mk_instanceKlass "Bc" 2 1.
Definition some_source : string := "a.jar".
Definition after_first_post : VM :=
  default busy_vm (post 96 some_class false None None (Some some_source) 9%nat busy_vm).

Lemma same_source_posted_as_flag_witness :
  post 96 some_class false None None (Some some_source) 9%nat busy_vm
    = Some after_first_post /\
  class_load_at after_first_post 73728
    = Some (mk_CrsClassLoadMessage 104 1 1 (mk_Flags false false true false)
              None None 1 "A" (Some some_source)) /\
  exists vm' msg,
    post 96 other_class false None None (Some some_source) 9%nat after_first_post
      = Some vm' /\
    class_load_at vm' 73832 = Some msg /\
    has_same_source (_flags msg) = true /\
    has_source (_flags msg) = false /\
    source_data msg = None /\
    cl_size msg = 99.
Proof.
  split; [reflexivity|]. split; [reflexivity|].
  destruct (same_source_posted_as_flag 96 other_class false None None some_source
              9%nat after_first_post 1%nat 73728
              (mk_CrsClassLoadMessage 104 1 1 (mk_Flags false false true false)
                 None None 1 "A" (Some some_source)))
    as (vm' & msg & E & Hat & H1 & H2 & H3 & H4 & _);
    try reflexivity.
  - discriminate.
  - vm_compute. discriminate.
  - exists vm', msg. repeat split; assumption.
Defined.

(** ** The walk of a buffer *)

(** The address after a message that starts at [p]. *)
Definition next_message (p : Z) (msg : CrsMessage) : Z :=
  uintx (p + align_up (size msg) align).

(** The messages [msgs] with their addresses, the first at [p]. *)
Fixpoint addressed (p : Z) (msgs : list CrsMessage) : list (Z * CrsMessage) :=
  match msgs with
  | [] => []
  | msg :: msgs => (p, msg) :: addressed (next_message p msg) msgs
  end.

(** [laid_out h p msgs f]: the heap holds the messages [msgs] one after the
    other from [p], and the last of them ends at [f]. *)
Fixpoint laid_out (h : gmap Z CrsMessage) (p : Z) (msgs : list CrsMessage) (f : Z) : Prop :=
  match msgs with
  | [] => p = f
  | msg :: msgs => p < f /\ h !! p = Some msg /\ laid_out h (next_message p msg) msgs f
  end.

(** The reference message of a buffer after the messages [items] have been
    processed: the last of them that has its source, if any. *)
Definition reference_after (items : list (Z * CrsMessage)) (r : option Z) : option Z :=
  fold_left (fun r item =>
               match item.2 with
               | ClassLoad m => if has_source (_flags m) then Some item.1 else r
               | FirstCall _ => r
               end) items r.

Lemma message_do_spec tlb p msg log :
  message_do tlb p msg log
    = (set_reference_message tlb CRS_MESSAGE_BACK_REFERENCE_CLASS_LOAD
         (reference_after [(p, msg)] (_reference_message tlb)),
       log ++ [(p, msg)]).
Proof.
  unfold message_do, reference_after. destruct tlb, msg as [m|m]; simpl; [|reflexivity].
  now destruct (has_source (_flags m)).
Qed.

Lemma message_loop_laid_out h f : forall msgs fuel tlb p log,
  laid_out h p msgs f -> (length msgs < fuel)%nat ->
  message_loop fuel h tlb p f log
    = Some (set_reference_message tlb CRS_MESSAGE_BACK_REFERENCE_CLASS_LOAD
              (reference_after (addressed p msgs) (_reference_message tlb)),
            log ++ addressed p msgs).
Proof.
  induction msgs as [|msg msgs IH]; intros fuel tlb p log Hl Hf;
    (destruct fuel as [|fuel]; [simpl in Hf; lia|]); cbn [message_loop laid_out] in *.
  - subst. rewrite decide_False by lia. rewrite app_nil_r. now destruct tlb.
  - destruct Hl as (Hp & Hm & Hl). rewrite decide_True by assumption.
    rewrite Hm. cbn [mbind option_bind]. rewrite message_do_spec.
    fold (next_message p msg). rewrite (IH fuel); [|exact Hl|simpl in Hf; lia].
    cbn [addressed]. rewrite <- (assoc_L (++)). destruct tlb. reflexivity.
Qed.

(** X14: the walk of a buffer visits its messages in the order of their
    addresses. When the messages [msgs] lie one after the other from the base
    of the buffer to its cursor, [tlb_do] returns (given one unit of fuel per
    message and one more) having handed exactly these messages to
    [message_do], each with its address, first to last; of the buffer it
    changes only the reference message, which becomes the last class-load
    message walked that has its source. *)
Theorem tlb_do_visits_messages_in_order fuel h tlb msgs log :
  laid_out h (_base tlb) msgs (uintx (_base tlb + _pos tlb)) ->
  (length msgs < fuel)%nat ->
  exists tlb',
    tlb_do fuel h tlb log = Some (tlb', log ++ addressed (_base tlb) msgs) /\
    _pos tlb' = _pos tlb /\ _base tlb' = _base tlb /\ _owner tlb' = _owner tlb /\
    _reference_message tlb'
      = reference_after (addressed (_base tlb) msgs) (_reference_message tlb).
Proof.
  intros Hl Hf. unfold tlb_do. rewrite (message_loop_laid_out _ _ _ _ _ _ _ Hl Hf).
  eexists. split; [reflexivity|]. repeat split.
Qed.

(** A buffer at 65536 with a class-load message of 104 bytes that has its
    source, followed by a first-call message of 20 bytes. *)
Definition two_messages : list CrsMessage :=
  [ClassLoad (mk_CrsClassLoadMessage 104 1 1 (mk_Flags false false true false)
                None None 1 "A" (Some "a.jar"));
   FirstCall (mk_CrsFirstCallMessage 20 1 "m()V")].
Definition written_heap : gmap Z CrsMessage :=
  list_to_map (addressed 65536 two_messages).
Definition written_buffer : TLB := mk_TLB 128 65536 None None.

Lemma tlb_do_visits_messages_in_order_witness :
  exists tlb',
    tlb_do 3 written_heap written_buffer []
      = Some (tlb', [] ++ addressed (_base written_buffer) two_messages) /\
    _pos tlb' = _pos written_buffer /\ _base tlb' = _base written_buffer /\
    _owner tlb' = _owner written_buffer /\
    _reference_message tlb'
      = reference_after (addressed (_base written_buffer) two_messages)
          (_reference_message written_buffer).
Proof.
  apply (tlb_do_visits_messages_in_order 3 written_heap written_buffer two_messages []).
  - vm_compute. repeat split; reflexivity.
  - simpl. lia.
Defined.

(** X15: a message whose size field is 0 stops the walk for good. The size
    is kept in a [u2], so a message of 65536 bytes is recorded with size 0;
    when the walk meets a message of size 0 before the cursor it does not
    advance, and [tlb_do] does not return whatever the fuel. *)
Theorem walk_never_passes_message_of_size_0 fuel h tlb msg log :
  h !! _base tlb = Some msg -> size msg = 0 ->
  0 <= _base tlb < uintx (_base tlb + _pos tlb) ->
  u2 65536 = 0 /\ tlb_do fuel h tlb log = None.
Proof.
  intros Hm Hs Hp. split; [reflexivity|]. unfold tlb_do.
  assert (Hb : _base tlb < 2 ^ 64).
  { destruct Hp as [_ Hp]. unfold uintx in Hp.
    pose proof (Z.mod_pos_bound (_base tlb + _pos tlb) (2 ^ 64)). lia. }
  generalize dependent log. generalize tlb at 1 as t.
  induction fuel as [|fuel IH]; intros t log; [reflexivity|].
  cbn [message_loop]. rewrite decide_True by lia. rewrite Hm.
  cbn [mbind option_bind]. rewrite Hs.
  replace (uintx (_base tlb + align_up 0 align)) with (_base tlb).
  - destruct (message_do t (_base tlb) msg log) as [t' log']. apply IH.
  - change (align_up 0 align) with 0. rewrite Z.add_0_r. symmetry.
    apply uintx_small. lia.
Qed.

(** A buffer of 64K filled by one message, whose size field has wrapped. *)
Definition wrapped_heap : gmap Z CrsMessage :=
  {[ 65536 := FirstCall (mk_CrsFirstCallMessage (u2 65536) 1 "m()V") ]}.
Definition full_buffer : TLB := mk_TLB 65536 65536 None None.

Lemma walk_never_passes_message_of_size_0_witness :
  u2 65536 = 0 /\ tlb_do 1000 wrapped_heap full_buffer [] = None.
Proof.
  apply (walk_never_passes_message_of_size_0 1000 wrapped_heap full_buffer
           (FirstCall (mk_CrsFirstCallMessage (u2 65536) 1 "m()V")) []).
  - reflexivity.
  - reflexivity.
  - vm_compute. split; [discriminate|reflexivity].
Defined.

(** ** Posting into a buffer *)

(** The thread's buffer is [b], nothing has overflown, the buffer lies in
    the address space with its cursor aligned and within it, and it holds the
    messages [msgs] from its base to its cursor. *)
Definition holds (vm : VM) (thread : Thread) (b : nat) (msgs : list CrsMessage) : Prop :=
  let m := _tlb_manager (memory vm) in
  let tlb := buffer m b in
  buffer_of vm thread = Some b /\ (b < length (_buffers m))%nat /\
  _overflow (memory vm) = false /\
  0 <= _base tlb /\ _base tlb + _buffer_size m < 2 ^ 64 /\
  0 <= _pos tlb <= _buffer_size m /\ _pos tlb mod align = 0 /\
  _buffer_size m mod align = 0 /\
  laid_out (heap vm) (_base tlb) msgs (_base tlb + _pos tlb).

Lemma laid_out_le h f : forall msgs p, laid_out h p msgs f -> p <= f.
Proof. destruct msgs; simpl; intros; lia. Qed.

Lemma laid_out_snoc h f msg f' : forall msgs p,
  laid_out h p msgs f -> next_message f msg = f' -> f < f' ->
  laid_out (<[f := msg]> h) p (msgs ++ [msg]) f'.
Proof.
  induction msgs as [|m0 msgs IH]; intros p Hl Hn Hlt; simpl in *.
  - subst p. rewrite lookup_insert_eq. auto.
  - destruct Hl as (Hp & Hm & Hl). split; [lia|].
    split; [rewrite lookup_insert_ne by lia; assumption|]. now apply IH.
Qed.

(** An allocation that fits the buffer of a thread: the pointer is the
    cursor, which moves up by the size rounded up to the alignment. *)
Lemma alloc_plain_fits size thread vm b msgs :
  holds vm thread b msgs ->
  0 <= size <= _buffer_size (_tlb_manager (memory vm))
               - _pos (buffer (_tlb_manager (memory vm)) b) ->
  let m := _tlb_manager (memory vm) in
  let tlb := buffer m b in
  let tlb' := mk_TLB (_pos tlb + (size + 7) / 8 * 8) (_base tlb) (_owner tlb)
                     (_reference_message tlb) in
  alloc_plain size thread vm
    = (Some (_base tlb + _pos tlb),
       set_tlb_manager vm (update_buffer m b (fun _ => tlb'))) /\
  _pos tlb + size <= _pos tlb' <= _buffer_size m /\ _pos tlb' mod align = 0 /\
  align_up size align = (size + 7) / 8 * 8.
Proof.
  intros (Hb & Hlen & Hov & Hbase & Hend & Hpos & Hal & Hbs & Hl) Hs. cbv zeta.
  set (m := _tlb_manager (memory vm)) in *. set (tlb := buffer m b) in *.
  unfold align in *.
  assert (Hroom : (_buffer_size m - _pos tlb) mod 8 = 0).
  { rewrite Zminus_mod, Hbs, Hal. reflexivity. }
  destruct (align_up_8 size (_buffer_size m - _pos tlb) Hs Hroom) as (Ea & Hle & Hmod);
    [lia|].
  unfold alloc_plain. rewrite Hov, Hb. unfold ensure. fold m. fold tlb.
  rewrite (uintx_small (_buffer_size m - _pos tlb)) by lia.
  rewrite decide_True by lia.
  destruct vm as [[m0 pu ov] tb h out pr]. cbn in m. subst m.
  unfold set_tlb_manager, set_memory.
  cbn [memory _tlb_manager _previous_usage _overflow thread_buffer heap tty processed].
  rewrite decide_False by auto.
  cbn [memory _tlb_manager _previous_usage _overflow thread_buffer heap tty processed].
  unfold alloc, TLB_alloc. fold tlb. rewrite Ea.
  rewrite (uintx_small (_base tlb + _pos tlb)) by lia.
  rewrite (uintx_small (_pos tlb + _)) by lia.
  split; [reflexivity|]. cbn [_pos]. split; [lia|]. split; [|exact Ea].
  rewrite Z.add_mod, Hal, <- Ea, Hmod by lia. reflexivity.
Qed.

Section posting.
Variable sizeof_CrsFirstCallMessage : Z.

(** The size [post] computes for a first-call message and the message it
    constructs. *)
Definition first_call_size (method : Method) : Z :=
  utf8_length (method_name method) + utf8_length (method_signature method) + 1
  + sizeof_CrsFirstCallMessage.
Definition first_call_message (method : Method) : CrsMessage :=
  FirstCall (mk_CrsFirstCallMessage (u2 (first_call_size method))
               (method_holder_crs_trace_id method)
               (method_name method ++ method_signature method)).

Lemma post_first_call_appends method thread vm b msgs :
  holds vm thread b msgs ->
  0 < first_call_size method < 2 ^ 16 ->
  first_call_size method
    <= _buffer_size (_tlb_manager (memory vm))
       - _pos (buffer (_tlb_manager (memory vm)) b) ->
  let vm' := post_first_call sizeof_CrsFirstCallMessage method thread vm in
  holds vm' thread b (msgs ++ [first_call_message method]) /\
  _tlb_manager (memory vm')
    = update_buffer (_tlb_manager (memory vm)) b
        (fun _ => (TLB_alloc (first_call_size method)
                     (buffer (_tlb_manager (memory vm)) b)).2) /\
  processed vm' = processed vm /\ tty vm' = tty vm /\
  _previous_usage (memory vm') = _previous_usage (memory vm).
Proof.
  intros Hh Hsz Hroom. cbv zeta.
  destruct (alloc_plain_fits (first_call_size method) thread vm b msgs Hh)
    as (Ea & Hpos' & Hal' & Eal); [lia|].
  pose proof Hh as (Hb & Hlen & Hov & Hbase & Hend & Hpos & Hal & Hbs & Hl).
  unfold post_first_call. fold (first_call_size method). rewrite Ea.
  set (m := _tlb_manager (memory vm)) in *. set (tlb := buffer m b) in *.
  assert (Etlb : (TLB_alloc (first_call_size method) tlb).2
                 = mk_TLB (_pos tlb + (first_call_size method + 7) / 8 * 8) (_base tlb)
                     (_owner tlb) (_reference_message tlb)).
  { cbn [_pos] in Hpos'. unfold TLB_alloc. cbn [snd]. rewrite Eal. f_equal.
    apply uintx_small. fold m tlb in Hpos'. lia. }
  rewrite Etlb.
  destruct vm as [[m0 pu ov] tb h out pr]. cbn in m. subst m.
  cbn [set_tlb_manager set_memory memory _tlb_manager _previous_usage _overflow
       thread_buffer heap tty processed set_heap] in *.
  unfold holds, set_heap, set_tlb_manager, set_memory, buffer_of in *.
  cbn [memory _tlb_manager _overflow heap thread_buffer _previous_usage tty processed] in *.
  split; [|repeat split].
  assert (Eb : buffer (update_buffer m0 b (fun _ =>
                 mk_TLB (_pos tlb + (first_call_size method + 7) / 8 * 8) (_base tlb)
                   (_owner tlb) (_reference_message tlb))) b
               = mk_TLB (_pos tlb + (first_call_size method + 7) / 8 * 8) (_base tlb)
                   (_owner tlb) (_reference_message tlb)).
  { unfold buffer, update_buffer. cbn. now apply list_lookup_total_alter_eq. }
  rewrite Eb. cbn [_pos _base].
  split; [exact Hb|]. split; [unfold update_buffer; cbn; now rewrite length_alter|].
  split; [exact Hov|]. split; [exact Hbase|]. split; [exact Hend|].
  split; [cbn in Hpos'; cbn; lia|]. split; [exact Hal'|]. split; [exact Hbs|].
  apply laid_out_snoc; [exact Hl| |cbn in Hpos'; lia].
  unfold next_message, first_call_message. cbn [size fc_size].
  unfold u2. rewrite (Z.mod_small (first_call_size method)) by lia.
  rewrite Eal. rewrite uintx_small by (cbn in Hpos'; lia). lia.
Qed.

End posting.

(** ** From [post] to the agent: the order of delivery *)

Lemma filter_only (P : nat -> bool) b : forall l,
  b ∈ l -> NoDup l -> P b = true -> (forall b', b' ∈ l -> b' <> b -> P b' = false) ->
  List.filter P l = [b].
Proof.
  induction l as [|x l IH]; intros Hin Hnd Hb Hothers; [now apply elem_of_nil in Hin|].
  apply NoDup_cons in Hnd as [Hx Hnd]. simpl.
  destruct (decide (x = b)) as [->|Hne].
  - rewrite Hb. f_equal.
    assert (Hnone : forall l', (forall b', b' ∈ l' -> P b' = false) -> List.filter P l' = []).
    { induction l' as [|y l' IH']; intros H; [reflexivity|]. simpl.
      rewrite (H y) by now left. apply IH'. intros b' Hb'. apply H. now right. }
    apply Hnone. intros b' Hb'. apply Hothers; [now right|]. intros ->. contradiction.
  - rewrite (Hothers x) by (now left || assumption).
    apply IH; try assumption.
    + apply elem_of_cons in Hin as [->|Hin]; [contradiction|assumption].
    + intros b' Hb'. apply Hothers. now right.
Qed.

(** The thread's buffer is the only leased buffer that a flush after its
    release will take: every other leased buffer has an owner. *)
Definition only_release (vm : VM) (b : nat) : Prop :=
  let m := _tlb_manager (memory vm) in
  pool_inv m /\ b ∈ _leased_list m /\
  forall b', b' ∈ _leased_list m -> b' <> b -> released m b' = false.

Lemma release_then_flush_delivers fuel vm thread b msgs :
  holds vm thread b msgs -> only_release vm b ->
  (Z.to_nat (_buffers_count (_tlb_manager (memory vm))) < fuel)%nat ->
  (length msgs < fuel)%nat ->
  exists vm',
    flush fuel (release_thread_buffer thread vm) = Some vm' /\
    processed vm'
      = processed vm ++ addressed (_base (buffer (_tlb_manager (memory vm)) b)) msgs /\
    buffer_of vm' thread = None /\
    _leased_list (_tlb_manager (memory vm'))
      = rev (List.filter (fun b' => negb (bool_decide (b' = b)))
               (_leased_list (_tlb_manager (memory vm)))).
Proof.
  intros (Hb & Hlen & Hov & Hbase & Hend & Hpos & Hal & Hbs & Hl) (Hinv & Hin & Hothers)
    Hf Hf'.
  unfold release_thread_buffer. rewrite Hb.
  destruct vm as [[m pu ov] tb h out pr].
  unfold set_tlb_manager, set_memory, set_buffer, buffer_of in *.
  cbn [memory _tlb_manager _overflow heap thread_buffer _previous_usage tty processed] in *.
  set (m1 := update_buffer m b release).
  set (tlb := buffer m b) in *.
  assert (Eb1 : buffer m1 b = release tlb).
  { unfold m1, buffer, update_buffer. cbn. now apply list_lookup_total_alter_eq. }
  assert (Hne1 : forall b', b' <> b -> buffer m1 b' = buffer m b').
  { intros b' Hb'. unfold m1, buffer, update_buffer. cbn.
    apply list_lookup_total_alter_ne. congruence. }
  assert (Hrel : released m1 b = true) by (unfold released; now rewrite Eb1).
  assert (Hothers1 : forall b', b' ∈ _leased_list m1 -> b' <> b -> released m1 b' = false).
  { intros b' Hb' Hne. unfold released. rewrite Hne1 by assumption. now apply Hothers. }
  assert (Hnd : NoDup (_leased_list m)).
  { destruct Hinv as [(Hp & _ & _) _].
    assert (Hnd : NoDup (_free_list m ++ _leased_list m ++ _uncommitted_list m
                          ++ _not_finished m ++ [])).
    { rewrite Hp. apply NoDup_seq. }
    apply NoDup_app in Hnd as (_ & _ & Hnd). now apply NoDup_app in Hnd as (? & _ & _). }
  assert (Hwalk : forall log, exists tlb',
            tlb_do fuel h (buffer m1 b) log = Some (tlb', log ++ addressed (_base tlb) msgs)).
  { intros log. rewrite Eb1. unfold tlb_do. cbn [release _base _pos].
    rewrite uintx_small by lia.
    rewrite (message_loop_laid_out _ _ _ _ _ _ _ Hl Hf'). eauto. }
  assert (Hret : closure_returns (tlb_do fuel h) m1).
  { intros b' Hb' Ho w. destruct (decide (b' = b)) as [->|Hne].
    - destruct (Hwalk w) as (tlb' & E). rewrite E. eauto.
    - exfalso. pose proof (Hothers1 b' Hb' Hne) as Hr. unfold released in Hr.
      now rewrite Ho in Hr. }
  set (goal := uintx (uintx (pu + bytes_used m1) / 2)).
  destruct (flush_buffers_run_visits (tlb_do fuel h) fuel goal m1 pr)
    as (m' & log & e & E & Hv & Hl' & _); [exact Hinv|exact Hret|exact Hf|].
  rewrite (filter_only (released m1) b) in Hv by assumption.
  cbn [visit] in Hv. destruct (Hwalk pr) as (tlb' & Ew). rewrite Ew in Hv.
  cbn [mbind option_bind] in Hv. injection Hv as <-.
  unfold flush.
  cbn [memory _tlb_manager _overflow heap thread_buffer _previous_usage tty processed
       set_previous_usage set_memory].
  fold goal. unfold flush_buffers. rewrite E. cbn [mbind option_bind].
  unfold set_processed, set_tlb_manager, set_memory.
  cbn [memory _tlb_manager _overflow heap thread_buffer _previous_usage tty processed].
  rewrite Hov. eexists. split; [reflexivity|].
  cbn [memory _tlb_manager _overflow heap thread_buffer _previous_usage tty processed].
  split; [reflexivity|]. split; [apply lookup_delete_eq|].
  rewrite Hl'. f_equal. cbn [_leased_list m1 update_buffer set_buffers].
  apply filter_ext_in. intros b' Hb'. apply list_elem_of_In in Hb'.
  destruct (decide (b' = b)) as [->|Hne].
  - now rewrite Hrel, bool_decide_eq_true_2.
  - rewrite (Hothers1 b' Hb' Hne). now rewrite bool_decide_eq_false_2.
Qed.

Section delivery.
Variable sizeof_CrsFirstCallMessage : Z.

(** A run of first-call posts by one thread. *)
Definition post_all (methods : list Method) (thread : Thread) (vm : VM) : VM :=
  fold_left (fun vm method => post_first_call sizeof_CrsFirstCallMessage method thread vm)
            methods vm.

(** Each message of the run is smaller than 64K and fits the room left when
    its turn comes. *)
Fixpoint room_for (methods : list Method) (room : Z) : Prop :=
  match methods with
  | [] => True
  | method :: methods =>
    let size := first_call_size sizeof_CrsFirstCallMessage method in
    0 < size < 2 ^ 16 /\ size <= room /\ room_for methods (room - (size + 7) / 8 * 8)
  end.

Lemma post_all_appends : forall methods thread vm b msgs,
  holds vm thread b msgs -> only_release vm b ->
  room_for methods (_buffer_size (_tlb_manager (memory vm))
                    - _pos (buffer (_tlb_manager (memory vm)) b)) ->
  let vm' := post_all methods thread vm in
  holds vm' thread b (msgs ++ map (first_call_message sizeof_CrsFirstCallMessage) methods) /\
  only_release vm' b /\
  _base (buffer (_tlb_manager (memory vm')) b)
    = _base (buffer (_tlb_manager (memory vm)) b) /\
  _buffers_count (_tlb_manager (memory vm')) = _buffers_count (_tlb_manager (memory vm)) /\
  processed vm' = processed vm.
Proof.
  induction methods as [|method methods IH]; intros thread vm b msgs Hh Ho Hroom.
  - cbn. rewrite app_nil_r. auto.
  - cbn [room_for] in Hroom. destruct Hroom as (Hsz & Hfit & Hroom).
    destruct (post_first_call_appends sizeof_CrsFirstCallMessage method thread vm b msgs
                Hh Hsz Hfit) as (Hh1 & Em & Hp1 & _).
    pose proof Hh as (_ & Hlen & _ & Hbase & Hend & Hpos & Hal & Hbs & _).
    set (vm1 := post_first_call sizeof_CrsFirstCallMessage method thread vm) in *.
    set (m := _tlb_manager (memory vm)) in *.
    assert (Eb1 : buffer (_tlb_manager (memory vm1)) b
                  = (TLB_alloc (first_call_size sizeof_CrsFirstCallMessage method)
                       (buffer m b)).2).
    { rewrite Em. unfold buffer, update_buffer. cbn.
      now apply list_lookup_total_alter_eq. }
    assert (Ho1 : only_release vm1 b).
    { destruct Ho as (Hinv & Hin & Hothers). unfold only_release. rewrite Em.
      split; [exact Hinv|]. split; [exact Hin|].
      intros b' Hb' Hne. unfold released, buffer, update_buffer. cbn.
      rewrite list_lookup_total_alter_ne by congruence. now apply Hothers. }
    assert (Hroom1 : room_for methods
                       (_buffer_size (_tlb_manager (memory vm1))
                        - _pos (buffer (_tlb_manager (memory vm1)) b))).
    { rewrite Eb1. rewrite Em. cbn [update_buffer set_buffers _buffer_size TLB_alloc snd _pos].
      unfold align in *.
      destruct (align_up_8 (first_call_size sizeof_CrsFirstCallMessage method)
                  (_buffer_size m - _pos (buffer m b))) as (Ea & Hle & _);
        [lia|rewrite Zminus_mod, Hbs, Hal; reflexivity|lia|].
      rewrite Ea in Hle. unfold align in Ea. rewrite Ea. rewrite uintx_small by lia.
      replace (_buffer_size m - (_pos (buffer m b)
                 + (first_call_size sizeof_CrsFirstCallMessage method + 7) / 8 * 8))
        with (_buffer_size m - _pos (buffer m b)
              - (first_call_size sizeof_CrsFirstCallMessage method + 7) / 8 * 8) by lia.
      exact Hroom. }
    destruct (IH thread vm1 b _ Hh1 Ho1 Hroom1) as (Hh2 & Ho2 & Hb2 & Hc2 & Hp2).
    cbn [post_all fold_left map]. fold vm1.
    change (fold_left _ methods vm1) with (post_all methods thread vm1).
    rewrite <- (assoc_L (++)) in Hh2. split; [exact Hh2|]. split; [exact Ho2|].
    split; [|split].
    + rewrite Hb2, Eb1. reflexivity.
    + rewrite Hc2, Em. reflexivity.
    + congruence.
Qed.

(** X16: a first-call post that fits the buffer of its thread appends one
    message to it. When the thread's buffer holds the messages [msgs] up to
    its cursor and the message (smaller than 64K) fits the room left,
    [post_first_call] constructs the message at the cursor and moves the
    cursor up by its size rounded to the alignment: the buffer then holds
    [msgs] followed by the new message, whose size field is its size; no list
    of the pool changes and nothing is processed or printed. *)
Theorem post_first_call_appends_message method thread vm b msgs :
  holds vm thread b msgs ->
  0 < first_call_size sizeof_CrsFirstCallMessage method < 2 ^ 16 ->
  first_call_size sizeof_CrsFirstCallMessage method
    <= _buffer_size (_tlb_manager (memory vm))
       - _pos (buffer (_tlb_manager (memory vm)) b) ->
  holds (post_first_call sizeof_CrsFirstCallMessage method thread vm) thread b
        (msgs ++ [first_call_message sizeof_CrsFirstCallMessage method]) /\
  size (first_call_message sizeof_CrsFirstCallMessage method)
    = first_call_size sizeof_CrsFirstCallMessage method /\
  _tlb_manager (memory (post_first_call sizeof_CrsFirstCallMessage method thread vm))
    = update_buffer (_tlb_manager (memory vm)) b
        (fun _ => (TLB_alloc (first_call_size sizeof_CrsFirstCallMessage method)
                     (buffer (_tlb_manager (memory vm)) b)).2) /\
  processed (post_first_call sizeof_CrsFirstCallMessage method thread vm) = processed vm /\
  tty (post_first_call sizeof_CrsFirstCallMessage method thread vm) = tty vm.
Proof.
  intros Hh Hsz Hfit.
  destruct (post_first_call_appends sizeof_CrsFirstCallMessage method thread vm b msgs
              Hh Hsz Hfit) as (H1 & H2 & H3 & H4 & _).
  split; [exact H1|]. split; [|auto].
  cbn. unfold u2. apply Z.mod_small. lia.
Qed.

(** X17: what a thread posts is delivered in the order posted. When the
    thread's buffer holds the messages [msgs], every other leased buffer has
    an owner, and the thread posts first-call messages that all fit its
    buffer, then lets go of the buffer ([release_thread_buffer], as at thread
    exit), the next [flush] returns and has handed to [process] exactly the
    messages of that buffer: [msgs] and then the messages posted, in the order
    posted, each with its address; the thread has no buffer afterwards. *)
Theorem posted_messages_delivered_in_order fuel methods thread vm b msgs :
  holds vm thread b msgs -> only_release vm b ->
  room_for methods (_buffer_size (_tlb_manager (memory vm))
                    - _pos (buffer (_tlb_manager (memory vm)) b)) ->
  (Z.to_nat (_buffers_count (_tlb_manager (memory vm))) < fuel)%nat ->
  (length msgs + length methods < fuel)%nat ->
  exists vm',
    flush fuel (release_thread_buffer thread (post_all methods thread vm)) = Some vm' /\
    processed vm'
      = processed vm
        ++ addressed (_base (buffer (_tlb_manager (memory vm)) b))
             (msgs ++ map (first_call_message sizeof_CrsFirstCallMessage) methods) /\
    buffer_of vm' thread = None.
Proof.
  intros Hh Ho Hroom Hf Hf'.
  destruct (post_all_appends methods thread vm b msgs Hh Ho Hroom)
    as (Hh1 & Ho1 & Hb1 & Hc1 & Hp1).
  destruct (release_then_flush_delivers fuel (post_all methods thread vm) thread b _ Hh1 Ho1)
    as (vm' & E & Hp & Hnone & _).
  - now rewrite Hc1.
  - rewrite length_app, length_map. exact Hf'.
  - exists vm'. split; [exact E|]. split; [|exact Hnone].
    rewrite Hp, Hp1, Hb1. reflexivity.
Qed.

End delivery.

(** Two methods, posted by thread 7 of [busy_vm] into its buffer 0. *)
Definition two_methods : list Method :=
  [mk_Method "run" "()V" 5; mk_Method "main" "([Ljava/lang/String;)V" 6].

Lemma busy_vm_holds : holds busy_vm 7%nat 0%nat [].
Proof.
  unfold holds. cbn. repeat split; try lia; reflexivity.
Qed.

Lemma busy_vm_only_release : only_release busy_vm 0%nat.
Proof.
  split; [exact busy_pool_inv|]. split; [cbn; now left|].
  intros b' Hb' Hne. cbn in Hb'. apply list_elem_of_singleton in Hb'. contradiction.
Qed.

Lemma post_first_call_appends_message_witness :
  holds (post_first_call 16 (mk_Method "run" "()V" 5) 7%nat busy_vm) 7%nat 0%nat
        ([] ++ [first_call_message 16 (mk_Method "run" "()V" 5)]) /\
  size (first_call_message 16 (mk_Method "run" "()V" 5)) = 23.
Proof.
  destruct (post_first_call_appends_message 16 (mk_Method "run" "()V" 5) 7%nat busy_vm
              0%nat []) as (H1 & H2 & _).
  - exact busy_vm_holds.
  - vm_compute. split; reflexivity.
  - vm_compute. discriminate.
  - split; [exact H1|exact H2].
Defined.

Lemma posted_messages_delivered_in_order_witness :
  exists vm',
    flush 3 (release_thread_buffer 7%nat (post_all 16 two_methods 7%nat busy_vm)) = Some vm' /\
    processed vm'
      = processed busy_vm
        ++ addressed (_base (buffer (_tlb_manager (memory busy_vm)) 0%nat))
             ([] ++ map (first_call_message 16) two_methods) /\
    buffer_of vm' 7%nat = None.
Proof.
  apply (posted_messages_delivered_in_order 16 3 two_methods 7%nat busy_vm 0%nat []).
  - exact busy_vm_holds.
  - exact busy_vm_only_release.
  - vm_compute. repeat split; discriminate.
  - vm_compute. lia.
  - simpl. lia.
Defined.

(** ** Releasing every buffer, then flushing *)

Lemma release_closure_fields vm b :
  let vm' := release_closure vm b in
  let m := _tlb_manager (memory vm) in
  let m' := _tlb_manager (memory vm') in
  _free_list m' = _free_list m /\ _leased_list m' = _leased_list m /\
  _uncommitted_list m' = _uncommitted_list m /\ _not_finished m' = _not_finished m /\
  _num_committed m' = _num_committed m /\ _buffers_count m' = _buffers_count m /\
  _buffer_size m' = _buffer_size m /\ _bytes_used m' = _bytes_used m /\
  length (_buffers m') = length (_buffers m) /\
  heap vm' = heap vm /\ processed vm' = processed vm /\ tty vm' = tty vm /\
  _overflow (memory vm') = _overflow (memory vm) /\
  _previous_usage (memory vm') = _previous_usage (memory vm) /\
  (forall b', _pos (buffer m' b') = _pos (buffer m b') /\
              _base (buffer m' b') = _base (buffer m b') /\
              (_owner (buffer m b') = None -> _owner (buffer m' b') = None)) /\
  ((b < length (_buffers m))%nat -> _owner (buffer m' b) = None).
Proof.
  cbv zeta. unfold release_closure.
  destruct (_owner (buffer (_tlb_manager (memory vm)) b)) as [owner|] eqn:Eo.
  - destruct vm as [[m pu ov] tb h out pr].
    unfold set_buffer, set_tlb_manager, set_memory.
    cbn [memory _tlb_manager _overflow heap thread_buffer _previous_usage tty processed
         update_buffer set_buffers _free_list _leased_list _uncommitted_list _not_finished
         _num_committed _buffers_count _buffer_size _bytes_used _buffers] in *.
    rewrite length_alter.
    assert (Hb' : forall b', buffer (set_buffers m (alter release b (_buffers m))) b'
                  = if decide (b = b' /\ (b < length (_buffers m))%nat)
                    then release (buffer m b) else buffer m b').
    { intros b'. unfold buffer. cbn. apply list_lookup_total_alter. }
    repeat split; try reflexivity.
    + rewrite Hb'. destruct (decide _) as [[<- _]|]; reflexivity.
    + rewrite Hb'. destruct (decide _) as [[<- _]|]; reflexivity.
    + rewrite Hb'. destruct (decide _) as [[<- _]|]; auto.
    + intros Hb. rewrite Hb'. now rewrite decide_True.
  - repeat split; auto.
Qed.

(** [vm'] differs from [vm] at most in the owners of buffers, which may
    have been cleared, and in the buffers of threads. *)
Definition owners_cleared (vm vm' : VM) : Prop :=
  let m := _tlb_manager (memory vm) in
  let m' := _tlb_manager (memory vm') in
  _free_list m' = _free_list m /\ _leased_list m' = _leased_list m /\
  _uncommitted_list m' = _uncommitted_list m /\ _not_finished m' = _not_finished m /\
  _num_committed m' = _num_committed m /\ _buffers_count m' = _buffers_count m /\
  _buffer_size m' = _buffer_size m /\ _bytes_used m' = _bytes_used m /\
  length (_buffers m') = length (_buffers m) /\
  heap vm' = heap vm /\ processed vm' = processed vm /\ tty vm' = tty vm /\
  _overflow (memory vm') = _overflow (memory vm) /\
  _previous_usage (memory vm') = _previous_usage (memory vm) /\
  (forall b', _pos (buffer m' b') = _pos (buffer m b') /\
              _base (buffer m' b') = _base (buffer m b') /\
              (_owner (buffer m b') = None -> _owner (buffer m' b') = None)).

Lemma release_all_clears : forall bs vm,
  owners_cleared vm (fold_left release_closure bs vm) /\
  (forall b, b ∈ bs -> (b < length (_buffers (_tlb_manager (memory vm))))%nat ->
     _owner (buffer (_tlb_manager (memory (fold_left release_closure bs vm))) b) = None).
Proof.
  induction bs as [|b bs IH]; intros vm.
  - split; [unfold owners_cleared; cbn; repeat split; auto|].
    intros b Hb. now apply elem_of_nil in Hb.
  - cbn [fold_left].
    pose proof (release_closure_fields vm b) as H1. cbv zeta in H1.
    destruct H1 as (A1 & A2 & A3 & A4 & A5 & A6 & A7 & A8 & A9 & A10 & A11 & A12 & A13
                    & A14 & A15 & A16).
    destruct (IH (release_closure vm b))
      as ((B1 & B2 & B3 & B4 & B5 & B6 & B7 & B8 & B9 & B10 & B11 & B12 & B13 & B14 & B15)
          & Hnone).
    split.
    + unfold owners_cleared.
      repeat (split; [congruence|]).
      intros b'. destruct (A15 b') as (P1 & P2 & P3), (B15 b') as (Q1 & Q2 & Q3).
      split; [congruence|]. split; [congruence|auto].
    + intros b' Hb' Hlt. apply elem_of_cons in Hb' as [->|Hb'].
      * destruct (B15 b) as (_ & _ & Q3). apply Q3, A16, Hlt.
      * apply Hnone; [assumption|]. now rewrite A9.
Qed.

Lemma filter_all (P : nat -> bool) : forall l,
  (forall b, b ∈ l -> P b = true) ->
  List.filter P l = l /\ List.filter (fun b => negb (P b)) l = [].
Proof.
  induction l as [|x l IH]; intros H; [split; reflexivity|]. simpl.
  rewrite (H x) by now left. cbn.
  destruct IH as [-> ->]; [intros b Hb; apply H; now right|]. split; reflexivity.
Qed.

Lemma visit_walks fuel h m (msgs_of : nat -> list CrsMessage) : forall bs log,
  (forall b, b ∈ bs ->
     laid_out h (_base (buffer m b)) (msgs_of b)
       (uintx (_base (buffer m b) + _pos (buffer m b))) /\
     (length (msgs_of b) < fuel)%nat) ->
  visit (tlb_do fuel h) m bs log
    = Some (log ++ concat (map (fun b => addressed (_base (buffer m b)) (msgs_of b)) bs)).
Proof.
  induction bs as [|b bs IH]; intros log H.
  - cbn. now rewrite app_nil_r.
  - destruct (H b) as [Hl Hf]; [now left|].
    cbn [visit map concat].
    assert (E : exists tlb', tlb_do fuel h (buffer m b) log
                = Some (tlb', log ++ addressed (_base (buffer m b)) (msgs_of b))).
    { unfold tlb_do. rewrite (message_loop_laid_out _ _ _ _ _ _ _ Hl Hf). eauto. }
    destruct E as [tlb' ->]. cbn [mbind option_bind].
    rewrite IH by (intros b' Hb'; apply H; now right).
    now rewrite <- (assoc_L (++)).
Qed.

(** X18: once every buffer has been released, a flush delivers everything.
    [release_buffers] (the forced path of [flush_buffers], run at a
    safepoint) clears the owner of every leased buffer and takes the buffer
    away from its thread, leaving the messages in place. In a pool in its
    invariant in which every leased buffer holds messages laid out from its
    base to its cursor, the [flush] that follows returns, has handed to
    [process] the messages of every leased buffer, buffer after buffer in the
    order of the leased list and in address order within a buffer, and leaves
    no buffer leased and [bytes_used] at 0. *)
Theorem release_buffers_then_flush_delivers_everything
    fuel vm (msgs_of : nat -> list CrsMessage) :
  pool_inv (_tlb_manager (memory vm)) -> area_fits (_tlb_manager (memory vm)) ->
  usage_inv (_tlb_manager (memory vm)) ->
  (forall b, b ∈ _leased_list (_tlb_manager (memory vm)) ->
     (b < length (_buffers (_tlb_manager (memory vm))))%nat /\
     laid_out (heap vm) (_base (buffer (_tlb_manager (memory vm)) b)) (msgs_of b)
       (uintx (_base (buffer (_tlb_manager (memory vm)) b)
               + _pos (buffer (_tlb_manager (memory vm)) b))) /\
     (length (msgs_of b) < fuel)%nat) ->
  (Z.to_nat (_buffers_count (_tlb_manager (memory vm))) < fuel)%nat ->
  exists vm',
    flush fuel (release_buffers vm) = Some vm' /\
    processed vm'
      = processed vm
        ++ concat (map (fun b => addressed (_base (buffer (_tlb_manager (memory vm)) b))
                                  (msgs_of b))
                       (_leased_list (_tlb_manager (memory vm)))) /\
    _leased_list (_tlb_manager (memory vm')) = [] /\
    bytes_used (_tlb_manager (memory vm')) = 0.
Proof.
  intros Hinv Hfit Hu Hbufs Hf.
  unfold release_buffers.
  destruct (release_all_clears
              (_leased_list (_tlb_manager (memory vm))
               ++ _not_finished (_tlb_manager (memory vm))) vm)
    as ((B1 & B2 & B3 & B4 & B5 & B6 & B7 & B8 & B9 & B10 & B11 & B12 & B13 & B14 & B15)
        & Hnone).
  set (vm1 := fold_left release_closure _ vm) in *.
  set (m := _tlb_manager (memory vm)) in *.
  set (m1 := _tlb_manager (memory vm1)) in *.
  assert (Hinv1 : pool_inv m1).
  { unfold pool_inv, holders_inv, all_buffers in *. rewrite B1, B2, B3, B4, B5, B6.
    exact Hinv. }
  assert (Hfit1 : area_fits m1) by (unfold area_fits in *; now rewrite B6, B7).
  assert (Hu1 : usage_inv m1) by (unfold usage_inv in *; now rewrite B2, B4, B7, B8).
  assert (Hlaid : forall b, b ∈ _leased_list m1 ->
            laid_out (heap vm1) (_base (buffer m1 b)) (msgs_of b)
              (uintx (_base (buffer m1 b) + _pos (buffer m1 b))) /\
            (length (msgs_of b) < fuel)%nat).
  { intros b Hb. rewrite B2 in Hb. destruct (Hbufs b Hb) as (_ & Hl & Hlen).
    destruct (B15 b) as (-> & -> & _). rewrite B10. auto. }
  assert (Hrel : forall b, b ∈ _leased_list m1 -> released m1 b = true).
  { intros b Hb. rewrite B2 in Hb. destruct (Hbufs b Hb) as (Hlt & _).
    unfold released. rewrite Hnone; [reflexivity| |exact Hlt].
    apply elem_of_app. now left. }
  assert (Hret : closure_returns (tlb_do fuel (heap vm1)) m1).
  { intros b Hb _ w. destruct (Hlaid b Hb) as [Hl Hlen]. unfold tlb_do.
    rewrite (message_loop_laid_out _ _ _ _ _ _ _ Hl Hlen). eauto. }
  set (goal := uintx (uintx (_previous_usage (memory vm1) + bytes_used m1) / 2)).
  destruct (flush_buffers_run_visits (tlb_do fuel (heap vm1)) fuel goal m1 (processed vm1))
    as (m' & log & e & E & Hv & Hl' & _); [exact Hinv1|exact Hret|now rewrite B6|].
  destruct (filter_all (released m1) (_leased_list m1) Hrel) as [F1 F2].
  rewrite F1 in Hv. rewrite F2 in Hl'. cbn [rev] in Hl'.
  rewrite (visit_walks fuel (heap vm1) m1 msgs_of) in Hv by exact Hlaid.
  injection Hv as <-.
  assert (Hrun : flush_buffers (tlb_do fuel (heap vm1)) fuel goal m1 (processed vm1)
                 = Some (m', processed vm1
                             ++ concat (map (fun b => addressed (_base (buffer m1 b))
                                                       (msgs_of b)) (_leased_list m1)))).
  { unfold flush_buffers. now rewrite E. }
  destruct (flush_buffers_usage _ _ _ _ _ _ _ Hrun Hinv1 Hfit1 Hu1) as (Hu' & _ & Hnf').
  assert (Hmap : map (fun b => addressed (_base (buffer m1 b)) (msgs_of b)) (_leased_list m1)
                 = map (fun b => addressed (_base (buffer m b)) (msgs_of b)) (_leased_list m)).
  { rewrite B2. apply map_ext. intros b. now destruct (B15 b) as (_ & -> & _). }
  assert (Hused : bytes_used m' = 0).
  { unfold bytes_used. rewrite Hu', Hl', Hnf'. cbn. lia. }
  destruct (flush_returns fuel vm1 Hinv1 Hret) as [vm' Ev]; [fold m1; now rewrite B6|].
  exists vm'. split; [exact Ev|].
  apply flush_spec in Ev as (m'' & log'' & Ef & Em & _ & Hp & _). cbv zeta in Ef.
  fold m1 in Ef. fold goal in Ef. rewrite Hrun in Ef. injection Ef as <- <-.
  rewrite Hp, Em, Hmap, B11. cbn. auto.
Qed.

(** Threads 7 and 8 each own a leased buffer with one message in it. *)
Definition message_of_7 : CrsMessage := FirstCall (mk_CrsFirstCallMessage 20 5 "a()V").
Definition message_of_8 : CrsMessage := FirstCall (mk_CrsFirstCallMessage 23 6 "run()V").
Definition two_threads_vm : VM :=
  mk_VM (mk_NativeMemory
           (mk_TLBManager [] [0%nat; 1%nat] []
              [mk_TLB 24 65536 (Some 7%nat) None; mk_TLB 24 73728 (Some 8%nat) None]
              65536 16384 8192 2 2 16384 16384 [] [])
           0 false)
        {[7%nat := 0%nat; 8%nat := 1%nat]}
        {[65536 := message_of_7; 73728 := message_of_8]} [] [].
Definition messages_of (b : nat) : list CrsMessage :=
  if decide (b = 0%nat) then [message_of_7] else [message_of_8].

Lemma release_buffers_then_flush_delivers_everything_witness :
  exists vm',
    flush 3 (release_buffers two_threads_vm) = Some vm' /\
    processed vm'
      = processed two_threads_vm
        ++ concat (map (fun b => addressed
                                   (_base (buffer (_tlb_manager (memory two_threads_vm)) b))
                                   (messages_of b))
                       (_leased_list (_tlb_manager (memory two_threads_vm)))) /\
    _leased_list (_tlb_manager (memory vm')) = [] /\
    bytes_used (_tlb_manager (memory vm')) = 0.
Proof.
  apply (release_buffers_then_flush_delivers_everything 3 two_threads_vm messages_of).
  - unfold pool_inv, holders_inv, all_buffers. cbn. repeat split; try lia. reflexivity.
  - vm_compute. split; [discriminate|reflexivity].
  - reflexivity.
  - intros b Hb. cbn in Hb.
    apply elem_of_cons in Hb as [->|Hb];
      [|apply list_elem_of_singleton in Hb as ->];
      (split; [cbn; lia|]); (split; [vm_compute; repeat split|vm_compute; lia]).
  - vm_compute. lia.
Defined.

(** ** A message that does not fit *)

Lemma laid_out_insert h a x f : forall msgs p,
  laid_out h p msgs f ->
  (forall q msg, (q, msg) ∈ addressed p msgs -> q <> a) ->
  laid_out (<[a := x]> h) p msgs f.
Proof.
  induction msgs as [|m0 msgs IH]; intros p Hl Ha; simpl in *; [assumption|].
  destruct Hl as (Hp & Hm & Hl). split; [assumption|]. split.
  - rewrite lookup_insert_ne; [assumption|]. intros <-. apply (Ha a m0); [now left|reflexivity].
  - apply IH; [assumption|]. intros q msg Hq. apply (Ha q msg). now right.
Qed.

Section rotation.
Variable sizeof_CrsFirstCallMessage : Z.

Local Arguments align_up : simpl never.
Local Arguments first_call_size : simpl never.
Local Arguments laid_out : simpl never.

(** X19: a message that does not fit the room left rotates the thread to a
    fresh buffer. When the thread's buffer [b] holds the messages [msgs], the
    message to post is larger than the room left in it (though not larger
    than a buffer) and the free list is not empty, [post_first_call] clears
    the owner of [b], which stays on the leased list with its cursor and its
    messages as they are, takes the head [b2] of the free list, makes it the
    buffer of the thread and the new head of the leased list, and constructs
    the message at the base of [b2] as its first; [_bytes_used] grows by one
    buffer size. *)
Theorem post_rotates_to_fresh_buffer method thread vm b msgs b2 rest :
  holds vm thread b msgs ->
  0 < first_call_size sizeof_CrsFirstCallMessage method < 2 ^ 16 ->
  _buffer_size (_tlb_manager (memory vm)) - _pos (buffer (_tlb_manager (memory vm)) b)
    < first_call_size sizeof_CrsFirstCallMessage method
    <= _buffer_size (_tlb_manager (memory vm)) ->
  _free_list (_tlb_manager (memory vm)) = b2 :: rest ->
  b2 <> b -> (b2 < length (_buffers (_tlb_manager (memory vm))))%nat ->
  0 <= _base (buffer (_tlb_manager (memory vm)) b2) ->
  _base (buffer (_tlb_manager (memory vm)) b2) + _buffer_size (_tlb_manager (memory vm))
    < 2 ^ 64 ->
  (forall q msg,
     (q, msg) ∈ addressed (_base (buffer (_tlb_manager (memory vm)) b)) msgs ->
     q <> _base (buffer (_tlb_manager (memory vm)) b2)) ->
  holds (post_first_call sizeof_CrsFirstCallMessage method thread vm) thread b2
        [first_call_message sizeof_CrsFirstCallMessage method] /\
  _owner (buffer (_tlb_manager (memory
            (post_first_call sizeof_CrsFirstCallMessage method thread vm))) b) = None /\
  _pos (buffer (_tlb_manager (memory
          (post_first_call sizeof_CrsFirstCallMessage method thread vm))) b)
    = _pos (buffer (_tlb_manager (memory vm)) b) /\
  laid_out (heap (post_first_call sizeof_CrsFirstCallMessage method thread vm))
    (_base (buffer (_tlb_manager (memory vm)) b)) msgs
    (_base (buffer (_tlb_manager (memory vm)) b)
     + _pos (buffer (_tlb_manager (memory vm)) b)) /\
  _leased_list (_tlb_manager (memory
     (post_first_call sizeof_CrsFirstCallMessage method thread vm)))
    = b2 :: _leased_list (_tlb_manager (memory vm)) /\
  _free_list (_tlb_manager (memory
     (post_first_call sizeof_CrsFirstCallMessage method thread vm))) = rest /\
  bytes_used (_tlb_manager (memory
     (post_first_call sizeof_CrsFirstCallMessage method thread vm)))
    = uintx (bytes_used (_tlb_manager (memory vm)) + _buffer_size (_tlb_manager (memory vm))).
Proof.
  destruct vm as [[m pu ov] tb h out pr].
  destruct m as [free leased unc bufs base rsz bsz nc cnt area used nf os].
  unfold holds, post_first_call, alloc_plain, ensure, lease_buffer, buffer_of, bytes_used,
    alloc, TLB_alloc, update_buffer, buffer.
  fold (first_call_size sizeof_CrsFirstCallMessage method).
  set (size := first_call_size sizeof_CrsFirstCallMessage method) in *.
  simpl.
  intros (Hb & Hlen & Hov & Hbase & Hend & Hpos & Hal & Hbs & Hl) Hsz Hroom Hfree Hne Hlen2
    Hbase2 Hend2 Hdisj.
  subst ov free. rewrite Hb. simpl.
  rewrite (uintx_small (bsz - _pos (bufs !!! b))) by lia.
  rewrite decide_False by lia. simpl.
  rewrite decide_True by congruence. simpl.
  set (bufs2 := alter (lease thread) b2 (alter release b bufs)).
  assert (E2 : bufs2 !!! b2 = mk_TLB 0 (_base (bufs !!! b2)) (Some thread) None).
  { unfold bufs2. rewrite list_lookup_total_alter_eq by now rewrite length_alter.
    rewrite list_lookup_total_alter_ne by congruence. reflexivity. }
  assert (E1 : bufs2 !!! b = release (bufs !!! b)).
  { unfold bufs2. rewrite list_lookup_total_alter_ne by congruence.
    now rewrite list_lookup_total_alter_eq. }
  rewrite E2. simpl.
  rewrite (uintx_small (_base (bufs !!! b2) + 0)) by lia.
  destruct (align_up_8 size bsz) as (Ea & Hle & Hmod); [lia|exact Hbs|lia|].
  rewrite Ea in *.
  rewrite (uintx_small (0 + _)) by lia.
  rewrite list_lookup_total_alter_eq by (unfold bufs2; now rewrite !length_alter).
  rewrite list_lookup_total_alter_ne by congruence.
  rewrite E1. simpl. rewrite Z.add_0_r.
  split; [|split; [reflexivity|split; [reflexivity|split; [|auto]]]].
  - split; [apply lookup_insert_eq|].
    split; [unfold bufs2; now rewrite !length_alter|].
    split; [reflexivity|]. split; [exact Hbase2|]. split; [exact Hend2|].
    split; [lia|]. split; [exact Hmod|]. split; [exact Hbs|].
    apply (laid_out_snoc h _ _ _ [] _ eq_refl); [|lia].
    unfold next_message. cbn [Memory.size fc_size]. fold size.
    unfold u2. rewrite (Z.mod_small size) by lia.
    rewrite Ea. rewrite uintx_small by lia. lia.
  - apply laid_out_insert; assumption.
Qed.

End rotation.

(** Buffer 0 of thread 7 with 8 bytes left behind one long message; buffer 1
    is free. *)
Definition long_message : CrsMessage := FirstCall (mk_CrsFirstCallMessage 8184 5 "long").
Definition nearly_full_vm : VM :=
  mk_VM (mk_NativeMemory
           (mk_TLBManager [1%nat] [0%nat] []
              [mk_TLB 8184 65536 (Some 7%nat) None; mk_TLB 0 73728 None None]
              65536 16384 8192 2 2 16384 8192 [] [])
           0 false)
        {[7%nat := 0%nat]} {[65536 := long_message]} [] [].

Lemma post_rotates_to_fresh_buffer_witness :
  holds (post_first_call 16 (mk_Method "run" "()V" 5) 7%nat nearly_full_vm) 7%nat 1%nat
        [first_call_message 16 (mk_Method "run" "()V" 5)] /\
  _owner (buffer (_tlb_manager (memory
            (post_first_call 16 (mk_Method "run" "()V" 5) 7%nat nearly_full_vm))) 0%nat)
    = None /\
  _leased_list (_tlb_manager (memory
     (post_first_call 16 (mk_Method "run" "()V" 5) 7%nat nearly_full_vm)))
    = [1%nat; 0%nat].
Proof.
  destruct (post_rotates_to_fresh_buffer 16 (mk_Method "run" "()V" 5) 7%nat nearly_full_vm
              0%nat [long_message] 1%nat [])
    as (H1 & H2 & _ & _ & H5 & _).
  - unfold holds. vm_compute. repeat split; try discriminate; lia.
  - vm_compute. split; reflexivity.
  - vm_compute. split; [reflexivity|discriminate].
  - reflexivity.
  - discriminate.
  - vm_compute. lia.
  - vm_compute. discriminate.
  - vm_compute. reflexivity.
  - intros q msg Hq. vm_compute in Hq. apply list_elem_of_singleton in Hq.
    injection Hq as -> _. vm_compute. discriminate.
  - split; [exact H1|]. split; [exact H2|exact H5].
Defined.

(** ** The source reported for a class-load message *)

(** The [source_handle] that [CrsClassLoadMessage::process] passes to the
    agent: the message's own source, or the source of the buffer's reference
    message, or none; undefined ([None]) where it would read through a
    reference that is NULL or is not a class-load message with its source. *)
Definition source_handle (h : gmap Z CrsMessage) (tlb : TLB) (msg : CrsClassLoadMessage)
    : option (option string) :=
  if has_source (_flags msg) then Some (Some (source msg))
  else if has_same_source (_flags msg) then
    ref ← reference_message tlb CRS_MESSAGE_BACK_REFERENCE_CLASS_LOAD;
    match h !! ref with
    | Some (ClassLoad r) => if has_source (_flags r) then Some (Some (source r)) else None
    | _ => None
    end
  else Some None.

(** The loop of [MessageClosure::tlb_do] with the closure of a flush,
    recording for each class-load message its address and the source handed
    to the agent. *)
Fixpoint sources_loop (fuel : nat) (h : gmap Z CrsMessage) (tlb : TLB) (p f : Z)
    (log : list (Z * option string)) : option (TLB * list (Z * option string)) :=
  match fuel with
  | O => None
  | S fuel =>
    if decide (p < f) then
      msg ← h !! p;
      let p' := uintx (p + align_up (size msg) align) in
      match msg with
      | ClassLoad m =>
        s ← source_handle h tlb m;
        sources_loop fuel h (message_do tlb p msg []).1 p' f (log ++ [(p, s)])
      | FirstCall _ => sources_loop fuel h (message_do tlb p msg []).1 p' f log
      end
    else Some (tlb, log)
  end.

Definition tlb_do_sources (fuel : nat) (h : gmap Z CrsMessage) (tlb : TLB)
    (log : list (Z * option string)) : option (TLB * list (Z * option string)) :=
  sources_loop fuel h tlb (_base tlb) (uintx (_base tlb + _pos tlb)) log.

(** What was posted into a buffer: a class-load message with the source it
    was posted with (none for NULL or the empty string), or a first-call
    message. *)
Inductive posted :=
| Posted_class (msg : CrsClassLoadMessage) (source_ : option string)
| Posted_call (msg : CrsFirstCallMessage).

Definition message_of (e : posted) : CrsMessage :=
  match e with
  | Posted_class msg _ => ClassLoad msg
  | Posted_call msg => FirstCall msg
  end.

(** The last source posted so far. *)
Definition carry (c : option string) (e : posted) : option string :=
  match e with
  | Posted_class _ (Some s) => Some s
  | _ => c
  end.

(** How a message encodes the source it was posted with, given the last
    source posted before it into the same buffer. *)
Definition encoded (c : option string) (e : posted) : Prop :=
  match e with
  | Posted_call _ => True
  | Posted_class msg (Some s) =>
    (has_source (_flags msg) = true /\ source_data msg = Some s) \/
    (has_source (_flags msg) = false /\ has_same_source (_flags msg) = true /\ c = Some s)
  | Posted_class msg None =>
    has_source (_flags msg) = false /\
    has_same_source (_flags msg) = (if c is Some _ then true else false)
  end.

Fixpoint encoded_chain (c : option string) (es : list posted) : Prop :=
  match es with
  | [] => True
  | e :: es => encoded c e /\ encoded_chain (carry c e) es
  end.

(** What the agent is told: for each class-load message the source it was
    posted with, or, where it was posted with none, the last source posted
    before it into the same buffer. *)
Fixpoint reported (p : Z) (c : option string) (es : list posted) : list (Z * option string) :=
  match es with
  | [] => []
  | e :: es =>
    match e with
    | Posted_class _ source_ =>
      [(p, match source_ with Some s => Some s | None => c end)]
    | Posted_call _ => []
    end ++ reported (next_message p (message_of e)) (carry c e) es
  end.

(** The reference [r] is a class-load message that has the source [c]. *)
Definition points_to_source (h : gmap Z CrsMessage) (c : option string) (r : option Z)
    : Prop :=
  match c with
  | Some s =>
    exists q m, r = Some q /\ h !! q = Some (ClassLoad m) /\
                has_source (_flags m) = true /\ source_data m = Some s
  | None => True
  end.

Lemma sources_loop_reports h f : forall es fuel tlb p c log,
  laid_out h p (map message_of es) f -> encoded_chain c es ->
  points_to_source h c (_reference_message tlb) -> (length es < fuel)%nat ->
  exists tlb', sources_loop fuel h tlb p f log = Some (tlb', log ++ reported p c es).
Proof.
  induction es as [|e es IH]; intros fuel tlb p c log Hl He Hr Hf;
    (destruct fuel as [|fuel]; [simpl in Hf; lia|]);
    cbn [sources_loop laid_out map encoded_chain reported] in *.
  - subst. rewrite decide_False by lia. rewrite app_nil_r. eauto.
  - destruct Hl as (Hp & Hm & Hl). destruct He as (He & Hc).
    rewrite decide_True by assumption. rewrite Hm. cbn [mbind option_bind].
    fold (next_message p (message_of e)).
    assert (Hf' : (length es < fuel)%nat) by (simpl in Hf; lia).
    destruct e as [msg [s|]|msg]; cbn [message_of encoded carry] in *.
    + destruct He as [(Hs & Hd)|(Hs & Hss & ->)].
      * unfold source_handle. rewrite Hs. cbn [mbind option_bind].
        unfold source. rewrite Hd. cbn [default from_option id].
        destruct (IH fuel (message_do tlb p (ClassLoad msg) []).1
                    (next_message p (ClassLoad msg)) (Some s) (log ++ [(p, Some s)]))
          as (tlb' & E); [assumption|assumption| |assumption|].
        { unfold message_do. rewrite Hs. cbn. exists p, msg. auto. }
        rewrite E, <- (assoc_L (++)). eauto.
      * destruct Hr as (q & m & Hq & Hh & Hms & Hmd).
        unfold source_handle. rewrite Hs, Hss. unfold reference_message.
        rewrite Hq. cbn [mbind option_bind]. rewrite Hh, Hms.
        unfold source. rewrite Hmd. cbn [default from_option id mbind option_bind].
        destruct (IH fuel (message_do tlb p (ClassLoad msg) []).1
                    (next_message p (ClassLoad msg)) (Some s) (log ++ [(p, Some s)]))
          as (tlb' & E); [assumption|assumption| |assumption|].
        { unfold message_do. rewrite Hs. cbn. exists q, m. auto. }
        rewrite E, <- (assoc_L (++)). eauto.
    + destruct He as (Hs & Hss).
      assert (Eh : source_handle h tlb msg = Some c).
      { unfold source_handle. rewrite Hs, Hss. destruct c as [s|]; [|reflexivity].
        destruct Hr as (q & m & Hq & Hh & Hms & Hmd). unfold reference_message.
        rewrite Hq. cbn [mbind option_bind]. rewrite Hh, Hms.
        unfold source. now rewrite Hmd. }
      rewrite Eh. cbn [mbind option_bind].
      destruct (IH fuel (message_do tlb p (ClassLoad msg) []).1
                  (next_message p (ClassLoad msg)) c (log ++ [(p, c)]))
        as (tlb' & E); [assumption|assumption| |assumption|].
      { unfold message_do. rewrite Hs. cbn. exact Hr. }
      rewrite E, <- (assoc_L (++)). eauto.
    + destruct (IH fuel (message_do tlb p (FirstCall msg) []).1
                  (next_message p (FirstCall msg)) c log)
        as (tlb' & E); [assumption|assumption|exact Hr|assumption|].
      rewrite E. eauto.
Qed.

(** ** Posting class-load messages *)

(** The last source posted into the buffer. *)
Definition last_source (es : list posted) : option string := fold_left carry es None.

(** The buffer of the thread holds what was posted, each message encoding
    its source; the buffer's reference message is the last message posted
    with a source, if there is one, and else is NULL or a class-load message
    without source. *)
Definition records (vm : VM) (thread : Thread) (b : nat) (es : list posted) : Prop :=
  holds vm thread b (map message_of es) /\
  encoded_chain None es /\
  match last_source es with
  | Some s =>
    exists q m,
      _reference_message (buffer (_tlb_manager (memory vm)) b) = Some q /\
      heap vm !! q = Some (ClassLoad m) /\
      has_source (_flags m) = true /\ source_data m = Some s /\
      q < _base (buffer (_tlb_manager (memory vm)) b)
          + _pos (buffer (_tlb_manager (memory vm)) b)
  | None =>
    _reference_message (buffer (_tlb_manager (memory vm)) b) = None \/
    exists q m,
      _reference_message (buffer (_tlb_manager (memory vm)) b) = Some q /\
      heap vm !! q = Some (ClassLoad m) /\
      has_source (_flags m) = false /\
      q < _base (buffer (_tlb_manager (memory vm)) b)
          + _pos (buffer (_tlb_manager (memory vm)) b)
  end.

Lemma encoded_chain_snoc e : forall es c,
  encoded_chain c es -> encoded (fold_left carry es c) e -> encoded_chain c (es ++ [e]).
Proof.
  induction es as [|e0 es IH]; intros c Hc He; cbn in *; [auto|].
  destruct Hc as [H0 Hc]. split; [assumption|]. now apply IH.
Qed.

(** A message constructed at the cursor of the thread's buffer, the cursor
    moved past it. *)
Lemma holds_append vm thread b msgs msg r :
  holds vm thread b msgs ->
  0 < size msg < 2 ^ 16 ->
  size msg <= _buffer_size (_tlb_manager (memory vm))
              - _pos (buffer (_tlb_manager (memory vm)) b) ->
  let m := _tlb_manager (memory vm) in
  let tlb := buffer m b in
  let tlb' := mk_TLB (_pos tlb + (size msg + 7) / 8 * 8) (_base tlb) (_owner tlb) r in
  let vm' := set_heap (set_tlb_manager vm (update_buffer m b (fun _ => tlb')))
               (<[_base tlb + _pos tlb := msg]> (heap vm)) in
  holds vm' thread b (msgs ++ [msg]) /\
  buffer (_tlb_manager (memory vm')) b = tlb' /\
  _pos tlb < _pos tlb' /\
  (forall q, q < _base tlb + _pos tlb -> heap vm' !! q = heap vm !! q).
Proof.
  intros (Hb & Hlen & Hov & Hbase & Hend & Hpos & Hal & Hbs & Hl) Hsz Hroom. cbv zeta.
  set (m := _tlb_manager (memory vm)) in *. set (tlb := buffer m b) in *.
  unfold align in *.
  assert (Hr : (_buffer_size m - _pos tlb) mod 8 = 0).
  { rewrite Zminus_mod, Hbs, Hal. reflexivity. }
  destruct (align_up_8 (size msg) (_buffer_size m - _pos tlb)) as (Ea & Hle & Hmod);
    [lia|exact Hr|lia|].
  rewrite Ea in Hle, Hmod.
  destruct vm as [[m0 pu ov] tb h out pr]. cbn in m. subst m.
  unfold holds, set_heap, set_tlb_manager, set_memory, buffer_of in *.
  cbn [memory _tlb_manager _overflow heap thread_buffer _previous_usage tty processed] in *.
  assert (Eb : buffer (update_buffer m0 b (fun _ =>
                 mk_TLB (_pos tlb + (size msg + 7) / 8 * 8) (_base tlb) (_owner tlb) r)) b
               = mk_TLB (_pos tlb + (size msg + 7) / 8 * 8) (_base tlb) (_owner tlb) r).
  { unfold buffer, update_buffer. cbn. now apply list_lookup_total_alter_eq. }
  rewrite Eb. cbn [_pos _base _buffer_size _buffers update_buffer set_buffers].
  split; [|split; [reflexivity|split; [lia|]]].
  - split; [exact Hb|]. split; [now rewrite length_alter|].
    split; [exact Hov|]. split; [exact Hbase|]. split; [exact Hend|].
    split; [lia|]. split; [|split; [exact Hbs|]].
    + unfold align. rewrite Z.add_mod, Hal, Hmod by lia. reflexivity.
    + apply laid_out_snoc; [exact Hl| |lia].
      unfold next_message. rewrite Ea. rewrite uintx_small by lia. lia.
  - intros q Hq. apply lookup_insert_ne. lia.
Qed.

(** An allocation with a back reference that fits the buffer of the
    thread. *)
Lemma alloc_reference_fits is_reference size size_reference thread vm b msgs :
  holds vm thread b msgs ->
  0 <= size <= _buffer_size (_tlb_manager (memory vm))
               - _pos (buffer (_tlb_manager (memory vm)) b) ->
  (is_reference = true -> size_reference = size) ->
  let m := _tlb_manager (memory vm) in
  let tlb := buffer m b in
  let p := _base tlb + _pos tlb in
  let tlb' := mk_TLB (_pos tlb + (size + 7) / 8 * 8) (_base tlb) (_owner tlb)
                (if is_reference : bool then Some p else _reference_message tlb) in
  alloc_reference CRS_MESSAGE_BACK_REFERENCE_CLASS_LOAD is_reference size size_reference
    thread vm
    = (Some p, is_reference, set_tlb_manager vm (update_buffer m b (fun _ => tlb'))).
Proof.
  intros (Hb & Hlen & Hov & Hbase & Hend & Hpos & Hal & Hbs & Hl) Hs Hsr. cbv zeta.
  set (m := _tlb_manager (memory vm)) in *. set (tlb := buffer m b) in *.
  unfold align in *.
  assert (Hroom : (_buffer_size m - _pos tlb) mod 8 = 0).
  { rewrite Zminus_mod, Hbs, Hal. reflexivity. }
  destruct (align_up_8 size (_buffer_size m - _pos tlb) Hs Hroom) as (Ea & Hle & Hmod);
    [lia|].
  unfold alloc_reference. rewrite Hov, Hb. unfold ensure. fold m. fold tlb.
  rewrite (uintx_small (_buffer_size m - _pos tlb)) by lia.
  rewrite decide_True by lia.
  destruct vm as [[m0 pu ov] tb h out pr]. cbn in m. subst m.
  unfold set_tlb_manager, set_memory.
  cbn [memory _tlb_manager _previous_usage _overflow thread_buffer heap tty processed].
  rewrite decide_False by auto.
  cbn [memory _tlb_manager _previous_usage _overflow thread_buffer heap tty processed].
  replace (if is_reference then size_reference else size) with size
    by (destruct is_reference; [now rewrite Hsr|reflexivity]).
  unfold alloc, TLB_alloc. fold tlb. rewrite Ea.
  rewrite (uintx_small (_base tlb + _pos tlb)) by lia.
  rewrite (uintx_small (_pos tlb + _)) by lia.
  destruct is_reference; [|reflexivity].
  assert (Eu : forall t1 g,
            update_buffer (update_buffer m0 b (fun _ => t1)) b g
            = update_buffer m0 b (fun _ => g t1)).
  { intros t1 g. unfold update_buffer, set_buffers. cbn.
    now rewrite list_alter_alter_eq. }
  rewrite Eu. reflexivity.
Qed.

Section class_load_posts.
Variable offset_of_data : Z.

(** [post] takes the empty string for no source. *)
Definition normalise (source_ : option string) : option string :=
  match source_ with
  | Some s => if bool_decide (s = EmptyString) then None else Some s
  | None => None
  end.

(** [is_new_reference] as [post] computes it, from the last source posted
    into the buffer and the source to post. *)
Definition writes_source (c source_ : option string) : bool :=
  match source_, c with
  | Some s, Some s' => strcmp_ne s' s
  | Some _, None => true
  | None, _ => false
  end.

(** The size of the message [post] constructs. *)
Definition class_load_size (ikh : instanceKlass) (c source_ : option string) : Z :=
  if writes_source c source_
  then size_no_ref offset_of_data ikh
       + match source_ with Some s => strlen s + 1 | None => 0 end
  else size_no_ref offset_of_data ikh.

Lemma post_in_buffer ikh is_transformed original_hash hash source_ thread vm b es :
  records vm thread b es ->
  0 <= class_load_size ikh (last_source es) (normalise source_)
    <= _buffer_size (_tlb_manager (memory vm))
       - _pos (buffer (_tlb_manager (memory vm)) b) ->
  let m := _tlb_manager (memory vm) in
  let tlb := buffer m b in
  let p := _base tlb + _pos tlb in
  let c := last_source es in
  let src := normalise source_ in
  let size := class_load_size ikh c src in
  let msg :=
    new_CrsClassLoadMessage size ikh is_transformed original_hash hash src
      (if writes_source c src then None else if c is Some _ then Some p else None)
      (utf8_length (name ikh)) in
  let tlb' := mk_TLB (_pos tlb + (size + 7) / 8 * 8) (_base tlb) (_owner tlb)
                (if writes_source c src then Some p else _reference_message tlb) in
  post offset_of_data ikh is_transformed original_hash hash source_ thread vm
    = Some (set_heap (set_tlb_manager vm (update_buffer m b (fun _ => tlb')))
              (<[p := ClassLoad msg]> (heap vm))).
Proof.
  intros (Hh & Hchain & Href) Hsz. cbv zeta.
  pose proof Hh as (Hb & Hlen & Hov & Hbase & Hend & Hpos & Hal & Hbs & Hl).
  unfold post, NativeMemory_reference_message. rewrite Hb.
  cbn [reference_message]. fold (normalise source_).
  set (m := _tlb_manager (memory vm)) in *. set (tlb := buffer m b) in *.
  set (src := normalise source_) in *. set (c := last_source es) in *.
  assert (Hprev : exists prev,
            match _reference_message tlb with
            | Some p =>
              msg ← class_load_at vm p;
              Some (if negb (has_source (_flags msg)) then None else Some (p, msg))
            | None => Some None
            end = Some prev /\
            match src, prev with
            | Some s, Some (_, msg) => strcmp_ne (source msg) s
            | Some _, None => true
            | None, _ => false
            end = writes_source c src /\
            new_CrsClassLoadMessage (class_load_size ikh c src) ikh is_transformed
              original_hash hash src
              (if writes_source c src then None else fst <$> prev) (utf8_length (name ikh))
            = new_CrsClassLoadMessage (class_load_size ikh c src) ikh is_transformed
                original_hash hash src
                (if writes_source c src then None
                 else if c is Some _ then Some (_base tlb + _pos tlb) else None)
                (utf8_length (name ikh))).
  { destruct c as [s'|].
    - destruct Href as (q & m0 & Hq & Hm0 & Hs0 & Hd0 & _).
      exists (Some (q, m0)). rewrite Hq. unfold class_load_at. rewrite Hm0.
      cbn [mbind option_bind]. rewrite Hs0. cbn [negb].
      split; [reflexivity|]. split.
      + unfold writes_source, source. rewrite Hd0. reflexivity.
      + destruct (writes_source (Some s') src); reflexivity.
    - exists None. destruct Href as [Hq|(q & m0 & Hq & Hm0 & Hs0 & _)].
      + rewrite Hq. auto.
      + rewrite Hq. unfold class_load_at. rewrite Hm0. cbn [mbind option_bind].
        rewrite Hs0. cbn [negb]. split; [reflexivity|].
        split; [reflexivity|]. destruct (writes_source None src); reflexivity. }
  destruct Hprev as (prev & -> & Hnew & Hmsg). cbn [mbind option_bind].
  rewrite Hnew. fold (size_no_ref offset_of_data ikh).
  assert (Esize : (if writes_source c src
                   then size_no_ref offset_of_data ikh
                        + match src with Some s => strlen s + 1 | None => 0 end
                   else size_no_ref offset_of_data ikh) = class_load_size ikh c src)
    by reflexivity.
  rewrite Esize.
  rewrite (alloc_reference_fits _ _ _ thread vm b _ Hh Hsz).
  - fold m. fold tlb.
    replace (if writes_source c src
             then size_no_ref offset_of_data ikh
                  + match src with Some s => strlen s + 1 | None => 0 end
             else class_load_size ikh c src) with (class_load_size ikh c src)
      by (unfold class_load_size; now destruct (writes_source c src)).
    rewrite Hmsg. reflexivity.
  - intros E. unfold class_load_size. now rewrite E.
Qed.

(** X20: [post] encodes the source of a class-load message relative to the
    last source posted into the same buffer. When the thread's buffer records
    what was posted so far and the message (smaller than 64K) fits the room
    left, [post] appends one class-load message: with its source string
    copied and [has_source] set if the source is not empty and differs from
    the last source posted (the message then becomes the buffer's reference
    message); with [has_same_source] set and no string if a source was posted
    before and the new source equals it or is absent (NULL or empty); with
    neither flag if the source is absent and none was posted before. *)
Theorem post_encodes_source ikh is_transformed original_hash hash source_ thread vm b es :
  records vm thread b es ->
  0 < class_load_size ikh (last_source es) (normalise source_) < 2 ^ 16 ->
  class_load_size ikh (last_source es) (normalise source_)
    <= _buffer_size (_tlb_manager (memory vm))
       - _pos (buffer (_tlb_manager (memory vm)) b) ->
  exists vm' msg,
    post offset_of_data ikh is_transformed original_hash hash source_ thread vm = Some vm' /\
    records vm' thread b (es ++ [Posted_class msg (normalise source_)]) /\
    cl_size msg = class_load_size ikh (last_source es) (normalise source_) /\
    klass_name msg = name ikh /\
    has_source (_flags msg) = writes_source (last_source es) (normalise source_) /\
    source_data msg
      = (if writes_source (last_source es) (normalise source_)
         then normalise source_ else None) /\
    has_same_source (_flags msg)
      = negb (writes_source (last_source es) (normalise source_))
        && (if last_source es is Some _ then true else false).
Proof.
  intros Hrec Hsz Hroom.
  rewrite (post_in_buffer ikh is_transformed original_hash hash source_ thread vm b es Hrec)
    by lia.
  destruct Hrec as (Hh & Hchain & Href).
  set (m := _tlb_manager (memory vm)) in *. set (tlb := buffer m b) in *.
  set (src := normalise source_) in *. set (c := last_source es) in *.
  set (size := class_load_size ikh c src) in *.
  set (p := _base tlb + _pos tlb) in *.
  set (msg := new_CrsClassLoadMessage size ikh is_transformed original_hash hash src
                (if writes_source c src then None else if c is Some _ then Some p else None)
                (utf8_length (name ikh))).
  assert (Esz : Memory.size (ClassLoad msg) = size).
  { cbn. unfold u2. apply Z.mod_small. lia. }
  assert (Hflags : has_source (_flags msg) = writes_source c src /\
                   source_data msg = (if writes_source c src then src else None) /\
                   has_same_source (_flags msg)
                     = negb (writes_source c src) && (if c is Some _ then true else false)).
  { unfold msg, new_CrsClassLoadMessage. cbn [_flags has_source has_same_source source_data].
    destruct (writes_source c src) eqn:Ew.
    - rewrite bool_decide_eq_false_2 by auto. cbn [negb andb].
      destruct src as [s|]; [|destruct c; discriminate].
      rewrite bool_decide_eq_true_2 by discriminate. auto.
    - destruct c as [s'|].
      + rewrite bool_decide_eq_true_2 by discriminate. cbn. auto.
      + rewrite bool_decide_eq_false_2 by auto. destruct src; [discriminate|].
        rewrite bool_decide_eq_false_2 by auto. cbn. auto. }
  destruct Hflags as (Hfs & Hfd & Hfss).
  pose proof (holds_append vm thread b (map message_of es) (ClassLoad msg)
                (if writes_source c src then Some p else _reference_message tlb) Hh) as Ha.
  rewrite Esz in Ha. cbv zeta in Ha. fold m tlb p in Ha.
  destruct Ha as (Hh' & Eb' & Hpos' & Hheap); [lia|exact Hroom|].
  set (vm' := set_heap _ _) in *.
  exists vm', msg. split; [reflexivity|].
  split; [|repeat split; assumption].
  pose proof Hh as (_ & _ & _ & Hbase & _ & Hpos & _).
  assert (Hp' : heap vm' !! p = Some (ClassLoad msg)).
  { unfold vm', set_heap. cbn [heap]. apply lookup_insert_eq. }
  split; [|split].
  - rewrite map_app. exact Hh'.
  - apply encoded_chain_snoc; [exact Hchain|]. fold (last_source es). fold c.
    cbn [encoded]. destruct src as [s|].
    + destruct (writes_source c (Some s)) eqn:Ew.
      * left. auto.
      * right. rewrite Hfs, Hfss. cbn.
        destruct c as [s'|]; [|discriminate]. split; [reflexivity|]. split; [reflexivity|].
        unfold writes_source, strcmp_ne in Ew. apply negb_false_iff, String.eqb_eq in Ew.
        now subst.
    + rewrite Hfs, Hfss. destruct c; cbn; auto.
  - unfold last_source. rewrite fold_left_app. fold (last_source es). fold c.
    cbn [fold_left carry]. fold m tlb in Href.
    rewrite Eb'. cbn [_reference_message _base _pos].
    assert (Hold : forall q m0 (P : CrsClassLoadMessage -> Prop),
              _reference_message tlb = Some q -> heap vm !! q = Some (ClassLoad m0) ->
              q < p -> P m0 -> writes_source c src = false ->
              exists q' m', (if writes_source c src then Some p else _reference_message tlb)
                            = Some q' /\
                heap vm' !! q' = Some (ClassLoad m') /\ P m' /\
                q' < _base tlb + (_pos tlb + (size + 7) / 8 * 8)).
    { intros q m0 P Hq Hm0 Hlt HP Ew. exists q, m0. rewrite Ew.
      split; [exact Hq|]. split; [rewrite Hheap by exact Hlt; exact Hm0|].
      split; [exact HP|]. cbn [_pos] in Hpos'. unfold p in Hlt. lia. }
    destruct src as [s|].
    + destruct (writes_source c (Some s)) eqn:Ew.
      * exists p, msg. split; [reflexivity|]. split; [exact Hp'|].
        split; [exact Hfs|]. split; [exact Hfd|]. cbn [_pos] in Hpos'. unfold p. lia.
      * destruct c as [s'|]; [|discriminate].
        assert (s' = s) as ->.
        { unfold writes_source, strcmp_ne in Ew.
          now apply negb_false_iff, String.eqb_eq in Ew. }
        destruct Href as (q & m0 & Hq & Hm0 & Hs0 & Hd0 & Hlt).
        destruct (Hold q m0 (fun m' => has_source (_flags m') = true
                                       /\ source_data m' = Some s) Hq Hm0 Hlt)
          as (q' & m' & E1 & E2 & (E3 & E4) & E5); [auto|reflexivity|].
        exists q', m'. auto.
    + assert (Ew : writes_source c None = false) by reflexivity.
      destruct c as [s'|].
      * destruct Href as (q & m0 & Hq & Hm0 & Hs0 & Hd0 & Hlt).
        destruct (Hold q m0 (fun m' => has_source (_flags m') = true
                                       /\ source_data m' = Some s') Hq Hm0 Hlt)
          as (q' & m' & E1 & E2 & (E3 & E4) & E5); [auto|reflexivity|].
        exists q', m'. auto.
      * destruct Href as [Hq|(q & m0 & Hq & Hm0 & Hs0 & Hlt)]; [left; exact Hq|right].
        destruct (Hold q m0 (fun m' => has_source (_flags m') = false) Hq Hm0 Hlt)
          as (q' & m' & E1 & E2 & E3 & E5); [auto|reflexivity|].
        exists q', m'. auto.
Qed.

End class_load_posts.

(** X21: what the agent is told is what was posted, except that a class
    posted without source inherits one. When the thread's buffer records
    what was posted into it, the walk of the buffer by a flush returns and
    hands the agent, for each class-load message in the order posted, the
    source the class was posted with if that was not empty, and otherwise
    (the class was posted with NULL or the empty string) the last non-empty
    source posted before it into the same buffer, or no source if there was
    none. *)
Theorem sources_reported_as_posted fuel vm thread b es log :
  records vm thread b es -> (length es < fuel)%nat ->
  exists tlb',
    tlb_do_sources fuel (heap vm) (buffer (_tlb_manager (memory vm)) b) log
      = Some (tlb', log ++ reported (_base (buffer (_tlb_manager (memory vm)) b)) None es).
Proof.
  intros ((Hb & Hlen & Hov & Hbase & Hend & Hpos & Hal & Hbs & Hl) & Hchain & _) Hf.
  unfold tlb_do_sources. rewrite uintx_small by lia.
  apply sources_loop_reports; [exact Hl|exact Hchain|exact I|exact Hf].
Qed.

(** Thread 9 of [busy_vm] has posted the class A from a.jar and then the
    class Bc without source. *)
Definition first_posted : CrsClassLoadMessage :=
  mk_CrsClassLoadMessage 104 1 1 (mk_Flags false false true false) None None 1 "A"
    (Some some_source).
Definition second_posted : CrsClassLoadMessage :=
  mk_CrsClassLoadMessage 99 1 2 (mk_Flags false false false true) None None 2 "Bc" None.
Definition after_second_post : VM :=
  default after_first_post (post 96 other_class false None None None 9%nat after_first_post).

Lemma after_first_post_records :
  records after_first_post 9%nat 1%nat [Posted_class first_posted (Some some_source)].
Proof.
  split; [|split].
  - unfold holds. vm_compute. repeat split; try discriminate; lia.
  - cbn. split; [|exact I]. left. split; reflexivity.
  - cbn. exists 73728, first_posted. vm_compute. repeat split.
Qed.

Lemma after_second_post_records :
  records after_second_post 9%nat 1%nat
    [Posted_class first_posted (Some some_source); Posted_class second_posted None].
Proof.
  split; [|split].
  - unfold holds. vm_compute. repeat split; try discriminate; lia.
  - cbn. split; [left; split; reflexivity|]. split; [|exact I]. split; reflexivity.
  - cbn. exists 73728, first_posted. vm_compute. repeat split.
Qed.

Lemma post_encodes_source_witness :
  exists vm' msg,
    post 96 other_class false None None (Some EmptyString) 9%nat after_first_post
      = Some vm' /\
    records vm' 9%nat 1%nat
      ([Posted_class first_posted (Some some_source)]
       ++ [Posted_class msg (normalise (Some EmptyString))]) /\
    cl_size msg = 99 /\ has_source (_flags msg) = false /\
    has_same_source (_flags msg) = true.
Proof.
  destruct (post_encodes_source 96 other_class false None None (Some EmptyString) 9%nat
              after_first_post 1%nat [Posted_class first_posted (Some some_source)])
    as (vm' & msg & E & Hr & H1 & _ & H2 & _ & H3).
  - exact after_first_post_records.
  - vm_compute. split; reflexivity.
  - vm_compute. discriminate.
  - exists vm', msg. split; [exact E|]. split; [exact Hr|].
    split; [rewrite H1; reflexivity|]. split; [rewrite H2; reflexivity|].
    rewrite H3. reflexivity.
Defined.

Lemma sources_reported_as_posted_witness :
  exists tlb',
    tlb_do_sources 3 (heap after_second_post)
      (buffer (_tlb_manager (memory after_second_post)) 1%nat) []
      = Some (tlb', [(73728, Some some_source); (73832, Some some_source)]).
Proof.
  destruct (sources_reported_as_posted 3 after_second_post 9%nat 1%nat
              [Posted_class first_posted (Some some_source);
               Posted_class second_posted None] [])
    as (tlb' & E).
  - exact after_second_post_records.
  - simpl. lia.
  - exists tlb'. rewrite E. f_equal.
Defined.

End Memory.

(** * The event queue: [schedule] and [flush_events] *)

Module EventQueue.

(** A [CRSEvent**]: the address of [event_queue_head] or of the [next] field
    of an event. *)
Inductive slot :=
| head_slot
| next_slot (e : nat).

#[export] Instance slot_eq_dec : EqDecision slot.
Proof. solve_decision. Defined.

(** The queue with the [next] field of every event, the flags, and what has
    been done so far: [notify_all] calls, events processed, events deleted. *)
Record state := mk_state {
  event_queue_head : option nat;
  event_queue_tail : slot;
  next : gmap nat (option nat);
  _should_notify : bool;
  _is_init : bool;
  notified : nat;
  processed : list nat;
  deleted : list nat
}.

(** [*slot = value] *)
Definition store (sl : slot) (value : option nat) (st : state) : state :=
  match sl with
  | head_slot =>
    mk_state value (event_queue_tail st) (next st) (_should_notify st) (_is_init st)
      (notified st) (processed st) (deleted st)
  | next_slot e =>
    mk_state (event_queue_head st) (event_queue_tail st) (<[e := value]> (next st))
      (_should_notify st) (_is_init st) (notified st) (processed st) (deleted st)
  end.
Definition set_tail (sl : slot) (st : state) : state :=
  mk_state (event_queue_head st) sl (next st) (_should_notify st) (_is_init st)
    (notified st) (processed st) (deleted st).
Definition set_should_notify (b : bool) (st : state) : state :=
  mk_state (event_queue_head st) (event_queue_tail st) (next st) b (_is_init st)
    (notified st) (processed st) (deleted st).
Definition notify_all (st : state) : state :=
  mk_state (event_queue_head st) (event_queue_tail st) (next st) (_should_notify st)
    (_is_init st) (S (notified st)) (processed st) (deleted st).
Definition log_processed (e : nat) (st : state) : state :=
  mk_state (event_queue_head st) (event_queue_tail st) (next st) (_should_notify st)
    (_is_init st) (notified st) (processed st ++ [e]) (deleted st).
Definition delete_event (e : nat) (st : state) : state :=
  mk_state (event_queue_head st) (event_queue_tail st) (next st) (_should_notify st)
    (_is_init st) (notified st) (processed st) (deleted st ++ [e]).

(** [ConnectedRuntime::schedule], the body under [Service_lock]. *)
Definition schedule (event : nat) (has_callback : bool) (st : state) : state :=
  let st := set_should_notify true st in
  let st := store (next_slot event) None st in
  let st := store (event_queue_tail st) (Some event) st in
  let st := set_tail (next_slot event) st in
  if _is_init st && has_callback then notify_all st else st.

(** How one pass through the locked block of [flush_events] ends: at the
    [break], or with an event in [e] and the value of [more]. *)
Inductive locked_exit :=
| Break
| Taken (e : nat) (more : bool).

(** The block of [flush_events] under [Service_lock]; [None] where it would
    read through a NULL head. *)
Definition flush_events_locked (st : state) : option (locked_exit * state) :=
  let st := set_should_notify false st in
  let e := event_queue_head st in
  if decide (event_queue_tail st = head_slot) then Some (Break, st)
  else
    e ← e;
    if decide (event_queue_tail st = next_slot e) then
      Some (Taken e false, set_tail head_slot st)
    else
      Some (Taken e true, store head_slot (default None (next st !! e)) st).

Section flush_events.
(** [e->process(THREAD)] runs managed code, during which further events may be
    scheduled: [scheduled_by e] lists them, each with its [has_callback]. *)
Variable scheduled_by : nat -> list (nat * bool).

Definition process (e : nat) (st : state) : state :=
  fold_left (fun st ev => schedule ev.1 ev.2 st) (scheduled_by e) (log_processed e st).

Fixpoint flush_events (fuel : nat) (do_process : bool) (st : state) : option state :=
  match fuel with
  | O => None
  | S fuel =>
    '(exit, st) ← flush_events_locked st;
    match exit with
    | Break => Some st
    | Taken e more =>
      let st := if do_process then process e st else st in
      let st := delete_event e st in
      if more then flush_events fuel do_process st else Some st
    end
  end.

End flush_events.

(** The events from [e] to [last] along [next]. *)
Fixpoint linked (nxt : gmap nat (option nat)) (e : nat) (l : list nat) (last : nat) : Prop :=
  match l with
  | [] => e = last
  | e' :: l => nxt !! e = Some (Some e') /\ linked nxt e' l last
  end.

(** [queue st l]: the queue holds the events [l], oldest first. It is empty
    exactly when the tail is the address of the head. *)
Definition queue (st : state) (l : list nat) : Prop :=
  match l with
  | [] => event_queue_tail st = head_slot
  | e :: l =>
    exists last, event_queue_head st = Some e /\ linked (next st) e l last /\
                 event_queue_tail st = next_slot last
  end.

Definition empty_queue : state := mk_state None head_slot ∅ false true 0 [] [].

(** The queue after [schedule 1; schedule 2]. *)
Definition two_events : state := schedule 2 true (schedule 1 true empty_queue).

(** Processing event 1 schedules event 3. *)
Definition one_schedules_three (e : nat) : list (nat * bool) :=
  if decide (e = 1) then [(3, true)] else [].

Lemma queue_log_processed e st l : queue st l -> queue (log_processed e st) l.
Proof. destruct l; exact id. Qed.

Lemma queue_delete_event e st l : queue st l -> queue (delete_event e st) l.
Proof. destruct l; exact id. Qed.

Lemma linked_last_in nxt : forall l e last, linked nxt e l last -> last ∈ e :: l.
Proof.
  induction l as [|e' l IH]; intros e last H; simpl in H.
  - subst. now left.
  - right. apply (IH e' last), H.
Qed.

(** One pass through the locked block takes the oldest event off the queue. *)
Lemma flush_events_locked_takes_head st e l :
  queue st (e :: l) -> NoDup (e :: l) ->
  exists st1,
    flush_events_locked st = Some (Taken e (bool_decide (l <> [])), st1) /\
    queue st1 l /\
    processed st1 = processed st /\ deleted st1 = deleted st /\
    _should_notify st1 = false.
Proof.
  intros (last & Hh & Hl & Ht) Hnd. unfold flush_events_locked. simpl.
  rewrite Ht, Hh. simpl.
  destruct (decide (next_slot last = head_slot)) as [|_]; [discriminate|].
  destruct l as [|e' l]; simpl in Hl.
  - subst last. destruct (decide (next_slot e = next_slot e)) as [_|]; [|contradiction].
    eexists. split; [reflexivity|]. simpl. auto.
  - destruct Hl as [Hn Hl].
    destruct (decide (next_slot last = next_slot e)) as [E|_].
    + injection E as ->. apply NoDup_cons in Hnd as [Hnd _].
      destruct Hnd. eapply linked_last_in, Hl.
    + rewrite Hn. eexists. split; [reflexivity|]. simpl.
      split; [|auto]. exists last. auto.
Qed.

Section flush_events_facts.
Variable scheduled_by : nat -> list (nat * bool).

Lemma flush_events_drains do_process : forall l st fuel,
  queue st l -> NoDup l -> (forall e, e ∈ l -> scheduled_by e = []) ->
  length l < fuel ->
  exists st',
    flush_events scheduled_by fuel do_process st = Some st' /\
    queue st' [] /\
    processed st' = processed st ++ (if do_process then l else []) /\
    deleted st' = deleted st ++ l /\
    _should_notify st' = false.
Proof.
  induction l as [|e l IH]; intros st fuel Hq Hnd Hs Hf;
    (destruct fuel as [|fuel]; [simpl in Hf; lia|]).
  - simpl in Hq. cbn [flush_events]. unfold flush_events_locked. simpl.
    rewrite Hq. simpl. eexists. split; [reflexivity|]. simpl.
    destruct do_process; rewrite ?app_nil_r; auto.
  - destruct (flush_events_locked_takes_head st e l Hq Hnd)
      as (st1 & E & Hq1 & Hp1 & Hd1 & Hn1).
    cbn [flush_events]. rewrite E. cbn [mbind option_bind].
    assert (Hpe : process scheduled_by e st1 = log_processed e st1).
    { unfold process. rewrite (Hs e) by now left. reflexivity. }
    rewrite Hpe.
    set (st2 := delete_event e (if do_process then log_processed e st1 else st1)).
    assert (Hq2 : queue st2 l).
    { unfold st2. apply queue_delete_event.
      destruct do_process; [now apply queue_log_processed|assumption]. }
    assert (Hp2 : processed st2 = processed st ++ (if do_process then [e] else [])).
    { unfold st2. destruct do_process; simpl; rewrite Hp1; [reflexivity|].
      now rewrite app_nil_r. }
    assert (Hd2 : deleted st2 = deleted st ++ [e]).
    { unfold st2. destruct do_process; simpl; now rewrite Hd1. }
    assert (Hn2 : _should_notify st2 = false).
    { unfold st2. destruct do_process; simpl; assumption. }
    destruct l as [|e' l].
    + rewrite bool_decide_eq_false_2 by auto.
      exists st2. split; [reflexivity|]. split; [exact Hq2|].
      rewrite Hp2, Hd2. auto.
    + rewrite bool_decide_eq_true_2 by discriminate.
      apply NoDup_cons in Hnd as [_ Hnd].
      destruct (IH st2 fuel Hq2 Hnd) as (st' & E' & Hq' & Hp' & Hd' & Hn').
      { intros x Hx. apply Hs. now right. }
      { simpl in Hf |- *. lia. }
      exists st'. split; [exact E'|]. split; [exact Hq'|].
      rewrite Hp', Hd', Hp2, Hd2, <- !(assoc_L (++)).
      destruct do_process; auto.
Qed.

(** C9 (as amended): each pass through the locked block of [flush_events]
    takes only the oldest event off the queue and leaves the others queued;
    it is the loop around it that empties the queue. When processing
    schedules nothing, a call on a queue of distinct events handles exactly
    these events, oldest first: each is processed (when [do_process]) and
    then deleted, whichever the value of [do_process], and the queue is empty
    on return. *)
Theorem flush_events_takes_one_event_per_lock do_process l st fuel :
  queue st l -> NoDup l -> (forall e, e ∈ l -> scheduled_by e = []) ->
  length l < fuel ->
  match l with
  | [] => flush_events_locked st = Some (Break, set_should_notify false st)
  | e :: rest =>
    exists st1, flush_events_locked st = Some (Taken e (bool_decide (rest <> [])), st1) /\
                queue st1 rest
  end /\
  exists st',
    flush_events scheduled_by fuel do_process st = Some st' /\
    queue st' [] /\
    processed st' = processed st ++ (if do_process then l else []) /\
    deleted st' = deleted st ++ l.
Proof.
  intros Hq Hnd Hs Hf. split.
  - destruct l as [|e l].
    + simpl in Hq. unfold flush_events_locked. simpl. now rewrite Hq.
    + destruct (flush_events_locked_takes_head st e l Hq Hnd) as (st1 & E & Hq1 & _).
      eauto.
  - destruct (flush_events_drains do_process l st fuel Hq Hnd Hs Hf)
      as (st' & E & Hq' & Hp & Hd & _).
    eauto.
Qed.

End flush_events_facts.

Lemma two_events_queue : queue two_events [1; 2].
Proof. exists 2. split; [vm_compute; reflexivity|]. split; [|vm_compute; reflexivity].
  split; [vm_compute; reflexivity|reflexivity]. Qed.

(** C9 (counterexample): with events 1 and 2 queued, the block under the lock
    takes event 1 and leaves event 2 on the queue, which is not empty when
    the lock is released; and when processing event 1 schedules event 3, the
    same call goes on to process event 3, which was not on the queue when the
    call began. *)
Lemma flush_events_detaches_one_event :
  queue two_events [1; 2] /\
  (exists st1,
     flush_events_locked two_events = Some (Taken 1 true, st1) /\
     event_queue_head st1 = Some 2 /\
     event_queue_tail st1 = next_slot 2 /\
     queue st1 [2]) /\
  (exists st',
     flush_events one_schedules_three 4 true two_events = Some st' /\
     processed st' = [1; 2; 3] /\ deleted st' = [1; 2; 3]).
Proof.
  split; [exact two_events_queue|]. split.
  - eexists. split; [vm_compute; reflexivity|].
    split; [reflexivity|]. split; [reflexivity|]. exists 2.
    split; [reflexivity|]. split; reflexivity.
  - eexists. split; [vm_compute; reflexivity|]. split; reflexivity.
Qed.

Lemma flush_events_takes_one_event_per_lock_witness :
  exists st',
    flush_events (fun _ => []) 3 true two_events = Some st' /\
    queue st' [] /\
    processed st' = [1; 2] /\ deleted st' = [1; 2].
Proof.
  destruct (flush_events_takes_one_event_per_lock (fun _ => []) true [1; 2] two_events 3)
    as (_ & st' & E & Hq & Hp & Hd).
  - exact two_events_queue.
  - apply NoDup_cons. split; [|apply NoDup_singleton].
    intros H. apply list_elem_of_singleton in H. discriminate H.
  - reflexivity.
  - simpl. lia.
  - exists st'. repeat split; assumption.
Defined.

(** ** [schedule] and the order of delivery *)

Lemma linked_store_other nxt x v : forall l e last,
  linked nxt e l last -> x ∉ removelast (e :: l) ->
  linked (<[x := v]> nxt) e l last.
Proof.
  induction l as [|e' l IH]; intros e last H Hx; simpl in H |- *; [assumption|].
  destruct H as [Hn Hl].
  change (removelast (e :: e' :: l)) with (e :: removelast (e' :: l)) in Hx.
  apply not_elem_of_cons in Hx as [Hne Hx].
  split; [now rewrite lookup_insert_ne|]. now apply IH.
Qed.

Lemma linked_snoc nxt : forall l e last x,
  linked nxt e l last -> nxt !! last = Some (Some x) -> linked nxt e (l ++ [x]) x.
Proof.
  induction l as [|e' l IH]; intros e last x H Hn; simpl in H |- *.
  - subst. auto.
  - destruct H as [Hn' H]. split; [assumption|]. eapply IH; eassumption.
Qed.

Lemma linked_last_fresh nxt : forall l e last,
  linked nxt e l last -> NoDup (e :: l) -> last ∉ removelast (e :: l).
Proof.
  induction l as [|e' l IH]; intros e last H Hnd; simpl in H.
  - simpl. apply not_elem_of_nil.
  - destruct H as [_ H].
    change (removelast (e :: e' :: l)) with (e :: removelast (e' :: l)).
    apply NoDup_cons in Hnd as [He Hnd]. apply not_elem_of_cons. split.
    + intros ->. apply He. eapply linked_last_in, H.
    + now apply IH.
Qed.

(** [schedule] appends the event to the queue. *)
Lemma schedule_queue event has_callback st l :
  queue st l -> NoDup l -> event ∉ l ->
  queue (schedule event has_callback st) (l ++ [event]).
Proof.
  intros Hq Hnd Hfresh. unfold schedule.
  assert (Hn : forall st0, queue st0 (l ++ [event]) ->
            queue (if _is_init st0 && has_callback then notify_all st0 else st0)
                  (l ++ [event])).
  { intros st0 H. destruct (_is_init st0 && has_callback); [|assumption].
    destruct (l ++ [event]); exact H. }
  apply Hn. clear Hn. destruct l as [|e l].
  - simpl in Hq. cbn. rewrite Hq. cbn. exists event. auto.
  - destruct Hq as (last & Hh & Hl & Ht). cbn. rewrite Ht. cbn.
    exists event. split; [assumption|]. split; [|reflexivity].
    apply (linked_snoc _ _ _ last); [|now rewrite lookup_insert_eq].
    apply linked_store_other.
    + apply linked_store_other; [assumption|].
      intros H. apply Hfresh. clear - H.
      revert e H. induction l as [|e' l IH]; intros e H; [now apply elem_of_nil in H|].
      change (removelast (e :: e' :: l)) with (e :: removelast (e' :: l)) in H.
      apply elem_of_cons in H as [->|H]; [now left|right; now apply IH].
    + eapply linked_last_fresh; eassumption.
Qed.

Lemma schedule_logs event has_callback st :
  processed (schedule event has_callback st) = processed st /\
  deleted (schedule event has_callback st) = deleted st /\
  _is_init (schedule event has_callback st) = _is_init st /\
  _should_notify (schedule event has_callback st) = true /\
  notified (schedule event has_callback st)
    = notified st + (if _is_init st && has_callback then 1 else 0).
Proof.
  unfold schedule. destruct (event_queue_tail st) eqn:Et; cbn; rewrite Et; cbn;
    destruct (_is_init st), has_callback; cbn; repeat split; lia.
Qed.

(** A run of [schedule] calls, each with its [has_callback]. *)
Definition schedule_all (events : list (nat * bool)) (st : state) : state :=
  fold_left (fun st ev => schedule ev.1 ev.2 st) events st.

Lemma schedule_all_queue : forall events st l,
  queue st l -> NoDup (l ++ events.*1) ->
  queue (schedule_all events st) (l ++ events.*1) /\
  processed (schedule_all events st) = processed st /\
  deleted (schedule_all events st) = deleted st /\
  _should_notify (schedule_all events st)
    = (if events is [] then _should_notify st else true).
Proof.
  induction events as [|[e cb] events IH]; intros st l Hq Hnd.
  - simpl. rewrite app_nil_r. auto.
  - cbn [schedule_all fold_left fst snd fmap list_fmap] in *.
    assert (Hnd' : NoDup ((l ++ [e]) ++ events.*1)) by now rewrite <- (assoc_L (++)).
    assert (Hq' : queue (schedule e cb st) (l ++ [e])).
    { apply NoDup_app in Hnd as (Hl & Hd & _). apply schedule_queue; [assumption..|].
      intros H. apply (Hd e H). now left. }
    destruct (IH _ _ Hq' Hnd') as (H1 & H2 & H3 & H4).
    destruct (schedule_logs e cb st) as (L1 & L2 & _ & L4 & _).
    rewrite <- (assoc_L (++)) in H1.
    change (fold_left _ events (schedule e cb st))
      with (schedule_all events (schedule e cb st)).
    split; [exact H1|]. split; [congruence|]. split; [congruence|].
    rewrite H4, L4. now destruct events.
Qed.

(** X4: [schedule] is the enqueue of a FIFO queue. On a queue of distinct
    events, scheduling an event that is not queued puts it behind the events
    already there, sets [_should_notify], and wakes the service thread (one
    [notify_all]) exactly when the agent is initialised and the event has a
    callback; nothing is processed or deleted. *)
Theorem schedule_appends_event event has_callback st l :
  queue st l -> NoDup l -> event ∉ l ->
  queue (schedule event has_callback st) (l ++ [event]) /\
  _should_notify (schedule event has_callback st) = true /\
  notified (schedule event has_callback st)
    = notified st + (if _is_init st && has_callback then 1 else 0) /\
  processed (schedule event has_callback st) = processed st /\
  deleted (schedule event has_callback st) = deleted st.
Proof.
  intros Hq Hnd Hfresh.
  destruct (schedule_logs event has_callback st) as (L1 & L2 & _ & L4 & L5).
  split; [now apply schedule_queue|auto].
Qed.

Lemma schedule_appends_event_witness :
  queue (schedule 3 false two_events) ([1; 2] ++ [3]) /\
  _should_notify (schedule 3 false two_events) = true /\
  notified (schedule 3 false two_events)
    = notified two_events + (if _is_init two_events && false then 1 else 0) /\
  processed (schedule 3 false two_events) = processed two_events /\
  deleted (schedule 3 false two_events) = deleted two_events.
Proof.
  apply (schedule_appends_event 3 false two_events [1; 2]).
  - exact two_events_queue.
  - apply NoDup_ListNoDup. repeat constructor; simpl; lia.
  - CLL.not_in_list.
Defined.

Section delivery.
Variable scheduled_by : nat -> list (nat * bool).

(** X6: what is scheduled while the last queued event is being processed is
    not handled by the running [flush_events]. With distinct events queued, of
    which only the last one schedules further (new, distinct) events when it
    is processed, the call processes and deletes the events that were queued,
    in order, and returns with the newly scheduled events on the queue, in
    the order scheduled, and [_should_notify] set if there are any. *)
Theorem events_scheduled_by_last_stay_queued l e st fuel :
  queue st (l ++ [e]) -> NoDup ((l ++ [e]) ++ (scheduled_by e).*1) ->
  (forall x, x ∈ l -> scheduled_by x = []) ->
  length l + 1 < fuel ->
  exists st',
    flush_events scheduled_by fuel true st = Some st' /\
    queue st' (scheduled_by e).*1 /\
    processed st' = processed st ++ l ++ [e] /\
    deleted st' = deleted st ++ l ++ [e] /\
    _should_notify st' = (if scheduled_by e is [] then false else true).
Proof.
  revert st fuel.
  induction l as [|x l IH]; intros st fuel Hq Hnd Hs Hf;
    (destruct fuel as [|fuel]; [simpl in Hf; lia|]).
  - cbn [app] in *. apply NoDup_cons in Hnd as [He Hnd].
    destruct (flush_events_locked_takes_head st e [] Hq) as (st1 & E & Hq1 & Hp1 & Hd1 & Hn1).
    { apply NoDup_singleton. }
    cbn [flush_events]. rewrite E. cbn [mbind option_bind].
    rewrite bool_decide_eq_false_2 by auto.
    eexists. split; [reflexivity|]. unfold process.
    fold (schedule_all (scheduled_by e) (log_processed e st1)).
    destruct (schedule_all_queue (scheduled_by e) (log_processed e st1) [])
      as (H1 & H2 & H3 & H4); [now apply queue_log_processed|exact Hnd|].
    split; [now apply queue_delete_event|]. cbn.
    rewrite H2, H3, H4. cbn. rewrite Hp1, Hd1, Hn1. auto.
  - pose proof Hnd as Hnd0. apply NoDup_app in Hnd0 as (Hnd1 & _ & _).
    cbn [app] in *.
    destruct (flush_events_locked_takes_head st x (l ++ [e]) Hq Hnd1)
      as (st1 & E & Hq1 & Hp1 & Hd1 & Hn1).
    cbn [flush_events]. rewrite E. cbn [mbind option_bind].
    rewrite bool_decide_eq_true_2 by (destruct l; discriminate).
    unfold process at 1. rewrite (Hs x) by now left. cbn [fold_left].
    destruct (IH (delete_event x (log_processed x st1)) fuel)
      as (st' & E' & Hq' & Hp' & Hd' & Hn').
    + now apply queue_delete_event, queue_log_processed.
    + now apply NoDup_cons in Hnd as [_ Hnd].
    + intros y Hy. apply Hs. now right.
    + simpl in Hf. lia.
    + exists st'. split; [exact E'|]. split; [exact Hq'|].
      rewrite Hp', Hd'. cbn. rewrite Hp1, Hd1, <- !(assoc_L (++)). auto.
Qed.

End delivery.

(** Processing event 2 schedules events 3 and 4. *)
Definition two_schedules_more (e : nat) : list (nat * bool) :=
  if decide (e = 2) then [(3, true); (4, false)] else [].

Lemma events_scheduled_by_last_stay_queued_witness :
  exists st',
    flush_events two_schedules_more 3 true two_events = Some st' /\
    queue st' (two_schedules_more 2).*1 /\
    processed st' = processed two_events ++ [1] ++ [2] /\
    deleted st' = deleted two_events ++ [1] ++ [2] /\
    _should_notify st' = (if two_schedules_more 2 is [] then false else true).
Proof.
  apply (events_scheduled_by_last_stay_queued two_schedules_more [1] 2 two_events 3).
  - exact two_events_queue.
  - apply NoDup_ListNoDup. vm_compute. repeat constructor; simpl; lia.
  - intros x Hx. apply list_elem_of_singleton in Hx. subst. reflexivity.
  - simpl. lia.
Defined.

(** X5: events are delivered in the order in which they were scheduled. After
    any run of [schedule] calls with distinct new events on a queue of
    distinct events, a [flush_events] whose processing schedules nothing
    processes first the events that were queued and then the new ones, each
    in the order of its scheduling, deletes them all and leaves the queue
    empty. *)
Theorem events_processed_in_scheduling_order events l st fuel :
  queue st l -> NoDup (l ++ events.*1) -> length (l ++ events.*1) < fuel ->
  exists st',
    flush_events (fun _ => []) fuel true (schedule_all events st) = Some st' /\
    queue st' [] /\
    processed st' = processed st ++ l ++ events.*1 /\
    deleted st' = deleted st ++ l ++ events.*1.
Proof.
  intros Hq Hnd Hf.
  destruct (schedule_all_queue events st l Hq Hnd) as (H1 & H2 & H3 & _).
  destruct (flush_events_drains (fun _ => []) true _ _ fuel H1 Hnd) as (st' & E & Hq' & Hp & Hd & _);
    [reflexivity|assumption|].
  exists st'. rewrite Hp, Hd, H2, H3. auto.
Qed.

Lemma events_processed_in_scheduling_order_witness :
  exists st',
    flush_events (fun _ => []) 5 true (schedule_all [(3, true); (4, false)] two_events)
      = Some st' /\
    queue st' [] /\
    processed st' = processed two_events ++ [1; 2] ++ [(3, true); (4, false)].*1 /\
    deleted st' = deleted two_events ++ [1; 2] ++ [(3, true); (4, false)].*1.
Proof.
  apply (events_processed_in_scheduling_order [(3, true); (4, false)] [1; 2] two_events 5).
  - exact two_events_queue.
  - apply NoDup_ListNoDup. vm_compute. repeat constructor; simpl; lia.
  - simpl. lia.
Defined.

End EventQueue.

(** * The command listener: [CRSCommandListenerThread] *)

Module Listener.
Local Open Scope Z_scope.

Definition CRS_CMD_BUF_SIZE : Z := 1024.
Definition CRS_CMD_LEN_SIZE : nat := 4.

Definition NUL : ascii := "000"%char.

(** The C string that starts a char array: the bytes before the first NUL. *)
Fixpoint c_str (l : list ascii) : list ascii :=
  match l with
  | [] => []
  | c :: l => if decide (c = NUL) then [] else c :: c_str l
  end.

Definition is_digit (c : ascii) : bool :=
  (48 <=? Z.of_nat (nat_of_ascii c)) && (Z.of_nat (nat_of_ascii c) <=? 57).
Definition digit_value (c : ascii) : Z := Z.of_nat (nat_of_ascii c) - 48.
Definition is_space (c : ascii) : bool :=
  let n := nat_of_ascii c in
  (n =? 32)%nat || ((9 <=? n)%nat && (n <=? 13)%nat).

Fixpoint skip_spaces (l : list ascii) : list ascii :=
  match l with
  | c :: l' => if is_space c then skip_spaces l' else l
  | [] => []
  end.

(** The run of digits that starts [l], added to [acc], and what follows it. *)
Fixpoint digits (acc : Z) (l : list ascii) : Z * list ascii :=
  match l with
  | c :: l' => if is_digit c then digits (10 * acc + digit_value c) l' else (acc, l)
  | [] => (acc, [])
  end.

(** The C library's [atoi]: blanks, a sign, digits; anything else ends the
    number. A value that does not fit an [int] is wrapped. *)
Definition atoi (s : list ascii) : Z :=
  match skip_spaces s with
  | "-"%char :: l => jint (- (digits 0 l).1)
  | "+"%char :: l => jint (digits 0 l).1
  | l => jint (digits 0 l).1
  end.

(** One [%d] of [sscanf]: as [atoi], but it fails when no digit is there. *)
Definition scan_int (s : list ascii) : option (Z * list ascii) :=
  let after_sign (neg : bool) (l : list ascii) :=
    match l with
    | c :: _ =>
      if is_digit c then
        let '(v, rest) := digits 0 l in Some (jint (if neg then - v else v), rest)
      else None
    | [] => None
    end in
  match skip_spaces s with
  | "-"%char :: l => after_sign true l
  | "+"%char :: l => after_sign false l
  | l => after_sign false l
  end.

(** [sscanf(s, "(%d,%d)", &a, &b) == 2] with the two values. *)
Definition scan_two_ints (s : list ascii) : option (Z * Z) :=
  match s with
  | "("%char :: s =>
    '(a, s) ← scan_int s;
    match s with
    | ","%char :: s => '(b, _) ← scan_int s; Some (a, b)
    | _ => None
    end
  | _ => None
  end.

(** [strncmp(literal, cmd, strlen(literal)) == 0] *)
Fixpoint starts_with (literal cmd : list ascii) : bool :=
  match literal, cmd with
  | [], _ => true
  | c :: literal, d :: cmd => bool_decide (c = d) && starts_with literal cmd
  | _ :: _, [] => false
  end.

(** What [process_cmd] made of a command. *)
Inductive Command :=
| Disable
| EnableEventNotifications (args : option (Z * Z))
| DrainQueues (args : option (Z * Z))
| RegisterAgent (cmd : list ascii)
| RegisterCallback (cmd : list ascii)
| NotHandled (cmd : list ascii).

(** The listener with its peer: [incoming] is what the peer has sent and the
    listener has not read yet (after it the peer closes), [outgoing] what the
    listener has sent, [dispatched] the commands [process_cmd] has handled. *)
Record state := mk_state {
  _server_socket : Z;
  _client_socket : Z;
  _connection_secret : Z;
  _should_terminate : bool;
  _buffer : list ascii;
  _is_init : bool;
  incoming : list ascii;
  outgoing : list ascii;
  dispatched : list Command
}.

Definition set_client_socket (st : state) (s : Z) : state :=
  mk_state (_server_socket st) s (_connection_secret st) (_should_terminate st)
    (_buffer st) (_is_init st) (incoming st) (outgoing st) (dispatched st).
Definition set_buffer (st : state) (b : list ascii) : state :=
  mk_state (_server_socket st) (_client_socket st) (_connection_secret st)
    (_should_terminate st) b (_is_init st) (incoming st) (outgoing st) (dispatched st).
Definition set_incoming (st : state) (l : list ascii) : state :=
  mk_state (_server_socket st) (_client_socket st) (_connection_secret st)
    (_should_terminate st) (_buffer st) (_is_init st) l (outgoing st) (dispatched st).
Definition set_outgoing (st : state) (l : list ascii) : state :=
  mk_state (_server_socket st) (_client_socket st) (_connection_secret st)
    (_should_terminate st) (_buffer st) (_is_init st) (incoming st) l (dispatched st).
Definition log_command (st : state) (c : Command) : state :=
  mk_state (_server_socket st) (_client_socket st) (_connection_secret st)
    (_should_terminate st) (_buffer st) (_is_init st) (incoming st) (outgoing st)
    (dispatched st ++ [c]).

(** [CRSCommandListenerThread::stop] *)
Definition stop (st : state) : state :=
  mk_state (_server_socket st) (_client_socket st) (_connection_secret st) true
    (_buffer st) (_is_init st) (incoming st) (outgoing st) (dispatched st).

Definition close_active_connection (st : state) : state := set_client_socket st (-1).

(** [recv(_client_socket, &_buffer[buf_pos], n, 0)]: 0 when the peer has
    closed, else as many of the [n] bytes as have arrived; undefined ([None])
    when they would not fit the buffer. *)
Definition recv (buf_pos n : Z) (st : state) : option (Z * state) :=
  match incoming st with
  | [] => Some (0, st)
  | _ =>
    let k := Z.min n (Z.of_nat (length (incoming st))) in
    if decide (buf_pos + k <= Z.of_nat (length (_buffer st))) then
      let bytes := take (Z.to_nat k) (incoming st) in
      let b := take (Z.to_nat buf_pos) (_buffer st) ++ bytes
               ++ drop (Z.to_nat (buf_pos + k)) (_buffer st) in
      Some (k, set_incoming (set_buffer st b) (drop (Z.to_nat k) (incoming st)))
    else None
  end.

(** The loop of [read]; it returns [buf_pos]. *)
Fixpoint read_loop (fuel : nat) (to_read buf_pos : Z) (st : state) : option (Z * state) :=
  match fuel with
  | O => None
  | S fuel =>
    if decide (_client_socket st > 0 /\ to_read > 0) then
      '(n, st) ← recv buf_pos (Z.min to_read (CRS_CMD_BUF_SIZE - 1)) st;
      if decide (n <= 0) then Some (buf_pos, close_active_connection st)
      else
        let to_read := to_read - n in
        let buf_pos := buf_pos + n in
        let buf_pos := if decide (buf_pos >= CRS_CMD_BUF_SIZE) then 0 else buf_pos in
        read_loop fuel to_read buf_pos st
    else Some (buf_pos, st)
  end.

(** [read(msg_len)]; the message returned is [c_str (_buffer st)]. *)
Definition read (fuel : nat) (msg_len : Z) (st : state) : option state :=
  '(buf_pos, st) ← read_loop fuel msg_len 0 st;
  if decide (0 <= buf_pos < Z.of_nat (length (_buffer st))) then
    Some (set_buffer st (<[Z.to_nat buf_pos := NUL]> (_buffer st)))
  else None.

Definition read_message (fuel : nat) (st : state) : option state :=
  st ← read fuel (Z.of_nat CRS_CMD_LEN_SIZE) st;
  read fuel (atoi (c_str (_buffer st))) st.

(** The loop of [write]: [send] takes all the bytes it is given. *)
Fixpoint write_loop (fuel : nat) (msg : list ascii) (to_send buf_pos : Z) (st : state)
    : option state :=
  match fuel with
  | O => None
  | S fuel =>
    if decide (_client_socket st > 0 /\ to_send > 0) then
      let sent := to_send in
      let st := set_outgoing st
                  (outgoing st ++ take (Z.to_nat sent) (drop (Z.to_nat buf_pos) msg)) in
      write_loop fuel msg (to_send - sent) (buf_pos + sent) st
    else Some st
  end.

Definition write (fuel : nat) (msg : list ascii) (msg_len : Z) (st : state) : option state :=
  write_loop fuel msg (Z.min msg_len (CRS_CMD_BUF_SIZE - 1)) 0 st.

(** The loop of [write_message] that prints the length, last digit first. *)
Fixpoint length_digits (i : nat) (len : Z) (b : list ascii) : list ascii :=
  match i with
  | O => b
  | S i =>
    length_digits i (len / 10)
      (<[i := ascii_of_nat (48 + Z.to_nat (len mod 10))]> b)
  end.

Definition write_message (fuel : nat) (msg : option (list ascii)) (st : state) : option state :=
  let msg_len := match msg with Some m => Z.of_nat (length m) | None => 0 end in
  let b := length_digits CRS_CMD_LEN_SIZE msg_len (_buffer st) in
  let st := set_buffer st (<[CRS_CMD_LEN_SIZE := NUL]> b) in
  st ← write fuel (_buffer st) (Z.of_nat CRS_CMD_LEN_SIZE) st;
  write fuel (default [] msg) msg_len st.

Definition literal (s : string) : list ascii := list_ascii_of_string s.

(** [process_cmd]: the result is always NULL; of the effects, the one on the
    listener is [stop()], also reached through
    [ConnectedRuntime::flush_buffers] when it is asked to stop after the drain
    and the agent is initialised. *)
Definition process_cmd (cmd : list ascii) (st : state) : option (list ascii) * state :=
  if starts_with (literal "disableCRS()") cmd then
    (None, log_command (stop st) Disable)
  else if starts_with (literal "enableEventNotifications(") cmd then
    (None, log_command st
             (EnableEventNotifications
                (scan_two_ints (drop (length (literal "enableEventNotifications")) cmd))))
  else if starts_with (literal "drainQueues(") cmd then
    let args := scan_two_ints (drop (length (literal "drainQueues")) cmd) in
    let st :=
      match args with
      | Some (force, stopAfterDrain) =>
        if _is_init st && negb (stopAfterDrain =? 0) then stop st else st
      | None => st
      end in
    (None, log_command st (DrainQueues args))
  else if starts_with (literal "registerAgent(") cmd then
    (None, log_command st (RegisterAgent cmd))
  else if starts_with (literal "registerCallback(") cmd then
    (None, log_command st (RegisterCallback cmd))
  else (None, log_command st (NotHandled cmd)).

(** The request loop of [thread_entry]. *)
Fixpoint request_loop (fuel fuel' : nat) (st : state) : option state :=
  match fuel with
  | O => None
  | S fuel =>
    if decide (_client_socket st > 0 /\ _should_terminate st = false) then
      st ← read_message fuel' st;
      let '(result, st) := process_cmd (c_str (_buffer st)) st in
      st ← write_message fuel' result st;
      request_loop fuel fuel' st
    else Some st
  end.



(** A message as it travels: four decimal digits of length, then the bytes. *)
Definition frame (msg : list ascii) : list ascii :=
  take 4 (length_digits CRS_CMD_LEN_SIZE (Z.of_nat (length msg)) (replicate 4 NUL)) ++ msg.


(** ** Reading and writing one message *)

Lemma c_str_terminated : forall (data tl : list ascii),
  c_str (data ++ NUL :: tl) = c_str data.
Proof.
  induction data as [|c data IH]; intros tl; simpl.
  - destruct (decide (NUL = NUL)); [reflexivity|contradiction].
  - destruct (decide (c = NUL)); [reflexivity|]. now rewrite IH.
Qed.

Lemma insert_after : forall (data : list ascii) c tl x,
  <[length data := x]> (data ++ c :: tl) = data ++ x :: tl.
Proof. induction data as [|d data IH]; intros; simpl; [reflexivity|]. now rewrite IH. Qed.

(** The fields that reading and writing leave alone. *)
Definition same_listener (st st' : state) : Prop :=
  _server_socket st' = _server_socket st /\
  _connection_secret st' = _connection_secret st /\
  _should_terminate st' = _should_terminate st /\
  _is_init st' = _is_init st /\
  dispatched st' = dispatched st /\
  length (_buffer st') = length (_buffer st).

Lemma same_listener_refl st : same_listener st st.
Proof. repeat split. Qed.

Lemma same_listener_trans st1 st2 st3 :
  same_listener st1 st2 -> same_listener st2 st3 -> same_listener st1 st3.
Proof.
  intros (A1 & A2 & A3 & A4 & A5 & A6) (B1 & B2 & B3 & B4 & B5 & B6).
  repeat split; congruence.
Qed.

Lemma read_loop_done fuel to_read buf_pos st :
  to_read <= 0 -> read_loop (S fuel) to_read buf_pos st = Some (buf_pos, st).
Proof. intros. cbn [read_loop]. rewrite decide_False by lia. reflexivity. Qed.

Lemma read_loop_step fuel to_read buf_pos st n st1 :
  _client_socket st > 0 -> to_read > 0 ->
  recv buf_pos (Z.min to_read (CRS_CMD_BUF_SIZE - 1)) st = Some (n, st1) ->
  n > 0 -> buf_pos + n < CRS_CMD_BUF_SIZE ->
  read_loop (S fuel) to_read buf_pos st = read_loop fuel (to_read - n) (buf_pos + n) st1.
Proof.
  intros Hs Ht Hr Hn Hb. cbn [read_loop]. rewrite decide_True by lia.
  rewrite Hr. cbn [mbind option_bind]. rewrite decide_False by lia.
  rewrite decide_False by lia. reflexivity.
Qed.

Lemma recv_arrived st data rest :
  incoming st = data ++ rest -> data <> [] ->
  Z.of_nat (length data) <= Z.of_nat (length (_buffer st)) ->
  Z.of_nat (length data) <= CRS_CMD_BUF_SIZE - 1 ->
  recv 0 (Z.min (Z.of_nat (length data)) (CRS_CMD_BUF_SIZE - 1)) st
    = Some (Z.of_nat (length data),
            set_incoming (set_buffer st (data ++ drop (length data) (_buffer st))) rest).
Proof.
  intros Hin Hne Hlen Hmax. unfold recv. rewrite Hin.
  destruct (data ++ rest) as [|c l] eqn:E.
  { destruct data; [contradiction|discriminate]. }
  rewrite <- E. rewrite (Z.min_l _ (CRS_CMD_BUF_SIZE - 1)) by lia.
  rewrite Z.min_l by (rewrite length_app; lia).
  rewrite decide_True by lia.
  rewrite Nat2Z.id, take_app_length, drop_app_length.
  change (Z.to_nat 0) with 0%nat. rewrite take_0. cbn [app].
  replace (Z.to_nat (0 + Z.of_nat (length data))) with (length data) by lia.
  reflexivity.
Qed.

(** [read] of a message that has arrived in full and fits the buffer. *)
Lemma read_arrived fuel st data rest :
  _client_socket st > 0 -> incoming st = data ++ rest ->
  Z.of_nat (length data) < Z.of_nat (length (_buffer st)) ->
  Z.of_nat (length (_buffer st)) <= CRS_CMD_BUF_SIZE ->
  (2 <= fuel)%nat ->
  exists st',
    read fuel (Z.of_nat (length data)) st = Some st' /\
    c_str (_buffer st') = c_str data /\
    incoming st' = rest /\ outgoing st' = outgoing st /\
    _client_socket st' = _client_socket st /\ same_listener st st'.
Proof.
  intros Hs Hin Hlen Hbuf Hf.
  destruct fuel as [|[|fuel]]; try lia.
  assert (Hdrop : exists c tl, drop (length data) (_buffer st) = c :: tl).
  { destruct (drop (length data) (_buffer st)) as [|c tl] eqn:E; [|eauto].
    apply (f_equal length) in E. rewrite length_drop in E. simpl in E. lia. }
  destruct Hdrop as (c & tl & Hdrop).
  assert (Hl : length (data ++ c :: tl) = length (_buffer st)).
  { rewrite <- Hdrop, length_app, length_drop. lia. }
  unfold read. destruct (decide (data = [])) as [->|Hne].
  - rewrite read_loop_done by (simpl; lia). cbn [mbind option_bind].
    rewrite decide_True by (simpl in *; lia).
    eexists. split; [reflexivity|]. simpl in Hdrop. rewrite drop_0 in Hdrop.
    cbn [_buffer set_buffer incoming outgoing _client_socket]. rewrite Hdrop.
    change (Z.to_nat 0) with 0%nat. cbn [insert list_insert c_str].
    rewrite decide_True by reflexivity.
    repeat split; try assumption.
  - assert (Hpos : 0 < Z.of_nat (length data)).
    { destruct data; [contradiction|simpl; lia]. }
    erewrite read_loop_step;
      [|assumption|lia|apply recv_arrived; try eassumption; lia|lia|lia].
    rewrite Z.sub_diag, read_loop_done by lia. cbn [mbind option_bind].
    cbn [_buffer set_incoming set_buffer]. rewrite Hdrop.
    rewrite decide_True by (rewrite Hl; lia).
    eexists. split; [reflexivity|]. cbn.
    replace (Z.to_nat (0 + Z.of_nat (length data))) with (length data) by lia.
    rewrite insert_after, c_str_terminated.
    repeat split. cbn. rewrite <- Hl, !length_app. reflexivity.
Qed.

(** The four digits that [write_message] prints for a length. *)
Definition length_prefix (len : Z) : list ascii :=
  take 4 (length_digits CRS_CMD_LEN_SIZE len (replicate 4 NUL)).

Arguments length_prefix : simpl never.

Lemma length_digits_prefix len (b : list ascii) :
  (4 <= length b)%nat ->
  length_digits CRS_CMD_LEN_SIZE len b = length_prefix len ++ drop 4 b.
Proof.
  intros H. destruct b as [|c0 [|c1 [|c2 [|c3 b]]]]; simpl in H; try lia.
  reflexivity.
Qed.

Lemma length_prefix_table :
  forallb (fun n : nat =>
             (atoi (c_str (length_prefix (Z.of_nat n))) =? Z.of_nat n)
             && (length (c_str (length_prefix (Z.of_nat n))) =? 4)%nat)
          (seq 0 1024) = true.
Proof. vm_compute. reflexivity. Qed.

Lemma length_prefix_read (n : nat) :
  (n < 1024)%nat ->
  atoi (c_str (length_prefix (Z.of_nat n))) = Z.of_nat n /\
  length (length_prefix (Z.of_nat n)) = 4%nat.
Proof.
  intros H. pose proof length_prefix_table as T.
  rewrite forallb_forall in T. specialize (T n).
  rewrite in_seq in T. specialize (T ltac:(lia)).
  apply andb_prop in T as [T1 T2].
  apply Z.eqb_eq in T1. split; [assumption|].
  unfold length_prefix. rewrite length_take.
  assert (length (length_digits CRS_CMD_LEN_SIZE (Z.of_nat n) (replicate 4 NUL)) = 4%nat).
  { unfold length_digits, CRS_CMD_LEN_SIZE. rewrite !length_insert. reflexivity. }
  lia.
Qed.

(** [read_message] of a frame that has arrived. *)
Lemma read_message_frame fuel st msg rest :
  _client_socket st > 0 -> incoming st = frame msg ++ rest ->
  (length msg < 1024)%nat -> length (_buffer st) = 1024%nat -> (2 <= fuel)%nat ->
  exists st',
    read_message fuel st = Some st' /\
    c_str (_buffer st') = c_str msg /\
    incoming st' = rest /\ outgoing st' = outgoing st /\
    _client_socket st' = _client_socket st /\ same_listener st st'.
Proof.
  intros Hs Hin Hlen Hbuf Hf. unfold read_message.
  destruct (length_prefix_read (length msg) Hlen) as [Hatoi Hfour].
  unfold frame in Hin. fold (length_prefix (Z.of_nat (length msg))) in Hin.
  rewrite <- (assoc_L (++)) in Hin.
  destruct (read_arrived fuel st _ _ Hs Hin) as (st1 & E1 & Hc1 & Hi1 & Ho1 & Hs1 & Hsame1);
    [rewrite Hfour, Hbuf; lia|rewrite Hbuf; unfold CRS_CMD_BUF_SIZE; lia|assumption|].
  rewrite Hfour in E1. change (Z.of_nat CRS_CMD_LEN_SIZE) with (Z.of_nat 4).
  rewrite E1. cbn [mbind option_bind]. rewrite Hc1, Hatoi.
  pose proof Hsame1 as (_ & _ & _ & _ & _ & Hb1).
  destruct (read_arrived fuel st1 msg rest) as (st2 & E2 & Hc2 & Hi2 & Ho2 & Hs2 & Hsame2);
    [lia|assumption|rewrite Hb1, Hbuf; lia
    |rewrite Hb1, Hbuf; unfold CRS_CMD_BUF_SIZE; lia|assumption|].
  exists st2. split; [assumption|]. split; [assumption|]. split; [assumption|].
  split; [congruence|]. split; [congruence|].
  eapply same_listener_trans; eassumption.
Qed.

Lemma write_sends fuel st msg len :
  _client_socket st > 0 -> 0 <= len <= CRS_CMD_BUF_SIZE - 1 -> (2 <= fuel)%nat ->
  write fuel msg len st = Some (set_outgoing st (outgoing st ++ take (Z.to_nat len) msg)).
Proof.
  intros Hs Hlen Hf. destruct fuel as [|[|fuel]]; try lia.
  unfold write. rewrite Z.min_l by lia. cbn [write_loop].
  destruct (decide (len = 0)) as [->|Hne].
  - rewrite decide_False by lia. destruct st. cbn. now rewrite app_nil_r.
  - rewrite decide_True by lia. cbn [_client_socket set_outgoing].
    rewrite decide_False by lia. change (Z.to_nat 0) with 0%nat. now rewrite drop_0.
Qed.

(** [write_message] on an open connection sends the frame of the message. *)
Lemma write_message_frame fuel st msg :
  _client_socket st > 0 -> (5 <= length (_buffer st))%nat ->
  Z.of_nat (length (default [] msg)) <= CRS_CMD_BUF_SIZE - 1 -> (2 <= fuel)%nat ->
  exists st',
    write_message fuel msg st = Some st' /\
    outgoing st' = outgoing st ++ frame (default [] msg) /\
    incoming st' = incoming st /\
    _client_socket st' = _client_socket st /\ same_listener st st'.
Proof.
  intros Hs Hbuf Hlen Hf. unfold write_message.
  set (len := match msg with Some m => Z.of_nat (length m) | None => 0 end).
  assert (El : len = Z.of_nat (length (default [] msg))) by (destruct msg; reflexivity).
  rewrite length_digits_prefix by lia.
  assert (H4 : length (length_prefix len) = 4%nat).
  { unfold length_prefix, length_digits, CRS_CMD_LEN_SIZE.
    rewrite length_take, !length_insert. reflexivity. }
  assert (Hd : exists c tl, drop 4 (_buffer st) = c :: tl).
  { destruct (drop 4 (_buffer st)) as [|c tl] eqn:E; [|eauto].
    apply (f_equal length) in E. rewrite length_drop in E. simpl in E. lia. }
  destruct Hd as (c & tl & Hd). rewrite Hd.
  pose proof (insert_after (length_prefix len) c tl NUL) as Hins.
  rewrite H4 in Hins. change CRS_CMD_LEN_SIZE with 4%nat. rewrite Hins.
  rewrite write_sends; [|assumption|unfold CRS_CMD_BUF_SIZE; lia|assumption].
  cbn [mbind option_bind _buffer set_buffer outgoing set_outgoing].
  rewrite write_sends; [|assumption|lia|assumption].
  eexists. split; [reflexivity|]. cbn.
  replace (Z.to_nat (Z.of_nat 4)) with (length (length_prefix len))
    by (rewrite H4; reflexivity).
  rewrite take_app_length. rewrite El, Nat2Z.id, firstn_all.
  unfold frame. fold (length_prefix (Z.of_nat (length (default [] msg)))).
  rewrite <- (assoc_L (++)). repeat split.
  cbn [_buffer set_outgoing set_buffer]. rewrite length_app, <- El, H4. simpl.
  apply (f_equal length) in Hd. rewrite length_drop in Hd. simpl in Hd. lia.
Qed.

(** ** Commands and the request loop *)

Arguments frame : simpl never.

(** The command that [process_cmd] takes a message for. *)
Definition decode (cmd : list ascii) : Command :=
  if starts_with (literal "disableCRS()") cmd then Disable
  else if starts_with (literal "enableEventNotifications(") cmd then
    EnableEventNotifications
      (scan_two_ints (drop (length (literal "enableEventNotifications")) cmd))
  else if starts_with (literal "drainQueues(") cmd then
    DrainQueues (scan_two_ints (drop (length (literal "drainQueues")) cmd))
  else if starts_with (literal "registerAgent(") cmd then RegisterAgent cmd
  else if starts_with (literal "registerCallback(") cmd then RegisterCallback cmd
  else NotHandled cmd.

(** Whether [process_cmd] calls [stop()] for it. *)
Definition stops (init : bool) (cmd : list ascii) : bool :=
  match decode cmd with
  | Disable => true
  | DrainQueues (Some (_, stopAfterDrain)) => init && negb (stopAfterDrain =? 0)
  | _ => false
  end.

Lemma process_cmd_spec cmd st :
  exists st',
    process_cmd cmd st = (None, st') /\
    dispatched st' = dispatched st ++ [decode cmd] /\
    _should_terminate st' = _should_terminate st || stops (_is_init st) cmd /\
    outgoing st' = outgoing st /\ incoming st' = incoming st /\
    _client_socket st' = _client_socket st /\ _buffer st' = _buffer st /\
    _is_init st' = _is_init st /\ _server_socket st' = _server_socket st /\
    _connection_secret st' = _connection_secret st.
Proof.
  unfold process_cmd, stops, decode.
  destruct (starts_with (literal "disableCRS()") cmd).
  { eexists. split; [reflexivity|]. cbn. rewrite orb_true_r. repeat split. }
  destruct (starts_with (literal "enableEventNotifications(") cmd).
  { eexists. split; [reflexivity|]. cbn. rewrite orb_false_r. repeat split. }
  destruct (starts_with (literal "drainQueues(") cmd).
  { destruct (scan_two_ints _) as [[force stopAfterDrain]|].
    - destruct (_is_init st) eqn:Ei, (stopAfterDrain =? 0); cbn;
        eexists; (split; [reflexivity|]); cbn; rewrite ?Ei, ?orb_true_r, ?orb_false_r;
        repeat split.
    - eexists. split; [reflexivity|]. cbn. rewrite orb_false_r. repeat split. }
  destruct (starts_with (literal "registerAgent(") cmd).
  { eexists. split; [reflexivity|]. cbn. rewrite orb_false_r. repeat split. }
  destruct (starts_with (literal "registerCallback(") cmd).
  { eexists. split; [reflexivity|]. cbn. rewrite orb_false_r. repeat split. }
  eexists. split; [reflexivity|]. cbn. rewrite orb_false_r. repeat split.
Qed.

(** A connection is open and the listener goes on. *)
Definition serving (st : state) : Prop :=
  _client_socket st > 0 /\ _should_terminate st = false /\
  length (_buffer st) = 1024%nat.









(** ** Round trip and end of input *)

Lemma c_str_no_NUL : forall msg : list ascii, NUL ∉ msg -> c_str msg = msg.
Proof.
  induction msg as [|c msg IH]; intros H; [reflexivity|]. simpl.
  apply not_elem_of_cons in H as [Hc H].
  rewrite decide_False by congruence. now rewrite IH.
Qed.

(** X7: what [write_message] sends, [read_message] reads back. When one
    endpoint writes a message of fewer than 1024 bytes, none of them NUL, on an
    open connection, and the bytes it sent are what the other endpoint finds
    incoming (followed by anything), the [read_message] of that endpoint
    returns the message, has consumed exactly the bytes sent and leaves its
    connection open. *)
Theorem write_message_read_message_round_trip fuel writer reader msg rest :
  _client_socket writer > 0 -> (5 <= length (_buffer writer))%nat ->
  outgoing writer = [] ->
  _client_socket reader > 0 -> length (_buffer reader) = 1024%nat ->
  (length msg < 1024)%nat -> NUL ∉ msg -> (2 <= fuel)%nat ->
  exists writer' reader',
    write_message fuel (Some msg) writer = Some writer' /\
    read_message fuel (set_incoming reader (outgoing writer' ++ rest)) = Some reader' /\
    c_str (_buffer reader') = msg /\
    incoming reader' = rest /\
    _client_socket reader' = _client_socket reader.
Proof.
  intros Hw Hwb Hout Hr Hrb Hlen Hnul Hf.
  destruct (write_message_frame fuel writer (Some msg) Hw Hwb)
    as (writer' & Ew & Ho & _); [simpl; unfold CRS_CMD_BUF_SIZE; lia|assumption|].
  rewrite Hout in Ho. simpl in Ho.
  destruct (read_message_frame fuel (set_incoming reader (outgoing writer' ++ rest)) msg rest)
    as (reader' & Er & Hc & Hi & _ & Hs & _);
    [exact Hr|cbn; now rewrite Ho|exact Hlen|exact Hrb|exact Hf|].
  exists writer', reader'. rewrite (c_str_no_NUL msg) in Hc by assumption. auto.
Qed.

(** A writer and a reader, each with an open connection and an empty
    buffer. *)
Definition connected (sent : list ascii) : state :=
  mk_state 3 5 4242 false (replicate 1024 NUL) true sent [] [].

Lemma write_message_read_message_round_trip_witness :
  exists writer' reader',
    write_message 2 (Some (literal "drainQueues(1,0)")) (connected []) = Some writer' /\
    read_message 2 (set_incoming (connected []) (outgoing writer' ++ literal "0000"))
      = Some reader' /\
    c_str (_buffer reader') = literal "drainQueues(1,0)" /\
    incoming reader' = literal "0000" /\
    _client_socket reader' = _client_socket (connected []).
Proof.
  apply (write_message_read_message_round_trip 2 (connected []) (connected [])
           (literal "drainQueues(1,0)") (literal "0000")).
  - vm_compute. reflexivity.
  - vm_compute. lia.
  - reflexivity.
  - vm_compute. reflexivity.
  - vm_compute. reflexivity.
  - vm_compute. lia.
  - refine (proj1 (bool_decide_eq_true _) _). vm_compute. reflexivity.
  - lia.
Defined.

Lemma recv_closed buf_pos n st : incoming st = [] -> recv buf_pos n st = Some (0, st).
Proof. intros H. unfold recv. now rewrite H. Qed.

Lemma read_loop_closed fuel to_read buf_pos st :
  _client_socket st <= 0 -> read_loop (S fuel) to_read buf_pos st = Some (buf_pos, st).
Proof. intros. cbn [read_loop]. rewrite decide_False by lia. reflexivity. Qed.

Lemma write_closed fuel msg len st :
  _client_socket st <= 0 -> write (S fuel) msg len st = Some st.
Proof. intros. unfold write. cbn [write_loop]. rewrite decide_False by lia. reflexivity. Qed.

Lemma write_message_closed fuel msg st :
  _client_socket st <= 0 ->
  exists b, write_message (S fuel) msg st = Some (set_buffer st b) /\
            length b = length (_buffer st).
Proof.
  intros H. unfold write_message. rewrite write_closed by exact H.
  cbn [mbind option_bind]. rewrite write_closed by exact H.
  eexists. split; [reflexivity|].
  rewrite length_insert. unfold length_digits, CRS_CMD_LEN_SIZE.
  now rewrite !length_insert.
Qed.

(** [read] of [msg_len] bytes of which only [data], fewer, arrive before the
    peer closes. *)
Lemma read_cut_short fuel st data msg_len :
  _client_socket st > 0 -> incoming st = data ->
  Z.of_nat (length data) < msg_len -> msg_len < CRS_CMD_BUF_SIZE ->
  length (_buffer st) = 1024%nat -> (2 <= fuel)%nat ->
  exists st',
    read fuel msg_len st = Some st' /\
    c_str (_buffer st') = c_str data /\
    incoming st' = [] /\ outgoing st' = outgoing st /\
    _client_socket st' = -1 /\ same_listener st st'.
Proof.
  intros Hs Hin Hlen Hmax Hbuf Hf. unfold CRS_CMD_BUF_SIZE in *.
  destruct fuel as [|[|fuel]]; try lia.
  assert (Hdrop : exists c tl, drop (length data) (_buffer st) = c :: tl).
  { destruct (drop (length data) (_buffer st)) as [|c tl] eqn:E; [|eauto].
    apply (f_equal length) in E. rewrite length_drop in E. simpl in E. lia. }
  destruct Hdrop as (c & tl & Hdrop).
  assert (Hl : length (data ++ c :: tl) = length (_buffer st)).
  { rewrite <- Hdrop, length_app, length_drop. lia. }
  unfold read. destruct (decide (data = [])) as [->|Hne].
  - cbn [read_loop]. rewrite decide_True by lia.
    rewrite recv_closed by assumption. cbn [mbind option_bind].
    rewrite decide_True by lia. cbn [mbind option_bind].
    cbn [_buffer close_active_connection set_client_socket].
    rewrite decide_True by lia.
    eexists. split; [reflexivity|]. simpl in Hdrop. rewrite drop_0 in Hdrop.
    cbn [_buffer set_buffer incoming outgoing _client_socket]. rewrite Hdrop.
    change (Z.to_nat 0) with 0%nat. cbn [insert list_insert c_str].
    rewrite decide_True by reflexivity.
    repeat split; try assumption.
  - assert (Hpos : 0 < Z.of_nat (length data)).
    { destruct data; [contradiction|simpl; lia]. }
    assert (Er : recv 0 (Z.min msg_len (CRS_CMD_BUF_SIZE - 1)) st
                 = Some (Z.of_nat (length data),
                         set_incoming (set_buffer st (data ++ drop (length data) (_buffer st))) [])).
    { unfold recv, CRS_CMD_BUF_SIZE. rewrite Hin.
      clear Hdrop Hl. destruct data as [|d l]; [contradiction|]. cbv beta iota zeta.
      rewrite Z.min_r by lia. rewrite decide_True by lia.
      rewrite Nat2Z.id, firstn_all, drop_all.
      change (Z.to_nat 0) with 0%nat. rewrite take_0. cbn [app].
      replace (Z.to_nat (0 + Z.of_nat (length (d :: l)))) with (length (d :: l)) by lia.
      reflexivity. }
    erewrite read_loop_step; [|assumption|lia|exact Er|lia|unfold CRS_CMD_BUF_SIZE; lia].
    cbn [read_loop]. cbn [_client_socket set_incoming set_buffer].
    rewrite decide_True by lia.
    rewrite recv_closed by reflexivity. cbn [mbind option_bind].
    rewrite decide_True by lia. cbn [mbind option_bind].
    cbn [_buffer set_incoming set_buffer close_active_connection set_client_socket].
    rewrite Hdrop. rewrite decide_True by (rewrite Hl; lia).
    eexists. split; [reflexivity|]. cbn.
    replace (Z.to_nat (0 + Z.of_nat (length data))) with (length data) by lia.
    rewrite insert_after, c_str_terminated.
    repeat split. cbn. rewrite <- Hl, !length_app. reflexivity.
Qed.

Lemma read_closed fuel st msg_len :
  _client_socket st <= 0 -> (1 <= length (_buffer st))%nat -> (1 <= fuel)%nat ->
  exists b,
    read fuel msg_len st = Some (set_buffer st b) /\
    c_str b = [] /\ length b = length (_buffer st).
Proof.
  intros Hs Hb Hf. destruct fuel as [|fuel]; [lia|].
  unfold read. rewrite read_loop_closed by assumption. cbn [mbind option_bind].
  rewrite decide_True by lia. eexists. split; [reflexivity|].
  destruct (_buffer st) as [|c b]; [simpl in Hb; lia|].
  change (Z.to_nat 0) with 0%nat. cbn. now rewrite decide_True by reflexivity.
Qed.

(** X8: the end of the input ends the request loop, after one more command.
    When the peer has closed the connection and nothing is left to read, the
    turn of the request loop that finds this out closes the connection, still
    hands the empty message to [process_cmd] (which does not recognise it),
    sends no reply, and the loop ends; the listener is not asked to stop. *)
Theorem end_of_input_dispatches_empty_command fuel fuel' st :
  serving st -> incoming st = [] -> (2 <= fuel)%nat -> (2 <= fuel')%nat ->
  exists st',
    request_loop fuel fuel' st = Some st' /\
    _client_socket st' = -1 /\
    outgoing st' = outgoing st /\
    dispatched st' = dispatched st ++ [NotHandled []] /\
    _should_terminate st' = false.
Proof.
  intros (Hs & Ht & Hb) Hin Hf Hf'.
  destruct fuel as [|fuel]; [lia|]. destruct fuel' as [|fuel']; [lia|].
  cbn [request_loop]. rewrite decide_True by (split; assumption).
  unfold read_message.
  destruct (read_cut_short (S fuel') st [] (Z.of_nat CRS_CMD_LEN_SIZE))
    as (st1 & E1 & Hc1 & Hi1 & Ho1 & Hs1 & (_ & _ & Ht1 & _ & Hd1 & Hb1));
    [assumption|assumption|reflexivity|reflexivity|assumption|lia|].
  rewrite E1. cbn [mbind option_bind].
  destruct (read_closed (S fuel') st1 (atoi (c_str (_buffer st1)))) as (b & E2 & Hc2 & Hb2);
    [lia|lia|lia|].
  rewrite E2. cbn [mbind option_bind _buffer set_buffer]. rewrite Hc2.
  destruct (process_cmd_spec [] (set_buffer st1 b))
    as (st3 & E3 & Hd3 & Ht3 & Ho3 & Hi3 & Hs3 & Hb3 & _).
  rewrite E3.
  destruct (write_message_closed fuel' None st3) as (b' & E4 & Hb4);
    [rewrite Hs3; cbn; lia|].
  rewrite E4. cbn [mbind option_bind].
  destruct fuel as [|fuel]; [lia|]. cbn [request_loop].
  rewrite decide_False by (cbn; rewrite Hs3; cbn; lia).
  eexists. split; [reflexivity|]. cbn.
  rewrite Hs3, Ho3, Hd3, Ht3. cbn. rewrite Hs1, Ho1, Hd1, Ht1, Ht. auto.
Qed.

Lemma end_of_input_dispatches_empty_command_witness :
  exists st',
    request_loop 2 2 (connected []) = Some st' /\
    _client_socket st' = -1 /\
    outgoing st' = outgoing (connected []) /\
    dispatched st' = dispatched (connected []) ++ [NotHandled []] /\
    _should_terminate st' = false.
Proof.
  apply (end_of_input_dispatches_empty_command 2 2 (connected [])).
  - split; [vm_compute; reflexivity|]. split; vm_compute; reflexivity.
  - reflexivity.
  - lia.
  - lia.
Defined.



End Listener.

(** * Options: what [-XX:AzCRSArguments] and [AZ_CRS_ARGUMENTS] are parsed to *)

Module Options.
Local Open Scope Z_scope.

Definition NUL : ascii := "000"%char.

(** A C string is the list of the characters of its array, the NUL that ends
    the array left out; a pointer into it is the rest of the list. *)
Definition chars (s : string) : list ascii := list_ascii_of_string s.

Definition code (c : ascii) : Z := Z.of_nat (nat_of_ascii c).

(** [s[i]]: the terminator at [length s], nothing beyond it. *)
Definition char_at (s : list ascii) (i : nat) : option ascii :=
  match s !! i with
  | Some c => Some c
  | None => if decide (i = length s) then Some NUL else None
  end.

Definition head_char (s : list ascii) : ascii := default NUL (head s).

(** The C library's [strlen], [strchr] (as an offset), [strncmp] and [strcmp]. *)
Fixpoint strlen (s : list ascii) : nat :=
  match s with
  | [] => 0%nat
  | c :: s => if decide (c = NUL) then 0%nat else S (strlen s)
  end.

Fixpoint strchr (s : list ascii) (c : ascii) : option nat :=
  match s with
  | [] => if decide (c = NUL) then Some 0%nat else None
  | d :: s =>
    if decide (d = c) then Some 0%nat
    else if decide (d = NUL) then None
    else S <$> strchr s c
  end.

Fixpoint strncmp (s1 s2 : list ascii) (n : nat) : Z :=
  match n with
  | O => 0
  | S n =>
    let c1 := head_char s1 in
    let c2 := head_char s2 in
    if decide (c1 <> c2) then code c1 - code c2
    else if decide (c1 = NUL) then 0
    else strncmp (tail s1) (tail s2) n
  end.

Fixpoint strcmp (s1 s2 : list ascii) : Z :=
  match s1 with
  | [] => code NUL - code (head_char s2)
  | c1 :: s1 =>
    if decide (c1 <> head_char s2) then code c1 - code (head_char s2)
    else if decide (c1 = NUL) then 0
    else strcmp s1 (tail s2)
  end.

(** [!strncmp(value1, value2, value2_len) && !value1[value2_len]]; [None]
    when [value1[value2_len]] lies beyond the terminator of [value1]. *)
Definition strnequals (value1 value2 : list ascii) (value2_len : nat) : option bool :=
  if decide (strncmp value1 value2 value2_len = 0)
  then c ← char_at value1 value2_len; Some (bool_decide (c = NUL))
  else Some false.

Definition LogLevel := Z.

Definition values : list (list ascii) :=
  map chars ["trace"; "debug"; "info"; "warning"; "error"; "off"]%string.

(** The [for] loop of [parse_log_level], at index [i] with [vs] left. *)
Fixpoint parse_log_level_loop (vs : list (list ascii)) (i : Z) (var : LogLevel)
    (value : list ascii) (value_len : nat) : option LogLevel :=
  match vs with
  | [] => Some var
  | v :: vs =>
    b ← strnequals v value value_len;
    if b : bool then Some i
    else parse_log_level_loop vs (i + 1) var value value_len
  end.

Definition parse_log_level (var : LogLevel) (value : list ascii) (value_len : nat)
    : option LogLevel :=
  parse_log_level_loop values 0 var value value_len.

(** A decidable fact of given strings. *)
Ltac by_computation := refine (proj1 (bool_decide_eq_true _) _); vm_compute; reflexivity.

Lemma code_inj c1 c2 : code c1 = code c2 -> c1 = c2.
Proof.
  unfold code. intros H. apply Nat2Z.inj in H.
  rewrite <- (ascii_nat_embedding c1), <- (ascii_nat_embedding c2). now rewrite H.
Qed.

Lemma char_at_lookup s i c : s !! i = Some c -> char_at s i = Some c.
Proof. unfold char_at. now intros ->. Qed.

Lemma char_at_length s n : length s = n -> char_at s n = Some NUL.
Proof.
  intros <-. unfold char_at. rewrite lookup_ge_None_2 by lia. now rewrite decide_True.
Qed.

Lemma strncmp_0 s1 s2 n :
  (n <= length s2)%nat -> NUL ∉ take n s2 ->
  strncmp s1 s2 n = 0 <-> take n s2 `prefix_of` s1.
Proof.
  revert s1 s2. induction n as [|n IH]; intros s1 s2 Hn Hnul.
  - cbn. split; [intros _; apply prefix_nil | reflexivity].
  - destruct s2 as [|c2 s2]; [cbn in Hn; lia|].
    cbn in Hn. cbn [take] in *.
    assert (c2 <> NUL) by (intros ->; apply Hnul; left).
    assert (NUL ∉ take n s2) by (intros ?; apply Hnul; now right).
    cbn [strncmp]. unfold head_char. cbn [head tail default from_option id].
    destruct s1 as [|c1 s1]; cbn [head tail default from_option id].
    + rewrite decide_True by congruence. split.
      * intros E. exfalso. apply H. apply code_inj. change (code NUL) with 0 in *. lia.
      * intros [k Hk]. discriminate.
    + destruct (decide (c1 <> c2)) as [Hd|Hd].
      * split.
        -- intros E. exfalso. apply Hd. apply code_inj. lia.
        -- intros [k Hk]. injection Hk as -> _. congruence.
      * assert (c1 = c2) as -> by (destruct (decide (c1 = c2)); tauto).
        rewrite decide_False by assumption.
        rewrite IH by (assumption || lia). split.
        -- intros [k ->]. exists k. reflexivity.
        -- intros [k Hk]. injection Hk as ->. now exists k.
Qed.

Lemma strncmp_sym s1 s2 n : strncmp s1 s2 n = - strncmp s2 s1 n.
Proof.
  revert s1 s2. induction n as [|n IH]; intros s1 s2; [reflexivity|].
  cbn [strncmp].
  destruct (decide (head_char s1 <> head_char s2)) as [Hd|Hd].
  - rewrite decide_True by congruence. lia.
  - assert (head_char s1 = head_char s2) as E
      by (destruct (decide (head_char s1 = head_char s2)); tauto).
    rewrite (decide_False (P := head_char s2 <> head_char s1)) by (rewrite E; tauto).
    rewrite <- E. destruct (decide (head_char s1 = NUL)); [reflexivity|]. apply IH.
Qed.

(** [strnequals] compares [value1] with the first [value2_len] characters of
    [value2], and reads [value1] within its array. *)
Lemma strnequals_spec value1 value2 value2_len :
  (value2_len <= length value2)%nat -> NUL ∉ take value2_len value2 -> NUL ∉ value1 ->
  strnequals value1 value2 value2_len
    = Some (bool_decide (value1 = take value2_len value2)).
Proof.
  intros Hn Hnul H1. unfold strnequals.
  destruct (decide (strncmp value1 value2 value2_len = 0)) as [E|E].
  - apply strncmp_0 in E; [|assumption..]. destruct E as [k Hk].
    assert (length (take value2_len value2) = value2_len) as Hl by (rewrite length_take; lia).
    destruct k as [|c k].
    + rewrite app_nil_r in Hk. subst value1.
      rewrite char_at_length by assumption. cbn.
      f_equal. rewrite !bool_decide_eq_true_2; congruence.
    + rewrite (char_at_lookup _ _ c).
      2:{ rewrite Hk, lookup_app_r by lia. now rewrite Hl, Nat.sub_diag. }
      cbn. f_equal.
      assert (c <> NUL).
      { intros ->. apply H1. rewrite Hk. apply elem_of_app. right. left. }
      rewrite !bool_decide_eq_false_2; try congruence.
      intros E. rewrite E in Hk at 1.
      apply (f_equal length) in Hk. rewrite length_app in Hk. cbn in Hk. lia.
  - f_equal. rewrite bool_decide_eq_false_2; [reflexivity|].
    intros E'. apply E. apply strncmp_0; [assumption..|]. rewrite <- E'. reflexivity.
Qed.

Lemma strlen_no_NUL s : NUL ∉ s -> strlen s = length s.
Proof.
  induction s as [|c s IH]; intros H; [reflexivity|]. cbn.
  rewrite decide_False by (intros ->; apply H; left).
  rewrite IH; [reflexivity|]. intros ?. apply H. now right.
Qed.

Lemma strchr_Some s c i :
  c <> NUL -> strchr s c = Some i -> s !! i = Some c /\ c ∉ take i s.
Proof.
  intros Hc. revert i. induction s as [|d s IH]; intros i; cbn.
  - now rewrite decide_False.
  - destruct (decide (d = c)) as [->|Hd].
    + intros [= <-]. split; [reflexivity|]. cbn. apply not_elem_of_nil.
    + destruct (decide (d = NUL)); [discriminate|].
      destruct (strchr s c) as [j|] eqn:E; [|discriminate].
      intros [= <-]. destruct (IH j eq_refl) as [H1 H2]. split; [exact H1|].
      cbn. intros [?|?]%elem_of_cons; congruence.
Qed.

Lemma strchr_None s c : NUL ∉ s -> strchr s c = None -> c ∉ s.
Proof.
  induction s as [|d s IH]; cbn; intros Hn H.
  - apply not_elem_of_nil.
  - destruct (decide (d = c)); [discriminate|].
    rewrite decide_False in H by (intros ->; apply Hn; left).
    destruct (strchr s c) eqn:E; [discriminate|].
    intros [?|?]%elem_of_cons; [congruence|].
    revert H0. apply IH; [|reflexivity]. intros ?. apply Hn. now right.
Qed.

Lemma no_NUL_part (s : list ascii) k n : NUL ∉ s -> NUL ∉ take n (drop k s).
Proof.
  intros H Hin. apply H.
  apply elem_of_take in Hin as (i & Hi & _).
  rewrite lookup_drop in Hi. now apply list_elem_of_lookup_2 in Hi.
Qed.

Lemma no_NUL_drop (s : list ascii) k : NUL ∉ s -> NUL ∉ drop k s.
Proof.
  intros H Hin. apply H. apply list_elem_of_lookup in Hin as [i Hi].
  rewrite lookup_drop in Hi. now apply list_elem_of_lookup_2 in Hi.
Qed.


(** What [strnequals] answers on a part of the arguments. *)
Lemma strnequals_part value1 s k n :
  NUL ∉ value1 -> NUL ∉ s -> (k + n <= length s)%nat ->
  strnequals value1 (drop k s) n = Some (bool_decide (value1 = take n (drop k s))).
Proof.
  intros H1 Hs Hl. apply strnequals_spec; [|now apply no_NUL_part|assumption].
  rewrite length_drop. lia.
Qed.

Lemma parse_log_level_loop_Some vs i var s k n :
  Forall (fun v => NUL ∉ v) vs -> NUL ∉ s -> (k + n <= length s)%nat ->
  exists v, parse_log_level_loop vs i var (drop k s) n = Some v.
Proof.
  intros Hvs Hs Hl. revert i. induction Hvs as [|v vs Hv _ IH]; intros i; cbn.
  - eauto.
  - rewrite strnequals_part by assumption. cbn.
    destruct (bool_decide _); eauto.
Qed.

Lemma values_no_NUL : Forall (fun v => NUL ∉ v) values.
Proof. repeat constructor; by_computation. Qed.

(** X22: a log level is recognised by its whole name only: on a value of
    [value_len] characters, none of them NUL, [parse_log_level] answers the
    index of the name among trace, debug, info, warning, error and off that
    equals the value, and leaves the variable as it is when the value is none
    of the six names. *)
Theorem parse_log_level_takes_whole_names var value value_len :
  (value_len <= length value)%nat -> NUL ∉ take value_len value ->
  (forall i, values !! i = Some (take value_len value) ->
     parse_log_level var value value_len = Some (Z.of_nat i)) /\
  (take value_len value ∉ values -> parse_log_level var value value_len = Some var).
Proof.
  intros Hl Hn.
  assert (parse_log_level var value value_len
          = parse_log_level_loop values 0 var (take value_len value)
              (length (take value_len value))) as ->.
  { unfold parse_log_level, values. cbn [map parse_log_level_loop].
    rewrite !strnequals_spec by (assumption || by_computation || (rewrite ?length_take; lia)
      || (rewrite firstn_all; assumption)).
    now rewrite firstn_all. }
  revert Hn. generalize (take value_len value) as name. intros name Hn. split.
  - intros i Hi. destruct i as [|[|[|[|[|[|i]]]]]]; cbn in Hi; try discriminate;
      injection Hi as <-; vm_compute; reflexivity.
  - intros Hnot. unfold values. cbn [map parse_log_level_loop].
    rewrite !strnequals_spec by (assumption || by_computation || lia
      || (rewrite firstn_all; assumption)).
    rewrite firstn_all.
    rewrite !bool_decide_eq_false_2; [reflexivity|..];
      intros E; apply Hnot; rewrite <- E; apply list_elem_of_In; cbn; tauto.
Qed.

Definition DELAY_INITIATION : list ascii := chars "delayInitiation".
Definition NOTIFY_FIRST_CALL : list ascii := chars "notifyFirstCall".
Definition UNLOCK_CRS_ARGUMENT : list ascii := chars "UnlockExperimentalCRS".
Definition CRS_MODE_STR_AUTO : list ascii := chars "auto".
Definition CRS_MODE_STR_ON : list ascii := chars "on".
Definition CRS_MODE_STR_OFF : list ascii := chars "off".
Definition ENABLE_CRS_ARGUMENT : list ascii := chars "enable".
Definition ENABLE_CRS_TRUE : list ascii := chars "true".
Definition ENABLE_CRS_FALSE : list ascii := chars "false".
Definition INT_MAX : Z := 2 ^ 31 - 1.

Definition options : list (list ascii) :=
  [chars "log"; chars "log+vm"; ENABLE_CRS_ARGUMENT; UNLOCK_CRS_ARGUMENT;
   DELAY_INITIATION; NOTIFY_FIRST_CALL].

Inductive CRS_MODE_ENUM := CRS_MODE_OFF | CRS_MODE_ON | CRS_MODE_AUTO.

#[global] Instance CRS_MODE_ENUM_eq_dec : EqDecision CRS_MODE_ENUM.
Proof. solve_decision. Defined.

(** The local variables of [parse_arguments]. *)
Record Locals := mk_Locals {
  global_log_level : LogLevel;
  vm_log_level : LogLevel;
  enable_crs : bool;
  disable_crs : bool;
  unlock_is_set : bool;
  delayInitiation : Z
}.

(** How a call ends: it returns, or [fatal] ends the VM. *)
Inductive outcome (A : Type) :=
| Returns (a : A)
| Fatal (msg : string).
Arguments Returns {A} a.
Arguments Fatal {A} msg.

Section parse_arguments.

Local Set Default Proof Using "Type".

(** HotSpot's table of flags, the values of the log levels and the C library's
    [strtol(value, NULL, 10)] are not part of this file. *)
Variable Flags : Type.
Variable AzCRSMode : Flags -> list ascii.
Variable AzCRSArguments : Flags -> option (list ascii).
Variable AzCRSMode_is_default : Flags -> bool.
Variable AzCRSMode_set_default : list ascii -> Flags -> Flags.
Variable AzCRSFailJVMOnError : Flags -> bool.
Variables CRS_LOG_LEVEL_NOT_SET CRS_LOG_LEVEL_WARNING CRS_LOG_LEVEL_ERROR : LogLevel.
Variable strtol : list ascii -> Z.

Record Runtime := mk_Runtime {
  flags : Flags;
  _crs_mode : CRS_MODE_ENUM;
  _delayInitiation : Z;
  _log_level : LogLevel;
  _should_notify_first_call : bool;
  tty : list string
}.

Definition set_flags (f : Flags) (rt : Runtime) : Runtime :=
  mk_Runtime f (_crs_mode rt) (_delayInitiation rt) (_log_level rt)
    (_should_notify_first_call rt) (tty rt).
Definition set_crs_mode (m : CRS_MODE_ENUM) (rt : Runtime) : Runtime :=
  mk_Runtime (flags rt) m (_delayInitiation rt) (_log_level rt)
    (_should_notify_first_call rt) (tty rt).
Definition set_delayInitiation (d : Z) (rt : Runtime) : Runtime :=
  mk_Runtime (flags rt) (_crs_mode rt) d (_log_level rt)
    (_should_notify_first_call rt) (tty rt).
Definition set_log_level (l : LogLevel) (rt : Runtime) : Runtime :=
  mk_Runtime (flags rt) (_crs_mode rt) (_delayInitiation rt) l
    (_should_notify_first_call rt) (tty rt).
Definition set_should_notify_first_call (b : bool) (rt : Runtime) : Runtime :=
  mk_Runtime (flags rt) (_crs_mode rt) (_delayInitiation rt) (_log_level rt) b (tty rt).
Definition print_cr (s : string) (rt : Runtime) : Runtime :=
  mk_Runtime (flags rt) (_crs_mode rt) (_delayInitiation rt) (_log_level rt)
    (_should_notify_first_call rt) (tty rt ++ [s]).

Definition log_warning (s : string) (rt : Runtime) : Runtime :=
  if decide (_log_level rt <= CRS_LOG_LEVEL_WARNING) then print_cr s rt else rt.
Definition log_error (s : string) (rt : Runtime) : Runtime :=
  if decide (_log_level rt <= CRS_LOG_LEVEL_ERROR) then print_cr s rt else rt.

Definition set_global_log_level (v : LogLevel) (l : Locals) : Locals :=
  mk_Locals v (vm_log_level l) (enable_crs l) (disable_crs l) (unlock_is_set l)
    (delayInitiation l).
Definition set_vm_log_level (v : LogLevel) (l : Locals) : Locals :=
  mk_Locals (global_log_level l) v (enable_crs l) (disable_crs l) (unlock_is_set l)
    (delayInitiation l).
Definition set_enable (enable disable : bool) (l : Locals) : Locals :=
  mk_Locals (global_log_level l) (vm_log_level l) enable disable (unlock_is_set l)
    (delayInitiation l).
Definition set_unlock_is_set (b : bool) (l : Locals) : Locals :=
  mk_Locals (global_log_level l) (vm_log_level l) (enable_crs l) (disable_crs l) b
    (delayInitiation l).
Definition set_delay (d : Z) (l : Locals) : Locals :=
  mk_Locals (global_log_level l) (vm_log_level l) (enable_crs l) (disable_crs l)
    (unlock_is_set l) d.

(** The [switch (i)] of [parse_arguments]. *)
Definition option_do (i : nat) (value : list ascii) (value_len : nat)
    (s : Locals * Runtime) : option (Locals * Runtime) :=
  let '(l, rt) := s in
  match i with
  | 0%nat =>
    v ← parse_log_level (global_log_level l) value value_len;
    Some (set_global_log_level v l, rt)
  | 1%nat =>
    v ← parse_log_level (vm_log_level l) value value_len;
    Some (set_vm_log_level v l, rt)
  | 2%nat =>
    t ← strnequals ENABLE_CRS_TRUE value value_len;
    if t : bool then Some (set_enable true false l, rt)
    else
      f ← strnequals ENABLE_CRS_FALSE value value_len;
      if f : bool then Some (set_enable false true l, rt) else Some (l, rt)
  | 4%nat => Some (set_delay (strtol value) l, rt)
  | 5%nat =>
    t ← strnequals ENABLE_CRS_TRUE value value_len;
    if t : bool then Some (l, set_should_notify_first_call true rt) else Some (l, rt)
  | _ => Some (l, rt)
  end.

(** The [for] loop over [options], at index [i] with [opts] left. *)
Fixpoint options_loop (opts : list (list ascii)) (i : nat) (arguments : list ascii)
    (equals comma : nat) (s : Locals * Runtime) : option (Locals * Runtime) :=
  match opts with
  | [] => Some s
  | o :: opts =>
    s ← (if decide (strncmp arguments o equals = 0)
         then option_do i (drop (S equals) arguments) (comma - S equals) s
         else Some s);
    options_loop opts (S i) arguments equals comma s
  end.

(** The [else] branch: an argument without [=]. *)
Definition bare_argument (arguments : list ascii) (comma : nat)
    (s : Locals * Runtime) : option (Locals * Runtime) :=
  let '(l, rt) := s in
  e ← strnequals ENABLE_CRS_ARGUMENT arguments comma;
  if e : bool then Some (set_enable true (disable_crs l) l, rt)
  else
    u ← strnequals UNLOCK_CRS_ARGUMENT arguments comma;
    if u : bool
    then Some (set_unlock_is_set true l, log_error "UnlockExperimentalCRS is deprecated" rt)
    else
      n ← strnequals NOTIFY_FIRST_CALL arguments comma;
      if n : bool then Some (l, set_should_notify_first_call true rt) else Some (l, rt).

(** [comma], as an offset from [arguments]. *)
Definition comma_of (arguments : list ascii) : nat :=
  match strchr arguments ","%char with
  | Some comma => comma
  | None => strlen arguments
  end.

(** One round of the [while (true)] loop, up to the test of [*comma]. *)
Definition parse_argument (arguments : list ascii) (s : Locals * Runtime)
    : option (Locals * Runtime) :=
  let comma := comma_of arguments in
  match strchr arguments "="%char with
  | Some equals =>
    if decide (equals < comma)%nat
    then options_loop options 0 arguments equals comma s
    else bare_argument arguments comma s
  | None => bare_argument arguments comma s
  end.

Fixpoint parse_loop (fuel : nat) (arguments : list ascii) (s : Locals * Runtime)
    : option (Locals * Runtime) :=
  match fuel with
  | O => None
  | S fuel =>
    s ← parse_argument arguments s;
    c ← char_at arguments (comma_of arguments);
    if decide (c = NUL) then Some s
    else parse_loop fuel (drop (S (comma_of arguments)) arguments) s
  end.

Definition conflict : string :=
  "There is conflict in flags: -XX:AzCRSMode=on and enable=false at the same time.".

(** [fatal_or_log(logger, msg)]; [fatal] gets what fits [char msg[1024]]. *)
Definition fatal_or_log (logger : string -> Runtime -> Runtime) (msg : string)
    (rt : Runtime) : outcome Runtime :=
  if AzCRSFailJVMOnError (flags rt) then Fatal (substring 0 1022 msg)
  else Returns (logger msg rt).

(** The four [if] statements that follow the loop. *)
Definition check_conflict (l : Locals) (rt : Runtime) : outcome Runtime :=
  if bool_decide (_crs_mode rt = CRS_MODE_ON) && disable_crs l
  then fatal_or_log log_warning conflict rt
  else Returns rt.

Definition mode_of_arguments (needs_unlock : bool) (l : Locals) (rt : Runtime) : Runtime :=
  if AzCRSMode_is_default (flags rt) && (enable_crs l || disable_crs l)
     && (negb needs_unlock || unlock_is_set l)
  then
    if enable_crs l
    then set_flags (AzCRSMode_set_default (chars "auto") (flags rt))
           (set_crs_mode CRS_MODE_AUTO rt)
    else set_flags (AzCRSMode_set_default (chars "off") (flags rt))
           (set_crs_mode CRS_MODE_OFF rt)
  else rt.

Definition delay_of_arguments (l : Locals) (rt : Runtime) : Runtime :=
  if bool_decide (delayInitiation l <> _delayInitiation rt)
     && bool_decide (0 <= delayInitiation l)
     && bool_decide (delayInitiation l < INT_MAX)
  then set_delayInitiation (delayInitiation l) rt
  else rt.

Definition log_level_of_arguments (l : Locals) (rt : Runtime) : Runtime :=
  if decide (vm_log_level l <> CRS_LOG_LEVEL_NOT_SET)
  then set_log_level (vm_log_level l) rt
  else if decide (global_log_level l <> CRS_LOG_LEVEL_NOT_SET)
  then set_log_level (global_log_level l) rt
  else rt.

(** [parse_arguments]; [None] when the fuel of the loop runs out or a read
    leaves its array. *)
Definition parse_arguments (fuel : nat) (arguments : list ascii) (needs_unlock : bool)
    (rt : Runtime) : option (outcome Runtime) :=
  let l := mk_Locals CRS_LOG_LEVEL_NOT_SET CRS_LOG_LEVEL_NOT_SET false false false
             (_delayInitiation rt) in
  '(l, rt) ← parse_loop fuel arguments (l, rt);
  match check_conflict l rt with
  | Fatal msg => Some (Fatal msg)
  | Returns rt =>
    let rt := mode_of_arguments needs_unlock l rt in
    let rt := delay_of_arguments l rt in
    let rt := log_level_of_arguments l rt in
    Some (Returns rt)
  end.

(** [parse_options]; [env_args] is what [os::getenv] finds for
    AZ_CRS_ARGUMENTS, if it finds it. *)
Definition parse_options (fuel : nat) (env_args : option (list ascii)) (rt : Runtime)
    : option (outcome Runtime) :=
  let r :=
    if decide (strcmp CRS_MODE_STR_ON (AzCRSMode (flags rt)) = 0)
    then Returns (set_crs_mode CRS_MODE_ON rt)
    else if decide (strcmp CRS_MODE_STR_OFF (AzCRSMode (flags rt)) = 0)
    then Returns (set_crs_mode CRS_MODE_OFF rt)
    else if decide (strcmp CRS_MODE_STR_AUTO (AzCRSMode (flags rt)) = 0)
    then Returns (set_crs_mode CRS_MODE_AUTO rt)
    else fatal_or_log log_error
           ("Unexpected value of -XX:AzCRSMode='"
            ++ string_of_list_ascii (AzCRSMode (flags rt))
            ++ "' flag. Expecting one of on/off/auto") rt in
  match r with
  | Fatal msg => Some (Fatal msg)
  | Returns rt =>
    r ← match env_args with
        | Some arguments => parse_arguments fuel arguments true rt
        | None => Some (Returns rt)
        end;
    match r with
    | Fatal msg => Some (Fatal msg)
    | Returns rt =>
      match AzCRSArguments (flags rt) with
      | Some arguments => parse_arguments fuel arguments false rt
      | None => Some (Returns rt)
      end
    end
  end.

Lemma comma_NUL : ","%char <> NUL.
Proof. discriminate. Qed.

(** Where [comma] points: at the first comma, or at the terminator. *)
Lemma comma_of_spec s :
  NUL ∉ s ->
  ~ (","%char ∈ take (comma_of s) s) /\
  ((comma_of s = length s /\ char_at s (comma_of s) = Some NUL) \/
   ((comma_of s < length s)%nat /\ char_at s (comma_of s) = Some ","%char)).
Proof.
  intros Hn. unfold comma_of. destruct (strchr s ","%char) as [i|] eqn:E.
  - destruct (strchr_Some _ _ _ comma_NUL E) as [H1 H2]. split; [exact H2|].
    right. split; [now apply lookup_lt_Some in H1 | now apply char_at_lookup].
  - rewrite strlen_no_NUL by assumption. split.
    + rewrite firstn_all. now apply strchr_None.
    + left. split; [reflexivity | now apply char_at_length].
Qed.

Lemma comma_of_le s : NUL ∉ s -> (comma_of s <= length s)%nat.
Proof. intros H. destruct (comma_of_spec s H) as [_ [[? _]|[? _]]]; lia. Qed.

(** What a round of the loop leaves as it is, and when it sets
    [unlock_is_set]. *)
Definition round (arguments : list ascii) (s s' : Locals * Runtime) : Prop :=
  flags s'.2 = flags s.2 /\ _crs_mode s'.2 = _crs_mode s.2 /\
  _delayInitiation s'.2 = _delayInitiation s.2 /\
  (unlock_is_set s'.1 = true ->
   unlock_is_set s.1 = true \/
   UNLOCK_CRS_ARGUMENT = take (comma_of arguments) arguments).

Lemma option_do_Some i s k n st :
  NUL ∉ s -> (k + n <= length s)%nat ->
  exists st', option_do i (drop k s) n st = Some st' /\
    flags st'.2 = flags st.2 /\ _crs_mode st'.2 = _crs_mode st.2 /\
    _delayInitiation st'.2 = _delayInitiation st.2 /\
    unlock_is_set st'.1 = unlock_is_set st.1.
Proof.
  intros Hs Hl. destruct st as [l rt]. unfold option_do.
  destruct i as [|[|[|[|[|[|i]]]]]].
  - destruct (parse_log_level_loop_Some values 0 (global_log_level l) s k n
                values_no_NUL Hs Hl) as [v Ev].
    unfold parse_log_level. rewrite Ev. cbn. eauto 10.
  - destruct (parse_log_level_loop_Some values 0 (vm_log_level l) s k n
                values_no_NUL Hs Hl) as [v Ev].
    unfold parse_log_level. rewrite Ev. cbn. eauto 10.
  - rewrite !strnequals_part by (assumption || by_computation). cbn.
    destruct (bool_decide _); [cbn; eauto 10|].
    destruct (bool_decide _); cbn; eauto 10.
  - cbn; eauto 10.
  - cbn; eauto 10.
  - rewrite !strnequals_part by (assumption || by_computation). cbn.
    destruct (bool_decide _); cbn; eauto 10.
  - cbn; eauto 10.
Qed.

Lemma options_loop_Some opts i s equals comma st :
  NUL ∉ s -> (equals < comma)%nat -> (comma <= length s)%nat ->
  exists st', options_loop opts i s equals comma st = Some st' /\
    flags st'.2 = flags st.2 /\ _crs_mode st'.2 = _crs_mode st.2 /\
    _delayInitiation st'.2 = _delayInitiation st.2 /\
    unlock_is_set st'.1 = unlock_is_set st.1.
Proof.
  intros Hs He Hc. revert i st. induction opts as [|o opts IH]; intros i st; cbn.
  - eauto 10.
  - destruct (decide (strncmp s o equals = 0)).
    + destruct (option_do_Some i s (S equals) (comma - S equals) st Hs) as (st1 & -> & F1);
        [lia|].
      cbn. destruct (IH (S i) st1) as (st2 & -> & F2).
      exists st2. split; [reflexivity|].
      destruct F1 as (? & ? & ? & ?), F2 as (? & ? & ? & ?).
      repeat split; congruence.
    + cbn. apply IH.
Qed.

Lemma bare_argument_Some s comma st :
  NUL ∉ s -> (comma <= length s)%nat ->
  exists st', bare_argument s comma st = Some st' /\
    flags st'.2 = flags st.2 /\ _crs_mode st'.2 = _crs_mode st.2 /\
    _delayInitiation st'.2 = _delayInitiation st.2 /\
    (unlock_is_set st'.1 = true ->
     unlock_is_set st.1 = true \/ UNLOCK_CRS_ARGUMENT = take comma s).
Proof.
  intros Hs Hc. destruct st as [l rt]. unfold bare_argument.
  pose proof (strnequals_part ENABLE_CRS_ARGUMENT s 0 comma) as E1.
  pose proof (strnequals_part UNLOCK_CRS_ARGUMENT s 0 comma) as E2.
  pose proof (strnequals_part NOTIFY_FIRST_CALL s 0 comma) as E3.
  rewrite drop_0 in E1, E2, E3.
  rewrite E1, E2, E3 by (assumption || by_computation || lia). clear E1 E2 E3.
  cbn [mbind option_bind].
  destruct (bool_decide (ENABLE_CRS_ARGUMENT = _)); [cbn; eauto 10|].
  destruct (bool_decide (UNLOCK_CRS_ARGUMENT = _)) eqn:Eu.
  - apply bool_decide_eq_true in Eu. unfold log_error.
    destruct (decide _); cbn; eauto 10.
  - destruct (bool_decide (NOTIFY_FIRST_CALL = _)); cbn; eauto 10.
Qed.

Lemma parse_argument_Some arguments st :
  NUL ∉ arguments ->
  exists st', parse_argument arguments st = Some st' /\ round arguments st st'.
Proof.
  intros Hs. unfold parse_argument, round.
  pose proof (comma_of_le arguments Hs) as Hc.
  destruct (strchr arguments "="%char) as [equals|].
  - destruct (decide (equals < comma_of arguments)%nat).
    + destruct (options_loop_Some options 0%nat arguments equals (comma_of arguments)
                  st Hs) as (st' & -> & F1 & F2 & F3 & F4); [assumption..|].
      exists st'. split; [reflexivity|]. split; [exact F1|]. split; [exact F2|].
      split; [exact F3|]. intros H. left. congruence.
    + apply bare_argument_Some; assumption.
  - apply bare_argument_Some; assumption.
Qed.

(** The loop returns on every string, within as many rounds as the string
    has characters and one more. *)
Lemma parse_loop_Some fuel arguments st :
  NUL ∉ arguments -> (length arguments < fuel)%nat ->
  exists st', parse_loop fuel arguments st = Some st' /\
    flags st'.2 = flags st.2 /\ _crs_mode st'.2 = _crs_mode st.2 /\
    _delayInitiation st'.2 = _delayInitiation st.2 /\
    (unlock_is_set st'.1 = true ->
     unlock_is_set st.1 = true \/
     exists k, UNLOCK_CRS_ARGUMENT `prefix_of` drop k arguments).
Proof.
  revert arguments st. induction fuel as [|fuel IH]; intros arguments st Hs Hl; [lia|].
  cbn [parse_loop].
  destruct (parse_argument_Some arguments st Hs) as (st1 & -> & F1 & F2 & F3 & F4).
  cbn [mbind option_bind].
  assert (unlock_is_set st1.1 = true ->
          unlock_is_set st.1 = true \/
          exists k, UNLOCK_CRS_ARGUMENT `prefix_of` drop k arguments) as F5.
  { intros H. destruct (F4 H) as [?|E]; [now left|]. right. exists 0%nat.
    rewrite drop_0, E. apply prefix_take. }
  destruct (comma_of_spec arguments Hs) as [_ [[Hc ->]|[Hc ->]]]; cbn [mbind option_bind].
  - rewrite decide_True by reflexivity. eauto 10.
  - rewrite decide_False by apply comma_NUL.
    destruct (IH (drop (S (comma_of arguments)) arguments) st1)
      as (st2 & -> & G1 & G2 & G3 & G4).
    { now apply no_NUL_drop. }
    { rewrite length_drop. lia. }
    exists st2. split; [reflexivity|]. repeat split; try congruence.
    intros H. destruct (G4 H) as [H1|[k Hk]]; [now apply F5|].
    right. exists (S (comma_of arguments) + k)%nat. now rewrite <- drop_drop.
Qed.

(** Arguments separated by commas. *)
Fixpoint joined (opts : list (list ascii)) : list ascii :=
  match opts with
  | [] => []
  | o :: opts =>
    match opts with
    | [] => o
    | _ :: _ => o ++ ","%char :: joined opts
    end
  end.

Definition argument (o : list ascii) : Prop := (NUL ∉ o) /\ ~ (","%char ∈ o).

Lemma joined_snoc o earlier last :
  joined (o :: earlier ++ [last]) = o ++ ","%char :: joined (earlier ++ [last]).
Proof. destruct earlier; reflexivity. Qed.

Lemma joined_no_NUL opts : Forall argument opts -> NUL ∉ joined opts.
Proof.
  induction 1 as [|o opts [Ho _] Hopts IH]; [apply not_elem_of_nil|].
  destruct opts as [|o' opts]; [exact Ho|].
  change (NUL ∉ o ++ ","%char :: joined (o' :: opts)).
  intros [H|[H|H]%elem_of_cons]%elem_of_app; [exact (Ho H)|discriminate|exact (IH H)].
Qed.

Lemma strchr_app o c rest :
  NUL ∉ o -> c ∉ o -> strchr (o ++ c :: rest) c = Some (length o).
Proof.
  induction o as [|d o IH]; intros Hn Hc; cbn.
  - now rewrite decide_True.
  - rewrite decide_False by (intros ->; apply Hc; left).
    rewrite decide_False by (intros ->; apply Hn; left).
    rewrite IH; [reflexivity| |]; intros ?; [apply Hn|apply Hc]; now right.
Qed.

Lemma strchr_not_in o c : c <> NUL -> c ∉ o -> strchr o c = None.
Proof.
  intros Hc. induction o as [|d o IH]; intros Ho; cbn.
  - now rewrite decide_False.
  - rewrite decide_False by (intros ->; apply Ho; left).
    destruct (decide (d = NUL)); [reflexivity|].
    rewrite IH; [reflexivity|]. intros ?. apply Ho. now right.
Qed.

Lemma comma_of_app o rest : argument o -> comma_of (o ++ ","%char :: rest) = length o.
Proof. intros [? ?]. unfold comma_of. now rewrite strchr_app. Qed.

Lemma comma_of_last o : argument o -> comma_of o = length o.
Proof.
  intros [? ?]. unfold comma_of.
  rewrite strchr_not_in by (assumption || apply comma_NUL). now apply strlen_no_NUL.
Qed.

(** The loop comes to the last argument with the flags, the mode and the
    delay of the runtime as they were. *)
Lemma parse_loop_joined fuel earlier last st :
  Forall argument earlier -> argument last ->
  (length (joined (earlier ++ [last])) < fuel)%nat ->
  exists st1,
    parse_loop fuel (joined (earlier ++ [last])) st = parse_argument last st1 /\
    flags st1.2 = flags st.2 /\ _crs_mode st1.2 = _crs_mode st.2 /\
    _delayInitiation st1.2 = _delayInitiation st.2.
Proof.
  intros He Hlast. revert fuel st.
  induction He as [|o earlier Ho He IH]; intros fuel st Hl.
  - cbn [app joined] in *. destruct fuel as [|fuel]; [lia|]. exists st.
    split; [|repeat split]. cbn [parse_loop].
    destruct (parse_argument last st) as [st1|]; [|reflexivity]. cbn [mbind option_bind].
    rewrite (comma_of_last last Hlast), char_at_length by reflexivity.
    cbn [mbind option_bind]. now rewrite decide_True.
  - change ((o :: earlier) ++ [last]) with (o :: earlier ++ [last]) in *.
    rewrite joined_snoc in *. rewrite length_app in Hl. cbn [length] in Hl.
    destruct fuel as [|fuel]; [lia|]. cbn [parse_loop].
    assert (NUL ∉ o ++ ","%char :: joined (earlier ++ [last])) as Hn.
    { rewrite <- joined_snoc. apply joined_no_NUL. constructor; [exact Ho|].
      apply Forall_app. split; [exact He | now constructor]. }
    destruct (parse_argument_Some _ st Hn) as (st1 & -> & F1 & F2 & F3 & _).
    cbn [mbind option_bind]. rewrite (comma_of_app o _ Ho).
    rewrite (char_at_lookup _ _ ","%char)
      by (rewrite lookup_app_r, Nat.sub_diag by lia; reflexivity).
    cbn [mbind option_bind]. rewrite decide_False by apply comma_NUL.
    replace (drop (S (length o)) (o ++ ","%char :: joined (earlier ++ [last])))
      with (joined (earlier ++ [last])).
    2:{ rewrite drop_app_ge by lia.
        replace (S (length o) - length o)%nat with 1%nat by lia. reflexivity. }
    destruct (IH fuel st1) as (st2 & -> & G1 & G2 & G3); [lia|].
    exists st2. split; [reflexivity|]. repeat split; congruence.
Qed.

(** What [parse_arguments] makes of the variables the loop has set. *)
Lemma parse_arguments_finish fuel arguments needs_unlock rt l rt1 :
  parse_loop fuel arguments
    (mk_Locals CRS_LOG_LEVEL_NOT_SET CRS_LOG_LEVEL_NOT_SET false false false
       (_delayInitiation rt), rt) = Some (l, rt1) ->
  bool_decide (_crs_mode rt1 = CRS_MODE_ON) && disable_crs l
    && AzCRSFailJVMOnError (flags rt1) = false ->
  exists rt',
    parse_arguments fuel arguments needs_unlock rt = Some (Returns rt') /\
    _log_level rt' =
      (if decide (vm_log_level l <> CRS_LOG_LEVEL_NOT_SET) then vm_log_level l
       else if decide (global_log_level l <> CRS_LOG_LEVEL_NOT_SET)
       then global_log_level l else _log_level rt1) /\
    _crs_mode rt' =
      (if AzCRSMode_is_default (flags rt1) && (enable_crs l || disable_crs l)
          && (negb needs_unlock || unlock_is_set l)
       then if enable_crs l then CRS_MODE_AUTO else CRS_MODE_OFF
       else _crs_mode rt1) /\
    (_delayInitiation rt' = _delayInitiation rt1 \/
     0 <= _delayInitiation rt' < INT_MAX) /\
    (AzCRSMode_is_default (flags rt1) = false -> flags rt' = flags rt1).
Proof.
  intros E Hf. unfold parse_arguments. rewrite E. cbn [mbind option_bind].
  assert (exists rt2, check_conflict l rt1 = Returns rt2 /\
            flags rt2 = flags rt1 /\ _crs_mode rt2 = _crs_mode rt1 /\
            _delayInitiation rt2 = _delayInitiation rt1 /\ _log_level rt2 = _log_level rt1)
    as (rt2 & -> & C1 & C2 & C3 & C4).
  { unfold check_conflict, fatal_or_log, log_warning.
    destruct (bool_decide (_crs_mode rt1 = CRS_MODE_ON) && disable_crs l); [|eauto 10].
    cbn [andb] in Hf. rewrite Hf. destruct (decide _); cbn; eauto 10. }
  eexists. split; [reflexivity|]. rewrite <- C1, <- C2, <- C3, <- C4.
  generalize rt2 as r. intros r.
  unfold log_level_of_arguments, delay_of_arguments, mode_of_arguments.
  destruct r as [f m d lv n t], l as [g v en dis un dl].
  cbn [flags _crs_mode _delayInitiation _log_level
       global_log_level vm_log_level enable_crs disable_crs unlock_is_set delayInitiation].
  destruct (AzCRSMode_is_default f) eqn:Edef; cbn [andb];
    [destruct ((en || dis) && (negb needs_unlock || un))|];
    destruct en;
    cbn [set_flags set_crs_mode flags _crs_mode _delayInitiation
         _log_level _should_notify_first_call tty];
    destruct (bool_decide (dl <> d));
    destruct (bool_decide (0 <= dl)) eqn:E1;
    destruct (bool_decide (dl < INT_MAX)) eqn:E2;
    try apply bool_decide_eq_true in E1; try apply bool_decide_eq_true in E2;
    cbn [andb set_delayInitiation flags _crs_mode _delayInitiation
         _log_level _should_notify_first_call tty];
    destruct (decide (v <> CRS_LOG_LEVEL_NOT_SET));
    destruct (decide (g <> CRS_LOG_LEVEL_NOT_SET));
    cbn; repeat split; try reflexivity; try discriminate; try (left; reflexivity);
    right; lia.
Qed.

(** With AzCRSMode given on the command line, the arguments leave the mode
    and the flags as they are. *)
Lemma parse_arguments_explicit fuel arguments needs_unlock rt :
  AzCRSMode_is_default (flags rt) = false -> AzCRSFailJVMOnError (flags rt) = false ->
  NUL ∉ arguments -> (length arguments < fuel)%nat ->
  exists rt',
    parse_arguments fuel arguments needs_unlock rt = Some (Returns rt') /\
    flags rt' = flags rt /\ _crs_mode rt' = _crs_mode rt.
Proof.
  intros Hd Hf Hn Hl.
  destruct (parse_loop_Some fuel arguments
              (mk_Locals CRS_LOG_LEVEL_NOT_SET CRS_LOG_LEVEL_NOT_SET false false false
                 (_delayInitiation rt), rt) Hn Hl) as ([l rt1] & E & F1 & F2 & _).
  cbn [fst snd] in *.
  destruct (parse_arguments_finish fuel arguments needs_unlock rt l rt1 E)
    as (rt' & -> & _ & Hm & _ & Hfl).
  { rewrite F1, Hf. apply andb_false_r. }
  exists rt'. split; [reflexivity|]. rewrite F1 in Hm, Hfl. rewrite Hd in Hm.
  cbn [andb] in Hm. split; [now apply Hfl | congruence].
Qed.

(** X23: [parse_arguments] returns on every string: the loop ends within as
    many rounds as the string has characters and one more, and no comparison
    reads beyond the terminator of a name. The VM is ended only for
    -XX:AzCRSMode=on with AzCRSFailJVMOnError; otherwise [_delayInitiation] is
    as before or within [0, INT_MAX). *)
Theorem parse_arguments_returns fuel arguments needs_unlock rt :
  NUL ∉ arguments -> (length arguments < fuel)%nat ->
  exists r, parse_arguments fuel arguments needs_unlock rt = Some r /\
    match r with
    | Returns rt' =>
      _delayInitiation rt' = _delayInitiation rt \/ 0 <= _delayInitiation rt' < INT_MAX
    | Fatal msg =>
      _crs_mode rt = CRS_MODE_ON /\ AzCRSFailJVMOnError (flags rt) = true /\ msg = conflict
    end.
Proof.
  intros Hn Hl.
  destruct (parse_loop_Some fuel arguments
              (mk_Locals CRS_LOG_LEVEL_NOT_SET CRS_LOG_LEVEL_NOT_SET false false false
                 (_delayInitiation rt), rt) Hn Hl) as ([l rt1] & E & F1 & F2 & F3 & _).
  cbn [fst snd] in *.
  destruct (bool_decide (_crs_mode rt1 = CRS_MODE_ON) && disable_crs l
            && AzCRSFailJVMOnError (flags rt1)) eqn:Ef.
  - exists (Fatal conflict). unfold parse_arguments. rewrite E. cbn [mbind option_bind].
    apply andb_true_iff in Ef as [Em Ee].
    unfold check_conflict, fatal_or_log. rewrite Em, Ee. split; [reflexivity|].
    apply andb_true_iff in Em as [Em _].
    apply bool_decide_eq_true in Em. repeat split; congruence.
  - destruct (parse_arguments_finish fuel arguments needs_unlock rt l rt1 E Ef)
      as (rt' & -> & _ & _ & Hd & _).
    exists (Returns rt'). split; [reflexivity|]. rewrite <- F3. exact Hd.
Qed.

(** X24: [log=<level>] sets the level of the VM as well, since [log] is how
    [log+vm] begins: when the last argument is [log=] with one of the six
    level names, [_log_level] is that level, whatever [log+vm=] arguments came
    before it. *)
Theorem last_log_argument_sets_level fuel earlier i level needs_unlock rt :
  Forall argument earlier -> values !! i = Some level ->
  ~ (0 <= CRS_LOG_LEVEL_NOT_SET < 6) ->
  AzCRSFailJVMOnError (flags rt) = false ->
  (length (joined (earlier ++ [chars "log=" ++ level])) < fuel)%nat ->
  exists rt',
    parse_arguments fuel (joined (earlier ++ [chars "log=" ++ level])) needs_unlock rt
      = Some (Returns rt') /\
    _log_level rt' = Z.of_nat i.
Proof.
  intros He Hi Hns Hf Hl.
  assert (i < 6)%nat as Hi6 by (apply lookup_lt_Some in Hi; exact Hi).
  assert (argument (chars "log=" ++ level)) as Ha.
  { destruct i as [|[|[|[|[|[|i]]]]]]; cbn in Hi; try discriminate;
      injection Hi as <-; split; by_computation. }
  destruct (parse_loop_joined fuel earlier _
              (mk_Locals CRS_LOG_LEVEL_NOT_SET CRS_LOG_LEVEL_NOT_SET false false false
                 (_delayInitiation rt), rt) He Ha Hl)
    as ([[g v en dis un dl] rt1] & E & F1 & F2 & F3).
  cbn [fst snd] in *.
  assert (parse_argument (chars "log=" ++ level) (mk_Locals g v en dis un dl, rt1)
          = Some (mk_Locals (Z.of_nat i) (Z.of_nat i) en dis un dl, rt1)) as E1.
  { destruct rt1. destruct i as [|[|[|[|[|[|i]]]]]]; cbn in Hi; try discriminate;
      injection Hi as <-; vm_compute; reflexivity. }
  rewrite E1 in E.
  destruct (parse_arguments_finish fuel _ needs_unlock rt _ rt1 E)
    as (rt' & -> & Hlv & _).
  { rewrite F1, Hf. apply andb_false_r. }
  exists rt'. split; [reflexivity|]. rewrite Hlv.
  cbn [vm_log_level]. rewrite decide_True; [reflexivity|]. lia.
Qed.

(** X25: an option is chosen by every key its name begins with: when the
    last argument of -XX:AzCRSArguments is [<key>=true] with a key that
    [enable] begins with, the empty key among them, and AzCRSMode was not set
    on the command line, CRS is switched to mode auto. *)
Theorem abbreviated_key_enables fuel earlier key rt :
  Forall argument earlier -> key `prefix_of` ENABLE_CRS_ARGUMENT ->
  AzCRSMode_is_default (flags rt) = true ->
  (length (joined (earlier ++ [key ++ chars "=true"])) < fuel)%nat ->
  exists rt',
    parse_arguments fuel (joined (earlier ++ [key ++ chars "=true"])) false rt
      = Some (Returns rt') /\
    _crs_mode rt' = CRS_MODE_AUTO.
Proof.
  intros He [k Hk] Hd Hl.
  assert (key = take (length key) ENABLE_CRS_ARGUMENT) as Hkey.
  { rewrite Hk, take_app_length. reflexivity. }
  assert (length key <= 6)%nat as H6.
  { apply (f_equal length) in Hk. rewrite length_app in Hk. cbn in Hk. lia. }
  clear Hk.
  assert (argument (key ++ chars "=true")) as Ha.
  { rewrite Hkey. destruct (length key) as [|[|[|[|[|[|[|n]]]]]]]; [..|lia]; split; by_computation. }
  destruct (parse_loop_joined fuel earlier _
              (mk_Locals CRS_LOG_LEVEL_NOT_SET CRS_LOG_LEVEL_NOT_SET false false false
                 (_delayInitiation rt), rt) He Ha Hl)
    as ([[g v en dis un dl] rt1] & E & F1 & F2 & F3).
  cbn [fst snd] in *.
  assert (exists l rt2,
            parse_argument (key ++ chars "=true") (mk_Locals g v en dis un dl, rt1)
              = Some (l, rt2) /\
            enable_crs l = true /\ disable_crs l = false /\ flags rt2 = flags rt1)
    as (l & rt2 & E1 & Hen & Hdis & F4).
  { rewrite Hkey. destruct rt1.
    destruct (length key) as [|[|[|[|[|[|[|n]]]]]]]; [..|lia];
      eexists _, _; (split; [vm_compute; reflexivity|]); cbn; repeat split. }
  rewrite E1 in E.
  destruct (parse_arguments_finish fuel _ false rt _ rt2 E)
    as (rt' & -> & _ & Hm & _).
  { rewrite Hdis. now rewrite andb_false_r. }
  exists rt'. split; [reflexivity|]. rewrite Hm, F4, F1, Hd, Hen. reflexivity.
Qed.

(** X26: arguments that need the unlock cannot switch the mode without it: if
    UnlockExperimentalCRS occurs nowhere in the arguments, a call with
    [needs_unlock] leaves [_crs_mode] as it was, whatever [enable] arguments
    there are. *)
Theorem mode_stays_without_unlock fuel arguments rt :
  NUL ∉ arguments ->
  (forall k, ~ UNLOCK_CRS_ARGUMENT `prefix_of` drop k arguments) ->
  AzCRSFailJVMOnError (flags rt) = false ->
  (length arguments < fuel)%nat ->
  exists rt',
    parse_arguments fuel arguments true rt = Some (Returns rt') /\
    _crs_mode rt' = _crs_mode rt.
Proof.
  intros Hn Hno Hf Hl.
  destruct (parse_loop_Some fuel arguments
              (mk_Locals CRS_LOG_LEVEL_NOT_SET CRS_LOG_LEVEL_NOT_SET false false false
                 (_delayInitiation rt), rt) Hn Hl) as ([l rt1] & E & F1 & F2 & F3 & F4).
  cbn [fst snd unlock_is_set] in *.
  assert (unlock_is_set l = false) as Hu.
  { destruct (unlock_is_set l); [|reflexivity].
    destruct (F4 eq_refl) as [?|[k Hk]]; [discriminate|]. now apply Hno in Hk. }
  destruct (parse_arguments_finish fuel arguments true rt l rt1 E)
    as (rt' & -> & _ & Hm & _).
  { rewrite F1, Hf. apply andb_false_r. }
  exists rt'. split; [reflexivity|]. rewrite Hm, Hu. cbn [negb orb].
  rewrite andb_false_r. exact F2.
Qed.

(** X27: a mode given on the command line is final: when AzCRSMode is not
    the default and names one of on, off and auto, [parse_options] leaves
    that mode, whatever the arguments of AZ_CRS_ARGUMENTS and of
    -XX:AzCRSArguments say. *)
Theorem explicit_mode_is_final fuel env_args rt name mode :
  (name, mode) ∈ [(CRS_MODE_STR_ON, CRS_MODE_ON); (CRS_MODE_STR_OFF, CRS_MODE_OFF);
                  (CRS_MODE_STR_AUTO, CRS_MODE_AUTO)] ->
  AzCRSMode (flags rt) = name ->
  AzCRSMode_is_default (flags rt) = false ->
  AzCRSFailJVMOnError (flags rt) = false ->
  (forall arguments,
     env_args = Some arguments \/ AzCRSArguments (flags rt) = Some arguments ->
     (NUL ∉ arguments) /\ (length arguments < fuel)%nat) ->
  exists rt',
    parse_options fuel env_args rt = Some (Returns rt') /\ _crs_mode rt' = mode.
Proof.
  intros Hin Hname Hd Hf Hargs. unfold parse_options.
  assert (exists rt0,
            (if decide (strcmp CRS_MODE_STR_ON (AzCRSMode (flags rt)) = 0)
             then Returns (set_crs_mode CRS_MODE_ON rt)
             else if decide (strcmp CRS_MODE_STR_OFF (AzCRSMode (flags rt)) = 0)
             then Returns (set_crs_mode CRS_MODE_OFF rt)
             else if decide (strcmp CRS_MODE_STR_AUTO (AzCRSMode (flags rt)) = 0)
             then Returns (set_crs_mode CRS_MODE_AUTO rt)
             else fatal_or_log log_error
                    ("Unexpected value of -XX:AzCRSMode='"
                     ++ string_of_list_ascii (AzCRSMode (flags rt))
                     ++ "' flag. Expecting one of on/off/auto") rt) = Returns rt0 /\
            flags rt0 = flags rt /\ _crs_mode rt0 = mode) as (rt0 & -> & G1 & G2).
  { rewrite Hname.
    apply elem_of_cons in Hin as [[= -> ->]|Hin];
      [|apply elem_of_cons in Hin as [[= -> ->]|Hin];
        [|apply list_elem_of_singleton in Hin as [= -> ->]]];
      eexists; (split; [vm_compute; reflexivity|]); split; reflexivity. }
  assert (exists rt1,
            match env_args with
            | Some arguments => parse_arguments fuel arguments true rt0
            | None => Some (Returns rt0)
            end = Some (Returns rt1) /\
            flags rt1 = flags rt /\ _crs_mode rt1 = mode) as (rt1 & -> & H1 & H2).
  { destruct env_args as [arguments|]; [|eauto].
    destruct (Hargs arguments (or_introl eq_refl)) as [Hn Hl].
    destruct (parse_arguments_explicit fuel arguments true rt0) as (rt1 & -> & ? & ?);
      try assumption; try congruence.
    exists rt1. repeat split; congruence. }
  cbn [mbind option_bind]. rewrite H1.
  destruct (AzCRSArguments (flags rt)) as [arguments|] eqn:Ea; [|eauto].
  destruct (Hargs arguments (or_intror eq_refl)) as [Hn Hl].
  destruct (parse_arguments_explicit fuel arguments false rt1) as (rt2 & -> & ? & ?);
    try assumption; try congruence.
  exists rt2. split; [reflexivity | congruence].
Qed.

End parse_arguments.

Arguments mk_Runtime {Flags} _ _ _ _ _ _.
Arguments flags {Flags} _.
Arguments _crs_mode {Flags} _.
Arguments _delayInitiation {Flags} _.
Arguments _log_level {Flags} _.
Arguments _should_notify_first_call {Flags} _.
Arguments tty {Flags} _.

(** ** Examples *)

Lemma parse_log_level_takes_whole_names_witness :
  parse_log_level (-1) (chars "debug,enable") 5 = Some 1 /\
  parse_log_level (-1) (chars "deb,enable") 3 = Some (-1).
Proof.
  split.
  - apply (proj1 (parse_log_level_takes_whole_names (-1) (chars "debug,enable") 5
                    ltac:(cbn; lia) ltac:(by_computation)) 1%nat).
    reflexivity.
  - apply (proj2 (parse_log_level_takes_whole_names (-1) (chars "deb,enable") 3
                    ltac:(cbn; lia) ltac:(by_computation))).
    by_computation.
Defined.

(** A table of flags: AzCRSMode and whether it is the default one,
    AzCRSArguments, and AzCRSFailJVMOnError. *)
Record flag_table := mk_flag_table {
  AzCRSMode : list ascii;
  AzCRSMode_default : bool;
  AzCRSArguments : option (list ascii);
  FailJVMOnError : bool
}.

Definition set_AzCRSMode (v : list ascii) (f : flag_table) : flag_table :=
  mk_flag_table v (AzCRSMode_default f) (AzCRSArguments f) (FailJVMOnError f).

(** The digits a value starts with. *)
Definition leading_digits (value : list ascii) : Z := (Listener.digits 0 value).1.

(** [parse_arguments] and [parse_options] on such a table, with the log
    levels numbered from trace = 0 to off = 5 and NOT_SET = -1. *)
Definition parse (fuel : nat) (arguments : list ascii) (needs_unlock : bool)
    (rt : Runtime flag_table) : option (outcome (Runtime flag_table)) :=
  parse_arguments flag_table AzCRSMode_default set_AzCRSMode FailJVMOnError
    (-1) 3 4 leading_digits fuel arguments needs_unlock rt.

Definition parse_all (fuel : nat) (env_args : option (list ascii))
    (rt : Runtime flag_table) : option (outcome (Runtime flag_table)) :=
  parse_options flag_table AzCRSMode AzCRSArguments AzCRSMode_default set_AzCRSMode
    FailJVMOnError (-1) 3 4 leading_digits fuel env_args rt.

(** The runtime before the options are parsed. *)
Definition at_start (mode : CRS_MODE_ENUM) (f : flag_table) : Runtime flag_table :=
  mk_Runtime f mode 2000 (-1) false [].

Definition by_default : flag_table := mk_flag_table (chars "off") true None false.

Definition switched_on : flag_table := mk_flag_table (chars "on") false None true.

Definition switched_off : flag_table :=
  mk_flag_table (chars "off") false (Some (chars "enable=true")) false.

Lemma parse_arguments_returns_witness :
  exists r,
    parse 22 (chars "log=info,enable=false") false (at_start CRS_MODE_ON switched_on)
      = Some r /\
    match r with
    | Returns rt' => _delayInitiation rt' = 2000 \/ 0 <= _delayInitiation rt' < INT_MAX
    | Fatal msg => CRS_MODE_ON = CRS_MODE_ON /\ true = true /\ msg = conflict
    end.
Proof.
  apply (parse_arguments_returns flag_table AzCRSMode_default set_AzCRSMode
           FailJVMOnError (-1) 3 4 leading_digits 22 (chars "log=info,enable=false")
           false (at_start CRS_MODE_ON switched_on)).
  - by_computation.
  - cbn. lia.
Defined.

Lemma last_log_argument_sets_level_witness :
  exists rt',
    parse 23 (chars "log+vm=trace,log=error") false (at_start CRS_MODE_OFF by_default)
      = Some (Returns rt') /\
    _log_level rt' = 4.
Proof.
  apply (last_log_argument_sets_level flag_table AzCRSMode_default set_AzCRSMode
           FailJVMOnError (-1) 3 4 leading_digits 23 [chars "log+vm=trace"] 4
           (chars "error") false (at_start CRS_MODE_OFF by_default)).
  - repeat constructor; by_computation.
  - reflexivity.
  - lia.
  - reflexivity.
  - cbn. lia.
Defined.

Lemma abbreviated_key_enables_witness :
  exists rt',
    parse 15 (chars "log=info,=true") false (at_start CRS_MODE_OFF by_default)
      = Some (Returns rt') /\
    _crs_mode rt' = CRS_MODE_AUTO.
Proof.
  apply (abbreviated_key_enables flag_table AzCRSMode_default set_AzCRSMode
           FailJVMOnError (-1) 3 4 leading_digits 15 [chars "log=info"] []
           (at_start CRS_MODE_OFF by_default)).
  - repeat constructor; by_computation.
  - apply prefix_nil.
  - reflexivity.
  - cbn. lia.
Defined.

Lemma mode_stays_without_unlock_witness :
  exists rt',
    parse 12 (chars "enable=true") true (at_start CRS_MODE_OFF by_default)
      = Some (Returns rt') /\
    _crs_mode rt' = CRS_MODE_OFF.
Proof.
  apply (mode_stays_without_unlock flag_table AzCRSMode_default set_AzCRSMode
           FailJVMOnError (-1) 3 4 leading_digits 12 (chars "enable=true")
           (at_start CRS_MODE_OFF by_default)).
  - by_computation.
  - intros k [x Hx]. apply (f_equal length) in Hx.
    rewrite length_drop, length_app in Hx. cbn in Hx. lia.
  - reflexivity.
  - cbn. lia.
Defined.

Lemma explicit_mode_is_final_witness :
  exists rt',
    parse_all 29 (Some (chars "UnlockExperimentalCRS,enable"))
      (at_start CRS_MODE_AUTO switched_off) = Some (Returns rt') /\
    _crs_mode rt' = CRS_MODE_OFF.
Proof.
  apply (explicit_mode_is_final flag_table AzCRSMode AzCRSArguments AzCRSMode_default
           set_AzCRSMode FailJVMOnError (-1) 3 4 leading_digits 29
           (Some (chars "UnlockExperimentalCRS,enable"))
           (at_start CRS_MODE_AUTO switched_off) CRS_MODE_STR_OFF CRS_MODE_OFF).
  - right. left.
  - reflexivity.
  - reflexivity.
  - reflexivity.
  - intros arguments [[= <-]|[= <-]]; split; try by_computation; cbn; lia.
Defined.

End Options.
